(** * Portico demo server: session manager and live forwarder

    A shallow embedding of [packages/portico-demo-server/src/data.ts]
    ([Store] and [ConnectedStore]) together with the message types of
    [message.ts] and the signal types of [src/signal.ts], and the request
    handlers of [app.ts] that call the store ([App]).

    The code talks to Redis through [ioredis]; every awaited Redis call is
    one node of a small command tree ([Prog]), so that the same definition
    of an operation can be run to completion on one connection ([run]) or
    advanced one round trip at a time and interleaved with another client
    or with key expiry ([step], [race], [vanish]). *)

From stdpp Require Import gmap strings list fin_maps pretty.
From Stdlib Require Import ZArith.

Local Open Scope string_scope.

(** ** Redis keys

    [type Key] of data.ts: the closed set of key shapes.  [key] joins the
    parts with a colon, as the source does.  The identifiers this code
    generates are UUIDs and contain no colon, so distinct [Key]s of them
    are distinct Redis keys ([key_inj] below); the store is indexed by
    [Key].  The session id in the URL of the session socket is text of the
    client; it is treated in "One Redis key under two Keys" below. *)

Inductive Key : Type :=
| KUser (id : string)
| KUserEvents (id : string)
| KSlugs
| KRoom (id : string)
| KRoomMessages (id : string)
| KRoomConnections (id : string)
| KConnection (id : string)
| KConnectionSignal (id : string).

Definition key_parts (k : Key) : list string :=
  match k with
  | KUser id => ["user"; id]
  | KUserEvents id => ["user"; id; "events"]
  | KSlugs => ["slugs"]
  | KRoom id => ["room"; id]
  | KRoomMessages id => ["room"; id; "messages"]
  | KRoomConnections id => ["room"; id; "connections"]
  | KConnection id => ["connection"; id]
  | KConnectionSignal id => ["connection"; id; "signal"]
  end.

Fixpoint join (sep : string) (parts : list string) : string :=
  match parts with
  | [] => ""
  | [p] => p
  | p :: rest => p +:+ sep +:+ join sep rest
  end.

Definition key (k : Key) : string := join ":" (key_parts k).

(** The text has no colon in it. *)
Fixpoint colon_free (s : string) : Prop :=
  match s with
  | EmptyString => True
  | String c s' => c ≠ Ascii.ascii_of_nat 58 ∧ colon_free s'
  end.

(** [text.split(":")] *)
Fixpoint split_colon (s : string) : list string :=
  match s with
  | EmptyString => [EmptyString]
  | String c s' =>
      if decide (c = Ascii.ascii_of_nat 58) then EmptyString :: split_colon s'
      else match split_colon s' with
           | [] => [String c EmptyString]
           | w :: ws => String c w :: ws
           end
  end.

Global Instance Key_eq_dec : EqDecision Key.
Proof. solve_decision. Defined.

Definition Key_code (k : Key) : nat * string :=
  match k with
  | KUser id => (0, id)
  | KUserEvents id => (1, id)
  | KSlugs => (2, "")
  | KRoom id => (3, id)
  | KRoomMessages id => (4, id)
  | KRoomConnections id => (5, id)
  | KConnection id => (6, id)
  | KConnectionSignal id => (7, id)
  end.

Definition Key_decode (c : nat * string) : Key :=
  match c with
  | (0, id) => KUser id
  | (1, id) => KUserEvents id
  | (2, _) => KSlugs
  | (3, id) => KRoom id
  | (4, id) => KRoomMessages id
  | (5, id) => KRoomConnections id
  | (6, id) => KConnection id
  | (_, id) => KConnectionSignal id
  end.

Global Instance Key_countable : Countable Key.
Proof. apply (inj_countable' Key_code Key_decode). by intros []. Defined.

(** ** Values *)

Inductive Role : Type := host | guest.

Global Instance Role_eq_dec : EqDecision Role.
Proof. solve_decision. Defined.

Definition Role_string (r : Role) : string :=
  match r with host => "host" | guest => "guest" end.

(** [message.ts]: [StoredMessage] is [Message] with the user replaced by
    the user id. *)
Inductive StoredMessage : Type :=
| Join (time : Z) (user : string) (session : string) (role : Role)
| Leave (time : Z) (user : string) (session : string)
| Chat (time : Z) (user : string) (session : string) (message : string).

(** [signal.ts]: ICE candidates and SDP descriptions. *)
Definition CandidateMedia : Type := option string * option Z.
Definition Candidate : Type := string * option CandidateMedia.

Inductive SDPDescriptionType : Type := offer | answer | pranswer | rollback.

Inductive Signal : Type :=
| ICE (candidates : list Candidate) (done : bool)
| SDP (type : SDPDescriptionType) (contents : string).

(** What [JSON.parse] of a stream entry's ["data"] field yields:
    [StoredMessage | Signal], or an object of some other [type]. *)
Inductive Data : Type :=
| DMessage (m : StoredMessage)
| DSignal (g : Signal)
| DOther (type : string).

(** One argument of a stream entry.  [Json d] stands for the text
    [JSON.stringify(d)]. *)
Inductive Arg : Type :=
| Str (s : string)
| Num (z : Z)
| Json (d : Data).

Record Entry : Type := { entry_id : N; entry_fields : list Arg }.

Record User : Type := { user_id : string; user_name : string; user_created : option Z }.

Record Room : Type :=
  { room_id : string; room_slug : string; room_created : option Z; room_owner : string }.

Record Session : Type :=
  { session_id : string; session_role : Role; session_room : string * string }.

(** The first argument of [getRoom]. *)
Inductive By : Type := by_id | by_slug.

(** [Pick<User, "name">], as [updateUser] meets it at run time: the
    properties of the object, whatever they are.  The type asks for a
    [name]; the handler of PUT /api/user hands over the request body
    without looking at it, and [hset] sends every property it finds, each
    value as text. *)
Definition UserName : Type := gmap string string.

Record RetentionConfig : Type := { retain_users : Z; retain_rooms : Z }.

(** The error classes at the end of data.ts, with a plain [Error] besides. *)
Inductive Error : Type :=
| Unauthorized (msg : string)
| Forbidden (msg : string)
| NotFound (msg : string)
| Conflict (msg : string)
| InvalidInput (msg : string)
| InternalError (msg : string).

Definition status (e : Error) : option Z :=
  match e with
  | Unauthorized _ => Some 401%Z
  | Forbidden _ => Some 403%Z
  | NotFound _ => Some 404%Z
  | Conflict _ => Some 409%Z
  | InvalidInput _ => Some 422%Z
  | InternalError _ => None
  end.

Inductive Result (A : Type) : Type :=
| Ok (a : A)
| Err (e : Error).
Arguments Ok {A} a.
Arguments Err {A} e.

(** ** The store

    Hashes and streams live in one key space.  [version] counts the
    modifications of a key, which is what WATCH observes.  [uuids] is the
    state of the [ui7] generator and [clock] the wall clock. *)

Abbreviation Hash := (gmap string string).

Record State : Type := {
  hashes : gmap Key Hash;
  streams : gmap Key (list Entry);
  ttl : gmap Key Z;
  version : gmap Key N;
  clock : Z;
  uuids : N;
}.

(** A connection remembers the keys it WATCHes with the version it saw. *)
Abbreviation Conn := (gmap Key N).

Definition hash_of (s : State) (k : Key) : Hash := default ∅ (hashes s !! k).
Definition stream_of (s : State) (k : Key) : list Entry := default [] (streams s !! k).
Definition version_of (s : State) (k : Key) : N := default 0%N (version s !! k).

Definition key_exists (s : State) (k : Key) : bool :=
  bool_decide (hash_of s k ≠ ∅) || bool_decide (is_Some (streams s !! k)).

Definition touch (k : Key) (s : State) : State :=
  {| hashes := hashes s; streams := streams s; ttl := ttl s;
     version := <[k := N.succ (version_of s k)]> (version s);
     clock := clock s; uuids := uuids s |}.

Definition set_hash (k : Key) (h : Hash) (s : State) : State :=
  {| hashes := (if decide (h = ∅) then delete k (hashes s) else <[k := h]> (hashes s));
     streams := streams s;
     ttl := (if decide (h = ∅) then delete k (ttl s) else ttl s);
     version := version s; clock := clock s; uuids := uuids s |}.

(** HSET / HMSET key field value ...: set the given fields. *)
Definition st_hset (k : Key) (h : Hash) (s : State) : State :=
  touch k (set_hash k (h ∪ hash_of s k) s).

(** HDEL key field: an emptied hash disappears. *)
Definition st_hdel (k : Key) (f : string) (s : State) : State :=
  match hash_of s k !! f with
  | Some _ => touch k (set_hash k (delete f (hash_of s k)) s)
  | None => s
  end.

(** PEXPIRE key ms: only an existing key gets a time to live. *)
Definition st_pexpire (k : Key) (ms : Z) (s : State) : State :=
  if key_exists s k then
    touch k {| hashes := hashes s; streams := streams s; ttl := <[k := ms]> (ttl s);
               version := version s; clock := clock s; uuids := uuids s |}
  else s.

(** The id XADD gives the next entry of a stream: larger than every id in
    that stream.  Redis takes it from the clock, so that ids also grow
    from one stream to the next and over the removal of a stream; here
    every stream counts for itself and a stream that was removed starts
    again.  Nothing below compares the ids of different streams, or of a
    stream before and after its removal. *)
Definition next_entry_id (es : list Entry) : N :=
  N.succ (foldr N.max 0%N (entry_id <$> es)).

(** XADD key args: [args] is everything the call passes after the key.
    With ["*"] in the id position the entry is appended under a fresh,
    larger id; anything else this code passes there is a field name, which
    Redis rejects as a stream id, so the command changes nothing. *)
Definition st_xadd (k : Key) (args : list Arg) (s : State) : State :=
  match args with
  | Str "*" :: fields =>
      let es := stream_of s k in
      touch k {| hashes := hashes s;
                 streams := <[k := (es ++ [ {| entry_id := next_entry_id es;
                                               entry_fields := fields |} ])%list]> (streams s);
                 ttl := ttl s; version := version s; clock := clock s; uuids := uuids s |}
  | _ => s
  end.

Definition xadd_reply (k : Key) (args : list Arg) (s : State) : option N :=
  match args with
  | Str "*" :: _ => Some (next_entry_id (stream_of s k))
  | _ => None
  end.

(** DEL key: the key goes, whatever it held. *)
Definition st_del (k : Key) (s : State) : State :=
  if key_exists s k then
    touch k {| hashes := delete k (hashes s); streams := delete k (streams s);
               ttl := delete k (ttl s);
               version := version s; clock := clock s; uuids := uuids s |}
  else s.

(** ** One Redis key under two [Key]s

    The store is indexed by [Key], the store of the code by the text [key]
    makes of it.  With a colon in an identifier two [Key]s can be one
    Redis key.  Records are kept under generated ids, which have none, and
    the ids of users and rooms are taken to be of that kind.  (The [id]
    field of a user record can be overwritten, see [updateUser]; keys made
    of such a field are not followed to another [Key].)  The session id of
    [getSession] and [deleteSession] is what the client put in the URL of
    the socket: for an id
    [<c>:signal] the record key [connection:<c>:signal] is the key of the
    signal stream of connection [c].  That twin is followed here: a hash
    command on the record key meets the stream (WRONGTYPE), and DEL of the
    record key removes it.  Where the model holds both a hash under the
    record key and a stream under its twin, which no Redis store can, the
    hash is what the key holds.  No record is under a key of that shape
    in a store this code built, and the stream commands are not followed
    to a twin. *)

(** [s] without [suffix] at its end, when it ends in it. *)
Fixpoint strip_suffix (suffix s : string) : option string :=
  if decide (s = suffix) then Some ""
  else match s with
       | EmptyString => None
       | String c s' => String c <$> strip_suffix suffix s'
       end.

(** The stream key that is the same text as the hash key [k]. *)
Definition stream_twin (k : Key) : option Key :=
  match k with
  | KConnection id => KConnectionSignal <$> strip_suffix ":signal" id
  | _ => None
  end.

(** The key of the hash [k] holds a stream. *)
Definition wrongtype (s : State) (k : Key) : bool :=
  match stream_twin k with
  | Some twin => bool_decide (hash_of s k = ∅) && bool_decide (is_Some (streams s !! twin))
  | None => false
  end.

Definition drop_twin (k : Key) (s : State) : State :=
  match stream_twin k with
  | Some twin =>
      {| hashes := hashes s; streams := delete twin (streams s);
         ttl := delete twin (ttl s);
         version := version s; clock := clock s; uuids := uuids s |}
  | None => s
  end.

(** ** Redis commands

    [Write] are the commands the code queues in a [pipeline()] or a
    [multi()]; [Cmd R] is one round trip with a reply of type [R]. *)

Inductive Write : Type :=
| HMSET (k : Key) (h : Hash)
| HSET (k : Key) (f v : string)
| HDEL (k : Key) (f : string)
| PEXPIRE (k : Key) (ms : Z)
| XADD (k : Key) (args : list Arg).

Inductive Cmd : Type → Type :=
| HGETALL (k : Key) : Cmd Hash
| HMGET (k : Key) (fs : list string) : Cmd (list (option string))
| HKEYS (k : Key) : Cmd (list string)
| HGET (k : Key) (f : string) : Cmd (option string)
| EXISTS (k : Key) : Cmd N
| WATCH (k : Key) : Cmd unit
| UNWATCH : Cmd unit
| MULTI_EXEC (ws : list Write) : Cmd (option unit)
| PIPELINE_EXEC (ws : list Write) : Cmd unit
| WRITE (w : Write) : Cmd unit
| XADD_ (k : Key) (args : list Arg) : Cmd (option N)
| DEL (ks : list Key) : Cmd unit
| XREAD (req : list (Key * N)) : Cmd (option (list (Key * list Entry)))
| UUID : Cmd string
| NOW : Cmd Z.

Definition apply_write (s : State) (w : Write) : State :=
  match w with
  | HMSET k h => st_hset k h s
  | HSET k f v => st_hset k {[ f := v ]} s
  | HDEL k f => st_hdel k f s
  | PEXPIRE k ms => st_pexpire k ms s
  | XADD k args => st_xadd k args s
  end.

Definition apply_writes (ws : list Write) (s : State) : State :=
  foldl apply_write s ws.

(** A queued command that Redis refuses on arrival: HSET without a field.
    EXEC then discards the whole transaction (EXECABORT). *)
Definition malformed (w : Write) : bool :=
  match w with
  | HMSET _ h => bool_decide (h = ∅)
  | _ => false
  end.

(** EXEC goes through when no watched key was modified since its WATCH. *)
Definition watch_clean (cn : Conn) (s : State) : Prop :=
  map_Forall (λ k v, version_of s k = v) cn.

Definition st_watch (k : Key) (cn : Conn) (s : State) : Conn :=
  match cn !! k with
  | Some _ => cn
  | None => <[k := version_of s k]> cn
  end.

(** The entries of each requested stream after its cursor; streams with
    nothing new are left out, and a read with nothing at all times out. *)
Definition st_xread (req : list (Key * N)) (s : State)
  : option (list (Key * list Entry)) :=
  let news :=
    omap (λ '(k, cursor),
            match filter (λ e, (cursor < entry_id e)%N) (stream_of s k) with
            | [] => None
            | es => Some (k, es)
            end) req in
  match news with [] => None | _ => Some news end.

Definition take_uuid (s : State) : State :=
  {| hashes := hashes s; streams := streams s; ttl := ttl s; version := version s;
     clock := clock s; uuids := N.succ (uuids s) |}.

(** The reply of a transaction stands for its outcome only as far as this
    code looks at it: [None] is a transaction that was not carried out,
    aborted by a broken WATCH or discarded with a refused command.  (The
    second rejects the promise of [exec()]; the one transaction that can
    be refused is the one of [updateUser], which does not wait for it.) *)
Definition exec {R} (c : Cmd R) (cn : Conn) (s : State) : R * Conn * State :=
  match c in Cmd R return R * Conn * State with
  | HGETALL k => (hash_of s k, cn, s)
  | HMGET k fs => ((λ f, hash_of s k !! f) <$> fs, cn, s)
  | HKEYS k => ((map_to_list (hash_of s k)).*1, cn, s)
  | HGET k f => (hash_of s k !! f, cn, s)
  | EXISTS k => (if key_exists s k then 1%N else 0%N, cn, s)
  | WATCH k => (tt, st_watch k cn s, s)
  | UNWATCH => (tt, ∅, s)
  | MULTI_EXEC ws =>
      if existsb malformed ws then (None, ∅, s)
      else if decide (watch_clean cn s) then (Some tt, ∅, apply_writes ws s)
      else (None, ∅, s)
  | PIPELINE_EXEC ws => (tt, cn, apply_writes ws s)
  | WRITE w => (tt, cn, apply_write s w)
  | XADD_ k args => (xadd_reply k args s, cn, st_xadd k args s)
  | DEL ks => (tt, cn, foldl (λ s k, drop_twin k (st_del k s)) s ks)
  | XREAD req => (st_xread req s, cn, s)
  | UUID => (pretty (uuids s), cn, take_uuid s)
  | NOW => (clock s, cn, s)
  end.

(** ** Programs over Redis *)

Inductive Prog (A : Type) : Type :=
| Ret (a : A)
| Throw (e : Error)
| Vis {R : Type} (c : Cmd R) (k : R → Prog A).
Arguments Ret {A} a.
Arguments Throw {A} e.
Arguments Vis {A R} c k.

Fixpoint bind {A B} (p : Prog A) (f : A → Prog B) : Prog B :=
  match p with
  | Ret a => f a
  | Throw e => Throw e
  | Vis c k => Vis c (λ r, bind (k r) f)
  end.

Global Instance Prog_ret : MRet Prog := @Ret.
Global Instance Prog_bind : MBind Prog := λ A B f p, bind p f.

(** [await this.redis.c(...)] *)
Definition await {R} (c : Cmd R) : Prog R := Vis c Ret.

(** The error reply with which Redis turns a command down: the awaited
    call rejects with it ([ReplyError], an [Error] without a status). *)
Definition WRONGTYPE : Error :=
  InternalError "WRONGTYPE Operation against a key holding the wrong kind of value".

Definition refused {R} (c : Cmd R) (s : State) : option Error :=
  match c with
  | HGETALL k | HMGET k _ | HKEYS k | HGET k _ =>
      if wrongtype s k then Some WRONGTYPE else None
  | _ => None
  end.

(** Run a program to completion on one connection, nothing interleaved. *)
Fixpoint run {A} (p : Prog A) (cn : Conn) (s : State) : Result A * Conn * State :=
  match p with
  | Ret a => (Ok a, cn, s)
  | Throw e => (Err e, cn, s)
  | Vis c k =>
      match refused c s with
      | Some e => (Err e, cn, s)
      | None => let '(r, cn', s') := exec c cn s in run (k r) cn' s'
      end
  end.

(** One round trip. *)
Definition step {A} (p : Prog A) (cn : Conn) (s : State) : Prog A * Conn * State :=
  match p with
  | Vis c k =>
      match refused c s with
      | Some e => (Throw e, cn, s)
      | None => let '(r, cn', s') := exec c cn s in (k r, cn', s')
      end
  | _ => (p, cn, s)
  end.

Fixpoint steps {A} (n : nat) (p : Prog A) (cn : Conn) (s : State) : Prog A * Conn * State :=
  match n with
  | O => (p, cn, s)
  | S n => let '(p', cn', s') := step p cn s in steps n p' cn' s'
  end.

(** Two clients, each on its own pooled connection; the schedule says
    whose next round trip reaches the server ([true]: the first).  When
    the schedule is used up the first runs to its end, then the second. *)
Fixpoint race {A B} (sched : list bool) (p : Prog A) (q : Prog B)
    (cp cq : Conn) (s : State) : Result A * Result B * State :=
  match sched with
  | [] =>
      let '(ra, _, s1) := run p cp s in
      let '(rb, _, s2) := run q cq s1 in
      (ra, rb, s2)
  | true :: sched => let '(p', cp', s') := step p cp s in race sched p' q cp' cq s'
  | false :: sched => let '(q', cq', s') := step q cq s in race sched p q' cp cq' s'
  end.

(** A key disappears behind the client's back: its time to live ran out,
    or another client deleted it.  Either way a WATCH on it is broken (for
    expiry this is the behaviour of Redis 6.0.9 and later). *)
Definition vanish (k : Key) (s : State) : State := st_del k s.

(** ** Actions

    An operation run on its connection from start to end, nothing
    interleaved: every [Prog] is one ([perform]), and so is a single
    command that [Cmd] does not list. *)

Definition Action (A : Type) : Type := Conn → State → Result A * Conn * State.

Definition perform {A} (p : Prog A) : Action A := run p.

Definition act_ret {A} (a : A) : Action A := λ cn s, (Ok a, cn, s).

Definition act_throw {A} (e : Error) : Action A := λ cn s, (Err e, cn, s).

Definition act_bind {A B} (m : Action A) (f : A → Action B) : Action B :=
  λ cn s,
    match m cn s with
    | (Ok a, cn', s') => f a cn' s'
    | (Err e, cn', s') => (Err e, cn', s')
    end.

(** HSETNX key field value: set the field unless the hash has it; the
    reply counts the fields set. *)
Definition hsetnx (k : Key) (f v : string) : Action N :=
  λ cn s,
    match hash_of s k !! f with
    | Some _ => (Ok 0%N, cn, s)
    | None => (Ok 1%N, cn, st_hset k {[ f := v ]} s)
    end.

(** ** Small JavaScript helpers *)

(** [h.f!]: a field read under a non-null assertion.  A missing field is
    [undefined], which [key] and Redis arguments render as the empty text. *)
Definition field (h : Hash) (f : string) : string := default "" (h !! f).

Definition digit_of (c : Ascii.ascii) : option Z :=
  let n := Ascii.nat_of_ascii c in
  if (48 <=? n)%nat && (n <=? 57)%nat then Some (Z.of_nat (n - 48)) else None.

Fixpoint parse_digits (acc : option Z) (s : string) : option Z :=
  match s with
  | EmptyString => acc
  | String c s' =>
      match digit_of c with
      | Some d => parse_digits (Some (10 * default 0 acc + d)%Z) s'
      | None => acc
      end
  end.

(** [s] without [p] at its front, when it begins with it. *)
Fixpoint strip_prefix (p s : string) : option string :=
  match p, s with
  | EmptyString, _ => Some s
  | String c p', String d s' => if Ascii.eqb c d then strip_prefix p' s' else None
  | String _ _, EmptyString => None
  end.

Definition bytes (ns : list nat) : string :=
  foldr (λ n s, String (Ascii.ascii_of_nat n) s) "" ns.

(** The white space and line terminators that [parseInt] skips in front
    of the number, as the bytes of their UTF-8 text: tab, line feed,
    vertical tab, form feed, carriage return, space, U+00A0, U+1680,
    U+2000 to U+200A, U+2028, U+2029, U+202F, U+205F, U+3000 and U+FEFF. *)
Definition white_space : list string :=
  bytes <$> [ [9]; [10]; [11]; [12]; [13]; [32]; [194; 160]; [225; 154; 128];
              [226; 128; 128]; [226; 128; 129]; [226; 128; 130]; [226; 128; 131];
              [226; 128; 132]; [226; 128; 133]; [226; 128; 134]; [226; 128; 135];
              [226; 128; 136]; [226; 128; 137]; [226; 128; 138];
              [226; 128; 168]; [226; 128; 169]; [226; 128; 175]; [226; 129; 159];
              [227; 128; 128]; [239; 187; 191] ]%nat.

(** [c] is the first byte of a character of white space. *)
Definition space_lead (c : Ascii.ascii) : bool :=
  existsb (λ w, match w with String c' _ => Ascii.eqb c' c | EmptyString => true end)
    white_space.

(** [s] after one character of white space, when it begins with one. *)
Definition strip_space (s : string) : option string :=
  head (omap (λ w, strip_prefix w s) white_space).

Fixpoint skip_space_upto (n : nat) (s : string) : string :=
  match n with
  | O => s
  | S n => match strip_space s with
           | Some rest => skip_space_upto n rest
           | None => s
           end
  end.

(** [s] without its leading white space; every character skipped is a
    byte or more, so the length of [s] is rounds enough. *)
Definition skip_space (s : string) : string := skip_space_upto (String.length s) s.

(** [Number.parseInt(value, 10)]; [None] is NaN. *)
Definition parseInt (s : string) : option Z :=
  match skip_space s with
  | String c s' =>
      if decide (c = Ascii.ascii_of_nat 45) then Z.opp <$> parse_digits None s'
      else if decide (c = Ascii.ascii_of_nat 43) then parse_digits None s'
      else parse_digits None (String c s')
  | EmptyString => None
  end.

(** The time values a [Date] can hold: 100 million days either side of
    the epoch, in milliseconds.  They are well inside the integers a
    number holds exactly. *)
Definition max_time : Z := 8640000000000000.

(** [new Date(t)]: [None] is an invalid date. *)
Definition TimeClip (t : Z) : option Z :=
  if decide (- max_time ≤ t ≤ max_time)%Z then Some t else None.

(** [date(value)]: milliseconds since the epoch, [None] an invalid date. *)
Definition date (value : string) : option Z := parseInt value ≫= TimeClip.

(** JavaScript truthiness of [string | undefined]. *)
Definition truthy (v : option string) : option string :=
  match v with
  | Some "" => None
  | _ => v
  end.

Inductive UserEvent : Type :=
| Register
| CreateRoom (id : string)
| JoinRoom (id : string) (role : Role).

(** [Object.entries(event).flat(1)] *)
Definition pairs (event : UserEvent) : list Arg :=
  match event with
  | Register => [Str "type"; Str "register"]
  | CreateRoom id => [Str "type"; Str "create room"; Str "id"; Str id]
  | JoinRoom id role =>
      [Str "type"; Str "join room"; Str "id"; Str id; Str "role"; Str (Role_string role)]
  end.

Definition message_type (m : StoredMessage) : string :=
  match m with Join _ _ _ _ => "join" | Leave _ _ _ => "leave" | Chat _ _ _ _ => "chat" end.

Definition message_time (m : StoredMessage) : Z :=
  match m with Join t _ _ _ => t | Leave t _ _ => t | Chat t _ _ _ => t end.

Definition message_user (m : StoredMessage) : string :=
  match m with Join _ u _ _ => u | Leave _ u _ => u | Chat _ u _ _ => u end.

Definition message_session (m : StoredMessage) : string :=
  match m with Join _ _ c _ => c | Leave _ _ c => c | Chat _ _ c _ => c end.

Definition signal_type (g : Signal) : string :=
  match g with ICE _ _ => "ice" | SDP _ _ => "sdp" end.

(** ** [class ConnectedStore]

    The operations on one borrowed connection. *)

Module ConnectedStore.
Section with_retain.
Variable retain : RetentionConfig.

(** [new Date()] is the clock read as a [Date], a valid one for every
    clock in the range of [Date]; [+created] is the clock again. *)
Definition createUser (name : string) : Prog User :=
  id ← await UUID;
  created ← await NOW;
  await (WRITE (HMSET (KUser id)
                  {[ "id" := id; "name" := name; "created" := pretty created ]}));;
  await (WRITE (PEXPIRE (KUser id) (retain_users retain)));;
  mret {| user_id := id; user_name := name; user_created := TimeClip created |}.

Definition getUser (id : string) : Prog (option User) :=
  data ← await (HGETALL (KUser id));
  if decide (data = ∅) then mret None
  else mret (Some {| user_id := field data "id";
                     user_name := field data "name";
                     user_created := date (field data "created") |}).

Definition addUserEvent (user : string) (event : UserEvent) : Prog unit :=
  n ← await (EXISTS (KUser user));
  if (n =? 0)%N then mret tt
  else
    await (PIPELINE_EXEC
             [ XADD (KUserEvents user) (pairs event);
               PEXPIRE (KUser user) (retain_users retain);
               PEXPIRE (KUserEvents user) (retain_users retain) ]).

(** [exec()] is not awaited here: what the source compares with [null] is
    the pending promise, not the reply.  The transaction is still sent, in
    order, on this connection. *)
Inductive Pending (R : Type) : Type := promise.
Arguments promise {R}.

Definition is_nullish {R} (p : Pending R) : bool := false.

Definition updateUser (id : string) (data : UserName) : Prog unit :=
  await (WATCH (KUser id));;
  n ← await (EXISTS (KUser id));
  if (n =? 0)%N then Throw (NotFound "User not found")
  else
    _ ← await (MULTI_EXEC [HMSET (KUser id) data]);
    let result : Pending (option unit) := promise in
    if is_nullish result
    then Throw (Conflict "Failed to change user name; please try again.")
    else mret tt.

Definition writeMessage (room : string) (message : StoredMessage) : Prog N :=
  id ← await (XADD_ (KRoomMessages room)
                [ Str "*"; Str "type"; Str (message_type message);
                  Str "time"; Num (message_time message);
                  Str "data"; Json (DMessage message) ]);
  match id with
  | None => Throw (InternalError "Failed to add message")
  | Some id =>
      await (PIPELINE_EXEC
               [ PEXPIRE (KRoom room) (retain_rooms retain);
                 PEXPIRE (KRoomMessages room) (retain_rooms retain) ]);;
      mret id
  end.

Definition createSession (room actor : string) : Prog Session :=
  reply ← await (HMGET (KRoom room) ["owner"; "slug"]);
  match mjoin (reply !! 0%nat), mjoin (reply !! 1%nat) with
  | Some owner, Some slug =>
      let role : Role := if decide (actor = owner) then host else guest in
      fields ← await (HKEYS (KRoomConnections room));
      let conns : gset string := list_to_set fields in
      let guests : gset string := filter (λ id, id ≠ owner) conns in
      if decide (actor ∈ conns) then Throw (Conflict "You are already in this room.")
      else if decide (role = guest ∧ 0 < size guests)
      then Throw (Conflict "A guest is already in this room.")
      else
        id ← await UUID;
        await (PIPELINE_EXEC
                 [ HMSET (KConnection id) {[ "room" := room; "owner" := actor ]};
                   HSET (KRoomConnections room) actor id;
                   PEXPIRE (KConnection id) (retain_rooms retain);
                   PEXPIRE (KRoomConnections room) (retain_rooms retain) ]);;
        addUserEvent actor (JoinRoom room role);;
        mret {| session_id := id; session_role := role; session_room := (room, slug) |}
  | _, _ => Throw (NotFound "Room not found")
  end.

Definition getSession (id : string) : Prog (option (string * string)) :=
  data ← await (HGETALL (KConnection id));
  if decide (data = ∅) then mret None
  else
    user ← getUser (field data "owner");
    match user with
    | None => mret None
    | Some user =>
        link ← await (HGET (KRoomConnections (field data "room")) (user_id user));
        mret (if decide (link = Some id)
              then Some (field data "room", user_id user)
              else None)
    end.

Definition deleteSession (id : string) : Prog unit :=
  session ← await (HGETALL (KConnection id));
  match truthy (session !! "room"), truthy (session !! "owner") with
  | Some room, Some owner =>
      await (WATCH (KRoomConnections room));;
      current ← await (HGET (KRoomConnections room) owner);
      (if decide (current = Some id)
       then _ ← await (MULTI_EXEC [HDEL (KRoomConnections room) owner]); mret tt
       else await UNWATCH);;
      await (DEL [KConnection id; KConnectionSignal id])
  | _, _ => Throw (NotFound "Connection not found")
  end.

Definition writeSignal (connection : string) (signal : Signal) : Prog N :=
  now ← await NOW;
  id ← await (XADD_ (KConnectionSignal connection)
                [ Str "*"; Str "type"; Str (signal_type signal);
                  Str "time"; Num now;
                  Str "data"; Json (DSignal signal) ]);
  match id with
  | None => Throw (InternalError "Failed to add signal")
  | Some id =>
      await (WRITE (PEXPIRE (KConnectionSignal connection) (retain_rooms retain)));;
      mret id
  end.

Definition resolveSlug (slug : string) : Prog (option string) :=
  await (HGET KSlugs slug).

Definition getRoom (by_ : By) (k : string) : Prog (option Room) :=
  id ← match by_ with
       | by_id => mret (Some k)
       | by_slug => resolveSlug k
       end;
  match id with
  | None => mret None
  | Some id =>
      data ← await (HGETALL (KRoom id));
      if decide (data = ∅) then mret None
      else mret (Some {| room_id := field data "id";
                         room_slug := field data "slug";
                         room_created := date (field data "created");
                         room_owner := field data "owner" |})
  end.

(** The loop of [allocateSlug] over the slugs [generateSlug()] returns,
    one per turn. *)
Fixpoint allocate (candidates : list string) (id : string) : Action string :=
  match candidates with
  | [] => act_throw (InternalError "Failed to generate room name")
  | slug :: candidates =>
      act_bind (hsetnx KSlugs slug id)
        (λ set, if (set =? 0)%N then allocate candidates id else act_ret slug)
  end.

(** [generateSlug i] is what the call of [generateSlug()] in turn [i]
    returns; there are four turns. *)
Definition allocateSlug (generateSlug : nat → string) (id : string) : Action string :=
  allocate (generateSlug <$> seq 0 4) id.

Definition createRoom (generateSlug : nat → string) (owner : string) : Action Room :=
  act_bind (perform (getUser owner)) (λ user,
    match user with
    | None => act_throw (NotFound "User is not registered")
    | Some _ =>
        act_bind (perform (await UUID)) (λ id,
        act_bind (allocateSlug generateSlug id) (λ slug,
        act_bind (perform (await NOW)) (λ created,
        act_bind (perform (await (WRITE (HMSET (KRoom id)
                    {[ "id" := id; "slug" := slug;
                       "created" := pretty created; "owner" := owner ]})))) (λ _,
        act_bind (perform (await (WRITE (PEXPIRE (KRoom id) (retain_rooms retain))))) (λ _,
        act_bind (perform (addUserEvent owner (CreateRoom id))) (λ _,
        act_ret {| room_id := id; room_slug := slug;
                   room_created := TimeClip created; room_owner := owner |}))))))
    end).

End with_retain.
End ConnectedStore.

(** ** The duplex transport of a forwarder *)

Inductive ReadyState : Type := CONNECTING | OPEN | CLOSING | CLOSED.

Global Instance ReadyState_eq_dec : EqDecision ReadyState.
Proof. solve_decision. Defined.

(** What [send] writes: a message with its user resolved ([{...data, user}]),
    or a signal as it is. *)
Inductive Event : Type :=
| EMessage (data : StoredMessage) (user : User)
| ESignal (data : Signal).

Record WebSocket : Type := { readyState : ReadyState; sent : list Event }.

Definition ws_send (message : Event) (ws : WebSocket) : WebSocket :=
  {| readyState := readyState ws; sent := (sent ws ++ [message])%list |}.

Definition ws_close (ws : WebSocket) : WebSocket :=
  {| readyState := CLOSING; sent := sent ws |}.

(** The local variables of [forwardEvents]. *)
Record Relay : Type := {
  users : gmap string (option User);
  messageCursor : N;
  peer : option string;
  peerCursor : N;
  dest : WebSocket;
}.

Definition set_users (u : gmap string (option User)) (st : Relay) : Relay :=
  {| users := u; messageCursor := messageCursor st; peer := peer st;
     peerCursor := peerCursor st; dest := dest st |}.
Definition set_messageCursor (c : N) (st : Relay) : Relay :=
  {| users := users st; messageCursor := c; peer := peer st;
     peerCursor := peerCursor st; dest := dest st |}.
Definition set_peer (p : option string) (st : Relay) : Relay :=
  {| users := users st; messageCursor := messageCursor st; peer := p;
     peerCursor := peerCursor st; dest := dest st |}.
Definition set_peerCursor (c : N) (st : Relay) : Relay :=
  {| users := users st; messageCursor := messageCursor st; peer := peer st;
     peerCursor := c; dest := dest st |}.
Definition send (message : Event) (st : Relay) : Relay :=
  {| users := users st; messageCursor := messageCursor st; peer := peer st;
     peerCursor := peerCursor st; dest := ws_send message (dest st) |}.
Definition close (st : Relay) : Relay :=
  {| users := users st; messageCursor := messageCursor st; peer := peer st;
     peerCursor := peerCursor st; dest := ws_close (dest st) |}.

(** The scan for the ["data"] field: even positions only, and a trailing
    name without a value is not looked at. *)
Fixpoint find_data (fields : list Arg) : option Arg :=
  match fields with
  | Str name :: value :: rest =>
      if decide (name = "data") then Some value else find_data rest
  | _ :: _ :: rest => find_data rest
  | _ => None
  end.

(** [JSON.parse]: the payloads this code writes are [Json]; a number parses
    to a number (no [type]); other text is taken not to be JSON. *)
Definition JSON_parse (a : Arg) : Result Data :=
  match a with
  | Json d => Ok d
  | Num _ => Ok (DOther "")
  | Str _ => Err (InternalError "SyntaxError")
  end.

(** ** [class Store]

    [run] of the source borrows a connection from the pool for one
    operation; here the connection is the [Conn] the program is run on.
    [forwardEvents] keeps its connection for as long as it relays. *)

Module Store.
Section with_retain.
Variable retain : RetentionConfig.

Definition createUser (name : string) : Prog User :=
  user ← ConnectedStore.createUser retain name;
  ConnectedStore.addUserEvent retain (user_id user) Register;;
  mret user.

Definition getUser (id : string) : Prog (option User) := ConnectedStore.getUser id.

Definition updateUser (id : string) (data : UserName) : Prog User :=
  ConnectedStore.updateUser id data;;
  user ← ConnectedStore.getUser id;
  match user with
  | None => Throw (Conflict "User no longer exists.")
  | Some user => mret user
  end.

Definition writeMessage (connection : string) (message : StoredMessage) : Prog N :=
  ConnectedStore.writeMessage retain connection message.

Definition createSession (room actor : string) : Prog Session :=
  ConnectedStore.createSession retain room actor.

Definition getSession (id : string) : Prog (option (string * string)) :=
  ConnectedStore.getSession id.

Definition deleteSession (id : string) : Prog unit := ConnectedStore.deleteSession id.

Definition writeSignal (connection : string) (signal : Signal) : Prog N :=
  ConnectedStore.writeSignal retain connection signal.

(** The memoising [getUser] closure of [forwardEvents]. *)
Definition getUser_cached (id : string) (st : Relay) : Prog (option User * Relay) :=
  match users st !! id with
  | Some user => mret (user, st)
  | None =>
      user ← ConnectedStore.getUser id;
      mret (user, set_users (<[id := user]> (users st)) st)
  end.

(** The body of the inner [for] loop: one entry [[id, fields]] of the
    stream [k]. *)
Definition consume (actor : string) (k : Key) (entry : Entry) (st : Relay) : Prog Relay :=
  let st :=
    if String.prefix "room:" (key k) then set_messageCursor (entry_id entry) st
    else if String.prefix "connection:" (key k) then set_peerCursor (entry_id entry) st
    else st in
  match find_data (entry_fields entry) with
  | None => mret st
  | Some text =>
      match JSON_parse text with
      | Err e => Throw e
      | Ok (DMessage data) =>
          '(user, st) ← getUser_cached (message_user data) st;
          let st :=
            match user with
            | Some user => send (EMessage data user) st
            | None => st
            end in
          mret match data with
               | Join _ user session _ =>
                   if decide (user ≠ actor) then set_peer (Some session) st else st
               | Leave _ _ session =>
                   if decide (Some session = peer st) then set_peer None st else st
               | Chat _ _ _ _ => st
               end
      | Ok (DSignal data) => mret (send (ESignal data) st)
      | Ok (DOther _) => mret st
      end
  end.

Fixpoint consume_entries (actor : string) (k : Key) (entries : list Entry) (st : Relay)
  : Prog Relay :=
  match entries with
  | [] => mret st
  | entry :: entries => st ← consume actor k entry st; consume_entries actor k entries st
  end.

Fixpoint consume_result (actor : string) (result : list (Key * list Entry)) (st : Relay)
  : Prog Relay :=
  match result with
  | [] => mret st
  | (k, entries) :: result =>
      st ← consume_entries actor k entries st; consume_result actor result st
  end.

(** One turn of the [while] loop: a blocking read, then its entries. *)
Definition relay_iteration (room actor : string) (st : Relay) : Prog Relay :=
  let req :=
    match truthy (peer st) with
    | Some peer =>
        [ (KRoomMessages room, messageCursor st); (KConnectionSignal peer, peerCursor st) ]
    | None => [ (KRoomMessages room, messageCursor st) ]
    end in
  result ← await (XREAD req);
  match result with
  | None => mret st
  | Some result => consume_result actor result st
  end.

(** The loop runs for as long as the transport stays open; [turns] bounds
    how many reads are followed. *)
Fixpoint relay_loop (turns : nat) (room actor : string) (st : Relay) : Prog Relay :=
  match turns with
  | O => mret st
  | S turns =>
      if decide (readyState (dest st) = OPEN)
      then st ← relay_iteration room actor st; relay_loop turns room actor st
      else mret st
  end.

(** The first peer is the first other occupant in the order of the reply
    to HGETALL.  [map_to_list] has an order of its own, which is the same
    for the at most one other occupant [createSession] admits; with two or
    more others, as after the race of two joins, the peer chosen here is
    one of them and need not be the one the code meets first. *)
Definition forwardEvents (turns : nat) (room actor connection : string) (ws : WebSocket)
  : Prog Relay :=
  let st := {| users := ∅; messageCursor := 0; peer := None; peerCursor := 0; dest := ws |} in
  conns ← await (HGETALL (KRoomConnections room));
  if decide (conns !! actor ≠ Some connection) then mret (close st)
  else
    let st :=
      match filter (λ '(userId, _), userId ≠ actor) (map_to_list conns) with
      | (_, pc) :: _ => set_peer (Some pc) st
      | [] => st
      end in
    relay_loop turns room actor st.

Definition createRoom (generateSlug : nat → string) (owner : string) : Action Room :=
  ConnectedStore.createRoom retain generateSlug owner.

Definition getRoom (by_ : By) (key : string) : Prog (option Room) :=
  ConnectedStore.getRoom by_ key.

End with_retain.
End Store.

(** ** The request handlers of [app.ts] that call the store

    The caller identity [user] is what the authentication middleware
    resolved, [None] when there is none. *)

Module App.
Section with_retain.
Variable retain : RetentionConfig.

(** POST /api/room/:slug/join *)
Definition join_room (user : option User) (slug : string) : Prog Session :=
  match user with
  | None => Throw (Unauthorized "Please register first.")
  | Some user =>
      room ← Store.getRoom by_slug slug;
      match room with
      | None => Throw (NotFound "Room not found.")
      | Some room =>
          session ← Store.createSession retain (room_id room) (user_id user);
          mret {| session_id := session_id session;
                  session_role := session_role session;
                  session_room := (room_id room, room_slug room) |}
      end
  end.

(** The checks with which [setup] of the session socket begins, up to
    the room it assigns to [room].  What [setup] does after them is started
    and not waited for (the forwarder, the Join written to the room's
    stream, the queued inputs) and is not part of this definition. *)
Definition setup_room (user : User) (id : string) : Prog Room :=
  session ← Store.getSession id;
  match session with
  | None => Throw (NotFound "Session not found.")
  | Some (session_room, session_owner) =>
      if decide (session_owner ≠ user_id user)
      then Throw (Forbidden "Session belongs to a different user.")
      else
        room ← Store.getRoom by_id session_room;
        match room with
        | None => Throw (NotFound "Room not found.")
        | Some room => mret room
        end
  end.

(** The socket's [close] handler; [room] is what [setup] found, if it got
    that far. *)
Definition on_close (room : option Room) (user : User) (id : string) : Prog unit :=
  match room with
  | Some room =>
      now ← await NOW;
      Store.writeMessage retain (room_id room) (Leave now (user_id user) id);;
      mret tt
  | None => mret tt
  end;;
  Store.deleteSession id.

End with_retain.
End App.

(** * Vocabulary of the properties *)

(** ** Effects of the session operations *)

(** Steps that leave every hash, every stream and the id generator alone
    (they may refresh a time to live). *)
Definition same_data (s s' : State) : Prop :=
  hashes s' = hashes s ∧ streams s' = streams s ∧ uuids s' = uuids s.

(** What a successful [createSession] leaves behind: the connection record
    under the new id and the actor's entry in the room's occupancy map;
    every other hash is as before, and the id generator has moved on. *)
Definition session_created (room actor id : string) (s s' : State) : Prop :=
  hash_of s' (KConnection id)
    = {[ "room" := room; "owner" := actor ]} ∪ hash_of s (KConnection id)
  ∧ hash_of s' (KRoomConnections room) = <[actor := id]> (hash_of s (KRoomConnections room))
  ∧ (∀ k, k ≠ KConnection id → k ≠ KRoomConnections room → hash_of s' k = hash_of s k)
  ∧ streams s' = streams s
  ∧ uuids s' = N.succ (uuids s).

(** What [deleteSession] does to a store in which the connection record
    names a room and an owner. *)
Definition session_deleted (id room owner : string) (cn : Conn) (s s' : State) : Prop :=
  let occ := hash_of s (KRoomConnections room) in
  hash_of s' (KRoomConnections room)
    = (if decide (occ !! owner = Some id ∧ watch_clean (st_watch (KRoomConnections room) cn s) s)
       then delete owner occ else occ)
  ∧ hash_of s' (KConnection id) = ∅
  ∧ streams s' !! KConnectionSignal id = None
  ∧ (∀ k, k ≠ KConnection id → k ≠ KConnectionSignal id → k ≠ KRoomConnections room →
          hash_of s' k = hash_of s k).

(** ** Occupancy

    The entries of an occupancy map that do not belong to the room owner. *)
Definition non_owners (owner : string) (occ : Hash) : gset string :=
  filter (λ id, id ≠ owner) (dom occ).

(** A room that has an owner holds at most one other occupant; a room
    without a record holds nobody. *)
Definition occupancy_ok (s : State) : Prop :=
  ∀ room,
    match hash_of s (KRoom room) !! "owner" with
    | Some owner => (size (non_owners owner (hash_of s (KRoomConnections room))) ≤ 1)%nat
    | None => hash_of s (KRoomConnections room) = ∅
    end.

Inductive Op : Type :=
| CreateSession (room actor : string)
| DeleteSession (id : string).

Definition run_op (retain : RetentionConfig) (op : Op) (cs : Conn * State) : Conn * State :=
  match op with
  | CreateSession room actor =>
      let '(_, cn', s') := run (Store.createSession retain room actor) cs.1 cs.2 in (cn', s')
  | DeleteSession id =>
      let '(_, cn', s') := run (Store.deleteSession id) cs.1 cs.2 in (cn', s')
  end.

Definition run_ops (retain : RetentionConfig) (ops : list Op) (cs : Conn * State)
  : Conn * State :=
  foldl (λ cs op, run_op retain op cs) cs ops.

(** ** The forwarder

    What the memoising [getUser] of a forwarder answers for [id]. *)
Definition resolve (s : State) (st : Relay) (id : string) : option User :=
  match users st !! id with
  | Some user => user
  | None =>
      let data := hash_of s (KUser id) in
      if decide (data = ∅) then None
      else Some {| user_id := field data "id"; user_name := field data "name";
                   user_created := date (field data "created") |}
  end.

(** What the [switch] does to [peer] for a message. *)
Definition peer_after (actor : string) (data : StoredMessage) (peer : option string)
  : option string :=
  match data with
  | Join _ user session _ => if decide (user ≠ actor) then Some session else peer
  | Leave _ _ session => if decide (Some session = peer) then None else peer
  | Chat _ _ _ _ => peer
  end.

(** ** A small world to run the code in

    Alice, Bob and Carol have registered; Alice has created the room [r]
    (slug [brave-otter]).  Nobody has joined yet. *)

Definition demo_retain : RetentionConfig :=
  {| retain_users := 604800000; retain_rooms := 108000000 |}.

Definition user_record (id name : string) : Hash :=
  {[ "id" := id; "name" := name; "created" := "1700000000000" ]}.

Definition room_record (id slug owner : string) : Hash :=
  {[ "id" := id; "slug" := slug; "created" := "1700000000000"; "owner" := owner ]}.

Definition lobby : State :=
  {| hashes :=
       <[KRoom "r" := room_record "r" "brave-otter" "alice"]>
         (<[KUser "carol" := user_record "carol" "Carol"]>
            (<[KUser "bob" := user_record "bob" "Bob"]>
               (<[KUser "alice" := user_record "alice" "Alice"]> ∅)));
     streams := ∅; ttl := ∅; version := ∅; clock := 1700000000000; uuids := 0 |}.

(** The store after [op] has run on a fresh connection. *)
Definition after {A} (p : Prog A) (s : State) : State := (run p ∅ s).2.

(** Bob has joined: his connection is ["0"]. *)
Definition bob_joined : State := after (Store.createSession demo_retain "r" "bob") lobby.

(** The occupancy map of [r] ran out and Bob joined again as ["1"]; the
    record of connection ["0"] is still there. *)
Definition bob_rejoined : State :=
  after (Store.createSession demo_retain "r" "bob") (vanish (KRoomConnections "r") bob_joined).

(** Bob's user record ran out while he is in the room. *)
Definition bob_forgotten : State := vanish (KUser "bob") bob_joined.


(** The user record of [id], if there is one, carries [id], as
    [createUser] writes it. *)
Definition user_keyed (s : State) (id : string) : Prop :=
  hash_of s (KUser id) ≠ ∅ → hash_of s (KUser id) !! "id" = Some id.

(** [updateUser] when the user record vanishes after the existence check
    and before the transaction is sent: WATCH and EXISTS have run. *)
Definition updateUser_interrupted (id : string) (data : UserName) (cn : Conn) (s : State)
  : Result User * Conn * State :=
  let '(rest, cn1, s1) := steps 2 (Store.updateUser id data) cn s in
  run rest cn1 (vanish (KUser id) s1).

Definition is_Ok {A} (r : Result A) : bool :=
  match r with Ok _ => true | Err _ => false end.

Definition demo_ops : list Op :=
  [ CreateSession "r" "bob"; CreateSession "r" "carol"; CreateSession "r" "alice";
    DeleteSession "0"; CreateSession "r" "carol"; CreateSession "r" "bob" ].

(** The acting user cannot be resolved: the cache holds [null] for the
    id, or the cache misses and the user record is gone. *)
Definition unresolved (s : State) (st : Relay) (id : string) : Prop :=
  users st !! id = Some None ∨ (users st !! id = None ∧ hash_of s (KUser id) = ∅).

(** A forwarder that has just started, with nothing sent yet. *)
Definition fresh_relay : Relay :=
  {| users := ∅; messageCursor := 0; peer := None; peerCursor := 0;
     dest := {| readyState := OPEN; sent := [] |} |}.

Definition entry_of (id : N) (data : StoredMessage) : Entry :=
  {| entry_id := id;
     entry_fields := [ Str "type"; Str (message_type data);
                       Str "time"; Num (message_time data);
                       Str "data"; Json (DMessage data) ] |}.

(** Alice (connection ["0"]) and Bob (["1"]) are both in the room, their
    Join messages are in the room's stream, and Alice has sent one batch of
    ICE candidates. *)
Definition both_joined : State :=
  after (Store.writeSignal demo_retain "0" (ICE [("foo", None)] false))
    (after (Store.writeMessage demo_retain "r" (Join 2 "bob" "1" guest))
       (after (Store.writeMessage demo_retain "r" (Join 1 "alice" "0" host))
          (after (Store.createSession demo_retain "r" "bob")
             (after (Store.createSession demo_retain "r" "alice") lobby)))).

(** Alice has disconnected: her Leave is in the stream and her session is
    deleted. *)
Definition alice_left : State :=
  after (Store.deleteSession "0")
    (after (Store.writeMessage demo_retain "r" (Leave 3 "alice" "0")) both_joined).

Definition open_socket : WebSocket := {| readyState := OPEN; sent := [] |}.

(** The forwarder state a run ends in ([fresh_relay] if it threw). *)
Definition relay_of (r : Result Relay * Conn * State) : Relay :=
  match r.1.1 with
  | Ok st => st
  | Err _ => fresh_relay
  end.

(** ** Streams and the forwarder's reads *)

(** The largest entry id of a stream, 0 for an empty one. *)
Definition last_entry_id (es : list Entry) : N := foldr N.max 0%N (entry_id <$> es).

(** Entry ids grow along the stream, as XADD assigns them. *)
Fixpoint stream_sorted (es : list Entry) : Prop :=
  match es with
  | [] => True
  | e :: es => Forall (λ e', (entry_id e < entry_id e')%N) es ∧ stream_sorted es
  end.

(** What [writeMessage] and [writeSignal] put after the entry id. *)
Definition message_fields (message : StoredMessage) : list Arg :=
  [ Str "type"; Str (message_type message); Str "time"; Num (message_time message);
    Str "data"; Json (DMessage message) ].

Definition signal_fields (now : Z) (signal : Signal) : list Arg :=
  [ Str "type"; Str (signal_type signal); Str "time"; Num now;
    Str "data"; Json (DSignal signal) ].

(** The streams and cursors a forwarder asks for in its next read. *)
Definition relay_request (room : string) (st : Relay) : list (Key * N) :=
  match truthy (peer st) with
  | Some peer =>
      [ (KRoomMessages room, messageCursor st); (KConnectionSignal peer, peerCursor st) ]
  | None => [ (KRoomMessages room, messageCursor st) ]
  end.

(** The events one entry makes a forwarder send: a message with its author
    resolved, if the author resolves, or a signal as it is. *)
Definition events_of (s : State) (st : Relay) (entry : Entry) : list Event :=
  match find_data (entry_fields entry) with
  | Some text =>
      match JSON_parse text with
      | Ok (DMessage data) =>
          match resolve s st (message_user data) with
          | Some user => [EMessage data user]
          | None => []
          end
      | Ok (DSignal data) => [ESignal data]
      | _ => []
      end
  | None => []
  end.

(** The entries of a read, in the order in which they are consumed. *)
Definition entries_read (result : list (Key * list Entry)) : list Entry :=
  concat result.*2.

(** The entries a read returns for a request: of each stream, in the order
    of the request, those past its cursor. *)
Definition unread (req : list (Key * N)) (s : State) : list Entry :=
  req ≫= λ '(k, cursor), filter (λ e, (cursor < entry_id e)%N) (stream_of s k).

(** The forwarder state [st'] continues [st]: the transport is in the same
    state and what was sent before is still the beginning of what is sent. *)
Definition continues (st st' : Relay) : Prop :=
  readyState (dest st') = readyState (dest st)
  ∧ sent (dest st) `prefix_of` sent (dest st').


(** ** Slugs for the small world

    What [generateSlug()] returns in the four turns of [allocateSlug], and
    a store in which all four are taken. *)

Definition demo_slug (turn : nat) : string :=
  default "" ([ "brave-otter"; "calm-heron"; "dizzy-newt"; "eager-finch" ] !! turn).

Definition lobby_listed : State := st_hset KSlugs {[ "brave-otter" := "r" ]} lobby.

Definition slugs_taken : State :=
  st_hset KSlugs {[ "brave-otter" := "r"; "calm-heron" := "q";
                    "dizzy-newt" := "p"; "eager-finch" := "o" ]} lobby.

(** ** What a forwarder does with what it reads *)

(** What one entry can do to the forwarder: the cursor of the entry's
    stream moves to the entry, the other cursor stays; the transport is not
    closed and nothing already sent is taken back; users once looked up stay
    as they were found. *)
Definition consumed (k : Key) (entry : Entry) (st st' : Relay) : Prop :=
  continues st st'
  ∧ messageCursor st'
    = (if String.prefix "room:" (key k) then entry_id entry else messageCursor st)
  ∧ peerCursor st'
    = (if String.prefix "room:" (key k) then peerCursor st
       else if String.prefix "connection:" (key k) then entry_id entry
       else peerCursor st)
  ∧ (∀ u, is_Some (users st !! u) → users st' !! u = users st !! u).

(** The cursor after the entries of a batch: the id of the last one. *)
Definition cursor_after (cursor : N) (entries : list Entry) : N :=
  foldl (λ _ entry, entry_id entry) cursor entries.

(** The same for the entries of one stream, and of a whole read. *)
Definition batch_consumed (k : Key) (entries : list Entry) (st st' : Relay) : Prop :=
  continues st st'
  ∧ messageCursor st'
    = (if String.prefix "room:" (key k) then cursor_after (messageCursor st) entries
       else messageCursor st)
  ∧ peerCursor st'
    = (if String.prefix "room:" (key k) then peerCursor st
       else if String.prefix "connection:" (key k)
            then cursor_after (peerCursor st) entries
       else peerCursor st)
  ∧ (∀ u, is_Some (users st !! u) → users st' !! u = users st !! u).

Definition message_cursor_after (cursor : N) (result : list (Key * list Entry)) : N :=
  foldl (λ c '(k, entries),
           if String.prefix "room:" (key k) then cursor_after c entries else c)
    cursor result.

Definition result_consumed (result : list (Key * list Entry)) (st st' : Relay) : Prop :=
  continues st st'
  ∧ messageCursor st' = message_cursor_after (messageCursor st) result
  ∧ (∀ u, is_Some (users st !! u) → users st' !! u = users st !! u).

(** * Properties *)

(** ** Keys

    [key] loses nothing when the identifiers have no colon in them: the
    parts can be read back, so distinct [Key]s are distinct Redis keys. *)

Lemma app_empty_r (p : string) : p +:+ "" = p.
Proof.
  induction p as [|c p IH]; [done|].
  change (String c p +:+ "") with (String c (p +:+ "")). by rewrite IH.
Qed.

Lemma split_colon_nonempty s : split_colon s ≠ [].
Proof. destruct s as [|c s]; cbn; [done|]. case_decide; [done|]. by case_match. Qed.

Lemma split_colon_app p s :
  colon_free p →
  split_colon (p +:+ s)
  = match split_colon s with
    | [] => [p]
    | w :: ws => (p +:+ w) :: ws
    end.
Proof.
  pose proof (split_colon_nonempty s) as Hne.
  induction p as [|c p IH]; intros Hp.
  - change ("" +:+ s) with s. by destruct (split_colon s).
  - destruct Hp as [Hc Hp]. change (String c p +:+ s) with (String c (p +:+ s)).
    cbn [split_colon]. rewrite decide_False by done. rewrite IH by done.
    by destruct (split_colon s).
Qed.

Lemma split_colon_word p : colon_free p → split_colon p = [p].
Proof.
  induction p as [|c p IH]; intros Hp; cbn; [done|].
  destruct Hp as [Hc Hp]. by rewrite decide_False, IH.
Qed.

Lemma split_colon_join parts :
  Forall colon_free parts → parts ≠ [] → split_colon (join ":" parts) = parts.
Proof.
  induction parts as [|p parts IH]; intros Hfree Hne; [done|].
  apply Forall_cons in Hfree as [Hp Hfree]. destruct parts as [|q parts].
  - by apply split_colon_word.
  - change (join ":" (p :: q :: parts)) with (p +:+ ":" +:+ join ":" (q :: parts)).
    rewrite split_colon_app by done.
    change (":" +:+ join ":" (q :: parts))
      with (String (Ascii.ascii_of_nat 58) (join ":" (q :: parts))).
    cbn [split_colon]. rewrite decide_True by done. rewrite IH by done.
    by rewrite app_empty_r.
Qed.

Lemma key_parts_inj k1 k2 : key_parts k1 = key_parts k2 → k1 = k2.
Proof. destruct k1, k2; cbn; intros H; by simplify_eq. Qed.

Lemma key_inj k1 k2 :
  Forall colon_free (key_parts k1) → Forall colon_free (key_parts k2) →
  key k1 = key k2 → k1 = k2.
Proof.
  intros H1 H2 Hkey. apply key_parts_inj.
  rewrite <-(split_colon_join (key_parts k1)), <-(split_colon_join (key_parts k2));
    [by f_equal|done|by destruct k2|done|by destruct k1].
Qed.

Lemma colon_free_app a b : colon_free (a +:+ ":" +:+ b) → False.
Proof.
  induction a as [|c a IH]; intros Hfree.
  - destruct Hfree as [Hcolon _]. by destruct Hcolon.
  - destruct Hfree as [_ Hfree]. by apply IH.
Qed.

(** The record of a room with a colon-free id is under a key of its own,
    whatever the ids in the other keys are. *)
Lemma key_room_alone id k : colon_free id → key k = key (KRoom id) → k = KRoom id.
Proof.
  intros Hfree Hkey. destruct k as [u|u| |r|r|r|c|c]; try discriminate Hkey.
  - injection Hkey as Hid. change ("" +:+ ?x) with x in Hid. by rewrite Hid.
  - injection Hkey as Hid. change ("" +:+ id) with id in Hid. subst id.
    by destruct (colon_free_app r "messages").
  - injection Hkey as Hid. change ("" +:+ id) with id in Hid. subst id.
    by destruct (colon_free_app r "connections").
Qed.

(** ** The store primitives, seen through [hash_of] and [stream_of] *)

Lemma hash_of_touch k k' s : hash_of (touch k s) k' = hash_of s k'.
Proof. reflexivity. Qed.

Lemma hash_of_set_hash k h s k' :
  hash_of (set_hash k h s) k' = if decide (k = k') then h else hash_of s k'.
Proof.
  unfold hash_of, set_hash; simpl.
  destruct (decide (h = ∅)) as [->|], (decide (k = k')) as [->|];
    by simplify_map_eq.
Qed.

Lemma hash_of_hset k h s k' :
  hash_of (st_hset k h s) k' = if decide (k = k') then h ∪ hash_of s k else hash_of s k'.
Proof. unfold st_hset. by rewrite hash_of_touch, hash_of_set_hash. Qed.

Lemma hash_of_hdel k f s k' :
  hash_of (st_hdel k f s) k' = if decide (k = k') then delete f (hash_of s k) else hash_of s k'.
Proof.
  unfold st_hdel. destruct (hash_of s k !! f) eqn:Hf.
  - by rewrite hash_of_touch, hash_of_set_hash.
  - destruct (decide (k = k')) as [->|]; [|done]. by rewrite delete_id.
Qed.

Lemma hash_of_pexpire k ms s k' : hash_of (st_pexpire k ms s) k' = hash_of s k'.
Proof. unfold st_pexpire. by destruct (key_exists s k). Qed.

Lemma hash_of_xadd k args s k' : hash_of (st_xadd k args s) k' = hash_of s k'.
Proof. unfold st_xadd. by repeat case_match. Qed.

Lemma hash_of_del k s k' :
  hash_of (st_del k s) k' = if decide (k = k') then ∅ else hash_of s k'.
Proof.
  unfold st_del. destruct (key_exists s k) eqn:Hex.
  - unfold hash_of; simpl. destruct (decide (k = k')) as [->|]; by simplify_map_eq.
  - destruct (decide (k = k')) as [<-|]; [|done].
    unfold key_exists in Hex. apply orb_false_iff in Hex as [Hh _].
    apply bool_decide_eq_false in Hh. by apply dec_stable in Hh.
Qed.

Lemma streams_del k s k' :
  streams (st_del k s) !! k' = if decide (k = k') then None else streams s !! k'.
Proof.
  unfold st_del. destruct (key_exists s k) eqn:Hex; simpl.
  - destruct (decide (k = k')) as [->|]; by simplify_map_eq.
  - destruct (decide (k = k')) as [<-|]; [|done].
    unfold key_exists in Hex. apply orb_false_iff in Hex as [_ Hs].
    apply bool_decide_eq_false in Hs. by apply eq_None_not_Some.
Qed.

Lemma uuids_touch k s : uuids (touch k s) = uuids s.
Proof. reflexivity. Qed.

Lemma key_exists_hash s k : hash_of s k ≠ ∅ → key_exists s k = true.
Proof.
  intros H. unfold key_exists. apply orb_true_iff. left. by apply bool_decide_eq_true.
Qed.

(** ** Running programs *)

Lemma run_bind {A B} (p : Prog A) (f : A → Prog B) cn s :
  run (bind p f) cn s =
  match run p cn s with
  | (Ok a, cn', s') => run (f a) cn' s'
  | (Err e, cn', s') => (Err e, cn', s')
  end.
Proof.
  revert cn s. induction p as [a|e|R c k IH]; intros cn s; simpl; [done..|].
  destruct (refused c s); [reflexivity|].
  destruct (exec c cn s) as [[r cn'] s']. apply IH.
Qed.

Lemma run_mbind {A B} (p : Prog A) (f : A → Prog B) cn s :
  run (p ≫= f) cn s =
  match run p cn s with
  | (Ok a, cn', s') => run (f a) cn' s'
  | (Err e, cn', s') => (Err e, cn', s')
  end.
Proof. apply run_bind. Qed.

Global Arguments st_hset : simpl never.
Global Arguments st_hdel : simpl never.
Global Arguments st_pexpire : simpl never.
Global Arguments st_xadd : simpl never.
Global Arguments st_del : simpl never.
Global Arguments hash_of : simpl never.
Global Arguments stream_of : simpl never.
Global Arguments key_exists : simpl never.
Global Arguments st_watch : simpl never.
Global Arguments pretty : simpl never.

Lemma run_Vis {A R} (c : Cmd R) (k : R → Prog A) cn s :
  refused c s = None →
  run (Vis c k) cn s = let '(r, cn', s') := exec c cn s in run (k r) cn' s'.
Proof. intros Hfine. cbn [run]. by rewrite Hfine. Qed.

Lemma run_Vis_refused {A R} (c : Cmd R) (k : R → Prog A) cn s e :
  refused c s = Some e → run (Vis c k) cn s = (Err e, cn, s).
Proof. intros Hrefused. cbn [run]. by rewrite Hrefused. Qed.

(** ** Keys with a twin *)

Lemma strip_suffix_app suffix s p : strip_suffix suffix s = Some p → s = p +:+ suffix.
Proof.
  revert p. induction s as [|c s IH]; intros p; cbn [strip_suffix].
  - destruct (decide ("" = suffix)) as [<-|]; [by intros [= <-]|discriminate].
  - destruct (decide (String c s = suffix)) as [<-|]; [by intros [= <-]|].
    destruct (strip_suffix suffix s) as [p'|]; [|discriminate].
    intros [= <-]. by rewrite (IH p' eq_refl).
Qed.

(** A twin is the same Redis key. *)
Lemma stream_twin_key k twin : stream_twin k = Some twin → key twin = key k.
Proof.
  destruct k as [| | | | | |id|]; try discriminate. cbn [stream_twin].
  destruct (strip_suffix ":signal" id) as [c|] eqn:Hid; [|discriminate].
  intros [= <-]. apply strip_suffix_app in Hid as ->. reflexivity.
Qed.

Lemma wrongtype_hash s k : hash_of s k ≠ ∅ → wrongtype s k = false.
Proof.
  intros Hhash. unfold wrongtype. destruct (stream_twin k); [|reflexivity].
  by rewrite bool_decide_eq_false_2.
Qed.

Lemma wrongtype_true s k :
  wrongtype s k = true
  → hash_of s k = ∅ ∧ ∃ twin, stream_twin k = Some twin ∧ is_Some (streams s !! twin).
Proof.
  unfold wrongtype. destruct (stream_twin k) as [twin|]; [|discriminate].
  intros [Hhash Hstream]%andb_true_iff.
  apply bool_decide_eq_true in Hhash. apply bool_decide_eq_true in Hstream.
  split; [exact Hhash|]. by exists twin.
Qed.

Lemma wrongtype_lookup s k f v : hash_of s k !! f = Some v → wrongtype s k = false.
Proof.
  intros Hf. apply wrongtype_hash. intros Hempty. rewrite Hempty, lookup_empty in Hf.
  discriminate Hf.
Qed.




Lemma refused_HGETALL_hash s k : hash_of s k ≠ ∅ → refused (HGETALL k) s = None.
Proof. intros Hhash. cbn [refused]. by rewrite wrongtype_hash. Qed.

Lemma hash_of_drop_twin k s k' : hash_of (drop_twin k s) k' = hash_of s k'.
Proof. unfold drop_twin. by destruct (stream_twin k). Qed.

Lemma streams_drop_twin k s k' :
  streams (drop_twin k s) !! k'
  = if decide (stream_twin k = Some k') then None else streams s !! k'.
Proof.
  unfold drop_twin. destruct (stream_twin k) as [twin|]; cbn [streams].
  - destruct (decide (Some twin = Some k')) as [[= ->]|Hne].
    + apply lookup_delete_eq.
    + apply lookup_delete_ne. congruence.
  - by rewrite decide_False.
Qed.

Lemma version_drop_twin k s : version (drop_twin k s) = version s.
Proof. unfold drop_twin. by destruct (stream_twin k). Qed.

Lemma streams_hdel k f s : streams (st_hdel k f s) = streams s.
Proof. unfold st_hdel. by destruct (hash_of s k !! f). Qed.

Lemma uuids_drop_twin k s : uuids (drop_twin k s) = uuids s.
Proof. unfold drop_twin. by destruct (stream_twin k). Qed.

Lemma drop_twin_no_twin k s : stream_twin k = None → drop_twin k s = s.
Proof. unfold drop_twin. by intros ->. Qed.

Global Arguments wrongtype : simpl never.
Global Arguments drop_twin : simpl never.

Lemma run_Ret {A} (a : A) cn s : run (Ret a) cn s = (Ok a, cn, s).
Proof. reflexivity. Qed.

Lemma run_Throw {A} e cn s : run (Throw e : Prog A) cn s = (Err e, cn, s).
Proof. reflexivity. Qed.

Global Arguments run : simpl never.

(** The first round trip of a program that begins with a hash read. *)
Lemma run_HGETALL_bind {A} (k : Key) (f : Hash → Prog A) cn s :
  run (await (HGETALL k) ≫= f) cn s
  = if wrongtype s k then (Err WRONGTYPE, cn, s) else run (f (hash_of s k)) cn s.
Proof.
  change (run (await (HGETALL k) ≫= f) cn s)
    with (match refused (HGETALL k) s with
          | Some e => (Err e, cn, s)
          | None => run (f (hash_of s k)) cn s
          end).
  cbn [refused]. by destruct (wrongtype s k).
Qed.

(** One round trip of [run]: normalise the program up to its next command,
    then execute that command. *)
Ltac run_step :=
  repeat (cbn; unfold await;
          first [rewrite run_Vis by reflexivity | rewrite run_Ret | rewrite run_Throw]);
  cbn.

Global Arguments ConnectedStore.addUserEvent : simpl never.
Global Arguments ConnectedStore.getUser : simpl never.

(** ** The operations, run on one connection *)
Lemma run_getUser id cn s :
  run (ConnectedStore.getUser id) cn s =
  (Ok (if decide (hash_of s (KUser id) = ∅) then None
       else Some {| user_id := field (hash_of s (KUser id)) "id";
                    user_name := field (hash_of s (KUser id)) "name";
                    user_created := date (field (hash_of s (KUser id)) "created") |}),
   cn, s).
Proof.
  unfold ConnectedStore.getUser. run_step.
  by destruct (decide (hash_of s (KUser id) = ∅)).
Qed.

Lemma same_data_refl s : same_data s s.
Proof. done. Qed.

Lemma same_data_trans s1 s2 s3 : same_data s1 s2 → same_data s2 s3 → same_data s1 s3.
Proof. intros (?&?&?) (?&?&?). repeat split; congruence. Qed.

Lemma same_data_pexpire k ms s : same_data s (st_pexpire k ms s).
Proof. unfold st_pexpire. by destruct (key_exists s k). Qed.

Lemma same_data_hash_of s s' k : same_data s s' → hash_of s' k = hash_of s k.
Proof. intros (H&_&_). unfold hash_of. by rewrite H. Qed.

Lemma xadd_pairs k event s : st_xadd k (pairs event) s = s.
Proof. by destruct event. Qed.

Lemma run_addUserEvent retain user event cn s :
  ∃ s', run (ConnectedStore.addUserEvent retain user event) cn s = (Ok tt, cn, s')
        ∧ same_data s s'.
Proof.
  unfold ConnectedStore.addUserEvent. run_step.
  destruct (key_exists s (KUser user)); run_step.
  - eexists. split; [done|]. rewrite xadd_pairs.
    eapply same_data_trans; apply same_data_pexpire.
  - by exists s.
Qed.

Lemma streams_hset k h s : streams (st_hset k h s) = streams s.
Proof. reflexivity. Qed.

Lemma uuids_hset k h s : uuids (st_hset k h s) = uuids s.
Proof. reflexivity. Qed.

Lemma hash_of_take_uuid s k : hash_of (take_uuid s) k = hash_of s k.
Proof. reflexivity. Qed.

(** The keys of a room's occupancy map, as [createSession] reads them. *)
Lemma hkeys_dom (m : Hash) : list_to_set (map_to_list m).*1 =@{gset string} dom m.
Proof. symmetry. apply leibniz_equiv, dom_alt. Qed.

Lemma run_createSession retain room actor cn s :
  let occ := hash_of s (KRoomConnections room) in
  let res := run (ConnectedStore.createSession retain room actor) cn s in
  match hash_of s (KRoom room) !! "owner", hash_of s (KRoom room) !! "slug" with
  | Some owner, Some slug =>
      if decide (actor ∈ dom occ)
      then res = (Err (Conflict "You are already in this room."), cn, s)
      else if decide (actor ≠ owner ∧ filter (λ id, id ≠ owner) (dom occ) ≠ ∅)
      then res = (Err (Conflict "A guest is already in this room."), cn, s)
      else ∃ s',
          res = (Ok {| session_id := pretty (uuids s);
                       session_role := if decide (actor = owner) then host else guest;
                       session_room := (room, slug) |}, cn, s')
          ∧ session_created room actor (pretty (uuids s)) s s'
  | _, _ => res = (Err (NotFound "Room not found"), cn, s)
  end.
Proof.
  intros occ res. subst res. unfold ConnectedStore.createSession.
  run_step.
  destruct (hash_of s (KRoom room) !! "owner") as [owner|]; [|done].
  destruct (hash_of s (KRoom room) !! "slug") as [slug|]; [|done].
  run_step. rewrite hkeys_dom. fold occ.
  destruct (decide (actor ∈ dom occ)); [done|].
  set (guests := filter (λ id : string, id ≠ owner) (dom occ)).
  assert (((if decide (actor = owner) then host else guest) = guest ∧ 0 < size guests)
          ↔ (actor ≠ owner ∧ guests ≠ ∅)) as Hguard.
  { assert (guests ≠ ∅ ↔ size guests ≠ 0) as ->.
    { rewrite size_non_empty_iff. by unfold_leibniz. }
    destruct (decide (actor = owner)); split; intros [??]; split; try done; lia. }
  destruct (decide (_ = guest ∧ _)) as [Hg|Hg];
    destruct (decide (actor ≠ owner ∧ _)) as [Hg'|Hg'];
    [done | by apply Hguard in Hg | by apply Hguard in Hg' |].
  run_step. rewrite run_mbind. clear Hguard Hg Hg'.
  set (id := pretty (uuids s)).
  set (s1 := st_hset (KRoomConnections room) {[actor := id]}
               (st_hset (KConnection id) {["room" := room; "owner" := actor]}
                  (take_uuid s))).
  set (s2 := st_pexpire (KRoomConnections room) _ (st_pexpire (KConnection id) _ s1)).
  destruct (run_addUserEvent retain actor
              (JoinRoom room (if decide (actor = owner) then host else guest)) cn s2)
    as (s' & -> & Hsame).
  assert (same_data s1 s') as Hs1.
  { eapply same_data_trans; [|exact Hsame].
    eapply same_data_trans; apply same_data_pexpire. }
  clearbody s2. clear Hsame s2.
  assert (∀ k, hash_of s' k = hash_of s1 k) as Hh
    by (intros k; by apply same_data_hash_of).
  destruct Hs1 as (_ & Hst & Hu). clearbody id.
  exists s'. split; [reflexivity|]. unfold session_created.
  rewrite !Hh, Hst, Hu. subst s1. rewrite !hash_of_hset.
  clear guests. clearbody occ. clear n.
  split; [|split; [|split; [|split]]].
  4:{ rewrite !streams_hset. reflexivity. }
  4:{ rewrite !uuids_hset. reflexivity. }
  - repeat case_decide; try discriminate; try congruence.
    rewrite hash_of_take_uuid. reflexivity.
  - repeat case_decide; try discriminate; try congruence.
    rewrite hash_of_take_uuid, insert_union_singleton_l. reflexivity.
  - intros k Hk1 Hk2. rewrite Hh. rewrite !hash_of_hset.
    repeat case_decide; try discriminate; try congruence.
    rewrite hash_of_take_uuid. reflexivity.
Qed.

Lemma watch_clean_empty s : watch_clean ∅ s.
Proof. apply map_Forall_empty. Qed.

Lemma watch_clean_watch k cn s : watch_clean cn s → watch_clean (st_watch k cn s) s.
Proof.
  intros H. unfold st_watch. destruct (cn !! k) eqn:Hk; [done|].
  by apply map_Forall_insert_2.
Qed.

Lemma run_deleteSession id cn s :
  let session := hash_of s (KConnection id) in
  let res := run (ConnectedStore.deleteSession id) cn s in
  if wrongtype s (KConnection id) then res = (Err WRONGTYPE, cn, s)
  else
    match truthy (session !! "room"), truthy (session !! "owner") with
    | Some room, Some owner =>
        ∃ s', res = (Ok tt, ∅, s') ∧ session_deleted id room owner cn s s'
    | _, _ => res = (Err (NotFound "Connection not found"), cn, s)
    end.
Proof.
  intros session res. subst res. unfold ConnectedStore.deleteSession.
  rewrite run_HGETALL_bind. destruct (wrongtype s (KConnection id)); [reflexivity|].
  fold session.
  destruct (truthy (session !! "room")) as [room|]; [|by rewrite run_Throw].
  destruct (truthy (session !! "owner")) as [owner|]; [|by rewrite run_Throw].
  run_step. set (occ := hash_of s (KRoomConnections room)).
  set (cn1 := st_watch (KRoomConnections room) cn s).
  unfold session_deleted. fold occ cn1.
  destruct (decide (occ !! owner = Some id)) as [Hcur|Hcur]; run_step.
  - destruct (decide (watch_clean cn1 s)) as [Hw|Hw]; run_step.
    + eexists; split; [done|].
      rewrite decide_True by done.
      rewrite ?hash_of_drop_twin, ?streams_drop_twin, !hash_of_del, ?hash_of_drop_twin, ?streams_del, ?hash_of_del, hash_of_hdel. fold occ.
      (split; [|split; [|split]]); repeat case_decide; try discriminate; try congruence; try reflexivity.
      intros k ???. rewrite ?hash_of_drop_twin, !hash_of_del, ?hash_of_drop_twin, ?hash_of_del, hash_of_hdel. repeat case_decide; congruence.
    + eexists; split; [done|].
      rewrite decide_False by tauto.
      rewrite ?hash_of_drop_twin, ?streams_drop_twin, !hash_of_del, ?hash_of_drop_twin, ?streams_del, ?hash_of_del. fold occ.
      (split; [|split; [|split]]); repeat case_decide; try discriminate; try congruence; try reflexivity.
      intros k ???. rewrite ?hash_of_drop_twin, !hash_of_del, ?hash_of_drop_twin, ?hash_of_del. repeat case_decide; congruence.
  - eexists; split; [done|].
    rewrite decide_False by tauto.
    rewrite ?hash_of_drop_twin, ?streams_drop_twin, !hash_of_del, ?hash_of_drop_twin, ?streams_del, ?hash_of_del. fold occ.
    (split; [|split; [|split]]); repeat case_decide; try discriminate; try congruence; try reflexivity.
    intros k ???. rewrite ?hash_of_drop_twin, !hash_of_del, ?hash_of_drop_twin, ?hash_of_del. repeat case_decide; congruence.
Qed.

(** [deleteSession] removes the signal stream of the session, and with
    the record key whatever stream the key held; it leaves every other
    stream alone. *)
Lemma deleteSession_streams id cn s k :
  k ≠ KConnection id → k ≠ KConnectionSignal id → stream_twin (KConnection id) ≠ Some k →
  streams (run (ConnectedStore.deleteSession id) cn s).2 !! k = streams s !! k.
Proof.
  intros Hrecord Hsignal Htwin. unfold ConnectedStore.deleteSession.
  rewrite run_HGETALL_bind. destruct (wrongtype s (KConnection id)); [reflexivity|].
  destruct (truthy (hash_of s (KConnection id) !! "room")) as [room|];
    [|by rewrite run_Throw].
  destruct (truthy (hash_of s (KConnection id) !! "owner")) as [owner|];
    [|by rewrite run_Throw].
  run_step.
  destruct (decide (hash_of s (KRoomConnections room) !! owner = Some id)); run_step.
  - destruct (decide (watch_clean _ s)); run_step;
      rewrite !streams_drop_twin, !streams_del, ?streams_drop_twin, ?streams_del,
        ?streams_hdel;
      by repeat case_decide.
  - rewrite !streams_drop_twin, !streams_del, ?streams_drop_twin, ?streams_del.
    by repeat case_decide.
Qed.

Lemma deleteSession_twin_gone id cn cn' s s' :
  run (ConnectedStore.deleteSession id) cn s = (Ok tt, cn', s') →
  wrongtype s' (KConnection id) = false.
Proof.
  intros Hrun. unfold wrongtype.
  destruct (stream_twin (KConnection id)) as [twin|] eqn:Htwin; [|reflexivity].
  assert (streams s' !! twin = None) as ->; [|by rewrite andb_false_r].
  revert Hrun. unfold ConnectedStore.deleteSession.
  rewrite run_HGETALL_bind. destruct (wrongtype s (KConnection id)); [discriminate|].
  destruct (truthy (hash_of s (KConnection id) !! "room")) as [room|];
    [|by rewrite run_Throw].
  destruct (truthy (hash_of s (KConnection id) !! "owner")) as [owner|];
    [|by rewrite run_Throw].
  run_step.
  destruct (decide (hash_of s (KRoomConnections room) !! owner = Some id)); run_step.
  - destruct (decide (watch_clean _ s)); run_step; intros [= <- <-];
      rewrite !streams_drop_twin, !streams_del, ?streams_drop_twin, ?streams_del;
      rewrite Htwin; by repeat case_decide.
  - intros [= <- <-].
    rewrite !streams_drop_twin, !streams_del, ?streams_drop_twin, ?streams_del.
    rewrite Htwin. by repeat case_decide.
Qed.

Lemma run_getSession id cn s :
  run (ConnectedStore.getSession id) cn s =
  if wrongtype s (KConnection id) then (Err WRONGTYPE, cn, s)
  else
  (Ok (let data := hash_of s (KConnection id) in
       let user := hash_of s (KUser (field data "owner")) in
       if decide (data = ∅) then None
       else if decide (user = ∅) then None
       else if decide (hash_of s (KRoomConnections (field data "room")) !! field user "id"
                       = Some id)
       then Some (field data "room", field user "id")
       else None),
   cn, s).
Proof.
  unfold ConnectedStore.getSession. rewrite run_HGETALL_bind.
  destruct (wrongtype s (KConnection id)); [reflexivity|]. cbv zeta.
  destruct (decide (hash_of s (KConnection id) = ∅)); [by rewrite run_Ret|].
  rewrite run_mbind, run_getUser.
  destruct (decide (hash_of s (KUser _) = ∅)); [done|]. run_step.
  by case_decide.
Qed.

(** ** The occupancy invariant *)

Lemma non_owners_insert_owner owner id (occ : Hash) :
  non_owners owner (<[owner := id]> occ) = non_owners owner occ.
Proof.
  unfold non_owners. rewrite dom_insert_L. apply set_eq. intros u.
  rewrite !elem_of_filter, elem_of_union, elem_of_singleton. tauto.
Qed.

Lemma non_owners_insert_guest owner actor id (occ : Hash) :
  actor ≠ owner → non_owners owner occ = ∅ →
  non_owners owner (<[actor := id]> occ) = {[actor]}.
Proof.
  unfold non_owners. intros Hguest Hnone. rewrite dom_insert_L. apply set_eq. intros u.
  rewrite elem_of_filter, elem_of_union, elem_of_singleton.
  split; [|intros ->; split; [done|by left]].
  intros [Hu [->|Hin]]; [done|].
  assert (u ∈ filter (λ id, id ≠ owner) (dom occ)) as Hin'
    by (apply elem_of_filter; by split).
  rewrite Hnone in Hin'. by apply not_elem_of_empty in Hin'.
Qed.

Lemma non_owners_delete owner u (occ : Hash) :
  non_owners owner (delete u occ) ⊆ non_owners owner occ.
Proof.
  unfold non_owners. rewrite dom_delete_L. intros v.
  rewrite !elem_of_filter, elem_of_difference. tauto.
Qed.

Lemma occupancy_ok_createSession retain room actor cn s :
  occupancy_ok s → occupancy_ok (run (ConnectedStore.createSession retain room actor) cn s).2.
Proof.
  intros Hok. pose proof (run_createSession retain room actor cn s) as Hrun. cbn zeta in Hrun.
  pose proof (Hok room) as Hroom.
  destruct (hash_of s (KRoom room) !! "owner") as [owner|] eqn:Howner;
    [destruct (hash_of s (KRoom room) !! "slug") as [slug|] eqn:Hslug|];
    [| by rewrite Hrun..].
  destruct (decide (actor ∈ _)) as [|Hfree]; [by rewrite Hrun|].
  destruct (decide (actor ≠ owner ∧ _)) as [|Hroomy]; [by rewrite Hrun|].
  destruct Hrun as (s' & -> & Hconn & Hocc & Hother & _). cbn [snd].
  intros room'. rewrite (Hother (KRoom room')) by done.
  destruct (decide (room' = room)) as [->|Hne].
  - rewrite Howner, Hocc. destruct (decide (actor = owner)) as [->|Hguest].
    + by rewrite non_owners_insert_owner.
    + rewrite non_owners_insert_guest; [by rewrite size_singleton|done|].
      apply dec_stable. intros ?. apply Hroomy. by split.
  - rewrite (Hother (KRoomConnections room')) by congruence. apply Hok.
Qed.

Lemma occupancy_ok_deleteSession id cn s :
  occupancy_ok s → occupancy_ok (run (ConnectedStore.deleteSession id) cn s).2.
Proof.
  intros Hok. pose proof (run_deleteSession id cn s) as Hrun. cbn zeta in Hrun.
  destruct (wrongtype s (KConnection id)); [by rewrite Hrun|].
  destruct (truthy (hash_of s (KConnection id) !! "room")) as [room|];
    [destruct (truthy (hash_of s (KConnection id) !! "owner")) as [owner|]|];
    [| by rewrite Hrun..].
  destruct Hrun as (s' & -> & Hocc & _ & _ & Hother). cbn [snd].
  intros room'. rewrite (Hother (KRoom room')) by done.
  destruct (decide (room' = room)) as [->|Hne].
  - pose proof (Hok room) as Hroom. rewrite Hocc.
    destruct (decide (_ ∧ _)); [|done].
    destruct (hash_of s (KRoom room) !! "owner") as [o|].
    + etrans; [apply subseteq_size, non_owners_delete|done].
    + rewrite Hroom. apply delete_empty.
  - rewrite (Hother (KRoomConnections room')) by congruence. apply Hok.
Qed.

Lemma occupancy_ok_run_op retain op cs :
  occupancy_ok cs.2 → occupancy_ok (run_op retain op cs).2.
Proof.
  intros Hok. destruct op as [room actor|id]; unfold run_op.
  - pose proof (occupancy_ok_createSession retain room actor cs.1 cs.2 Hok) as H.
    unfold Store.createSession.
    destruct (run (ConnectedStore.createSession retain room actor) cs.1 cs.2) as [[??]?].
    exact H.
  - pose proof (occupancy_ok_deleteSession id cs.1 cs.2 Hok) as H.
    unfold Store.deleteSession.
    destruct (run (ConnectedStore.deleteSession id) cs.1 cs.2) as [[??]?].
    exact H.
Qed.

Lemma occupancy_ok_run_ops retain ops cs :
  occupancy_ok cs.2 → occupancy_ok (run_ops retain ops cs).2.
Proof.
  revert cs. induction ops as [|op ops IH]; intros cs Hok; [done|].
  change (run_ops retain (op :: ops) cs) with (run_ops retain ops (run_op retain op cs)).
  by apply IH, occupancy_ok_run_op.
Qed.

Lemma occupancy_ok_empty s :
  (∀ room, hash_of s (KRoomConnections room) = ∅) → occupancy_ok s.
Proof.
  intros Hempty room. rewrite Hempty.
  destruct (hash_of s (KRoom room) !! "owner") as [owner|]; [|reflexivity].
  unfold non_owners. rewrite dom_empty_L.
  assert (filter (λ id : string, id ≠ owner) (∅ : gset string) = ∅) as ->.
  { apply set_eq. intros u. rewrite elem_of_filter. split; [|done]. by intros [_ ?]. }
  rewrite size_empty. lia.
Qed.

(** An occupancy map with at most one non-owner has at most two entries. *)
Lemma occupancy_size owner (occ : Hash) :
  (size (non_owners owner occ) ≤ 1)%nat → (size occ ≤ 2)%nat.
Proof.
  intros H. rewrite <-size_dom.
  assert (dom occ ⊆ {[owner]} ∪ non_owners owner occ) as Hsub.
  { unfold non_owners. intros u Hu. rewrite elem_of_union, elem_of_singleton, elem_of_filter.
    destruct (decide (u = owner)); [by left|by right]. }
  etrans; [apply (subseteq_size _ _ Hsub)|].
  rewrite size_union_alt, size_singleton.
  assert (size (non_owners owner occ ∖ {[owner]}) ≤ size (non_owners owner occ))%nat
    by (apply subseteq_size; intros u; rewrite elem_of_difference; tauto).
  lia.
Qed.

(** ** The forwarder's handling of one entry *)

Lemma run_getUser_cached id st cn s :
  ∃ st', run (Store.getUser_cached id st) cn s = (Ok (resolve s st id, st'), cn, s)
         ∧ peer st' = peer st ∧ dest st' = dest st
         ∧ messageCursor st' = messageCursor st ∧ peerCursor st' = peerCursor st.
Proof.
  unfold Store.getUser_cached, resolve. destruct (users st !! id) as [user|].
  - exists st. by rewrite run_Ret.
  - rewrite run_mbind, run_getUser. run_step. by eexists.
Qed.

Lemma run_consume_message actor k entry st cn s data :
  find_data (entry_fields entry) = Some (Json (DMessage data)) →
  ∃ st', run (Store.consume actor k entry st) cn s = (Ok st', cn, s)
         ∧ peer st' = peer_after actor data (peer st)
         ∧ sent (dest st')
           = match resolve s st (message_user data) with
             | Some user => (sent (dest st) ++ [EMessage data user])%list
             | None => sent (dest st)
             end.
Proof.
  intros Hdata. unfold Store.consume. rewrite Hdata. cbn [JSON_parse].
  set (st0 := if String.prefix "room:" (key k) then _ else _).
  assert (peer st0 = peer st ∧ dest st0 = dest st ∧ users st0 = users st) as (Hp & Hd & Hu).
  { subst st0. by repeat case_match. }
  rewrite run_mbind.
  destruct (run_getUser_cached (message_user data) st0 cn s)
    as (st1 & -> & Hp1 & Hd1 & _ & _).
  assert (resolve s st0 (message_user data) = resolve s st (message_user data)) as ->.
  { unfold resolve. by rewrite Hu. }
  rewrite <-Hp, <-Hd, <-Hp1, <-Hd1. clearbody st0. clear.
  destruct (resolve s st (message_user data)) as [user|]; run_step;
    eexists; (split; [reflexivity|]);
    destruct data; cbn; repeat case_decide; done.
Qed.

(** [createUser] writes a record that carries its id. *)
Lemma createUser_keyed retain name cn s :
  ∃ s', run (ConnectedStore.createUser retain name) cn s
        = (Ok {| user_id := pretty (uuids s); user_name := name;
                 user_created := TimeClip (clock s) |}, cn, s')
        ∧ hash_of s' (KUser (pretty (uuids s))) !! "id" = Some (pretty (uuids s)).
Proof.
  unfold ConnectedStore.createUser. run_step. eexists. split; [reflexivity|].
  rewrite hash_of_pexpire, hash_of_hset, decide_True by reflexivity.
  apply lookup_union_Some_l, lookup_insert_eq.
Qed.

(** * The statements of the specification *)

(** C1. For every room the occupancy map holds at most two entries, the
    room owner's and at most one of a non-owner, after any sequence of
    [createSession] and [deleteSession] calls run one after the other from
    a store whose occupancy maps are empty. *)
Theorem occupancy_invariant retain (ops : list Op) (cn : Conn) (s0 : State) :
  (∀ room, hash_of s0 (KRoomConnections room) = ∅) →
  ∀ room,
    let s := (run_ops retain ops (cn, s0)).2 in
    let occ := hash_of s (KRoomConnections room) in
    (size occ ≤ 2)%nat
    ∧ match hash_of s (KRoom room) !! "owner" with
      | Some owner => (size (non_owners owner occ) ≤ 1)%nat
      | None => occ = ∅
      end.
Proof.
  intros Hempty room s occ.
  assert (occupancy_ok s) as Hok
    by (apply occupancy_ok_run_ops, occupancy_ok_empty, Hempty).
  specialize (Hok room). fold occ in Hok.
  destruct (hash_of s (KRoom room) !! "owner") as [owner|].
  - split; [by eapply occupancy_size|done].
  - split; [|done]. rewrite Hok, map_size_empty. lia.
Qed.

Lemma lobby_empty room : hash_of lobby (KRoomConnections room) = ∅.
Proof.
  unfold hash_of, lobby; cbn [hashes].
  by rewrite !lookup_insert_ne, lookup_empty by discriminate.
Qed.

Lemma occupancy_invariant_witness :
  (∀ room, hash_of lobby (KRoomConnections room) = ∅)
  ∧
  let s := (run_ops demo_retain demo_ops (∅, lobby)).2 in
  let occ := hash_of s (KRoomConnections "r") in
  (size occ ≤ 2)%nat
  ∧ match hash_of s (KRoom "r") !! "owner" with
    | Some owner => (size (non_owners owner occ) ≤ 1)%nat
    | None => occ = ∅
    end.
Proof.
  split; [exact lobby_empty|].
  exact (occupancy_invariant demo_retain demo_ops ∅ lobby lobby_empty "r").
Defined.

(** C2. [createSession] reads the occupancy map and writes to it in
    separate round trips (HKEYS, then an unwatched pipeline): when Bob's
    and Carol's calls both read before either writes, both succeed and the
    room holds two guests. *)
Theorem createSession_race_admits_two_guests :
  let '(bob, carol, s) :=
    race [true; true; false; false]
      (Store.createSession demo_retain "r" "bob")
      (Store.createSession demo_retain "r" "carol") ∅ ∅ lobby in
  is_Ok bob = true ∧ is_Ok carol = true
  ∧ non_owners "alice" (hash_of s (KRoomConnections "r")) = {[ "bob"; "carol" ]}
  ∧ ¬ occupancy_ok s.
Proof.
  vm_compute race. split; [reflexivity|]. split; [reflexivity|]. split.
  - vm_compute. reflexivity.
  - intros Hok. specialize (Hok "r"). vm_compute in Hok. lia.
Qed.

Lemma field_lookup (h : Hash) f v : h !! f = Some v → field h f = v.
Proof. unfold field. by intros ->. Qed.




(** C4. [createSession] fails with NotFound when the room is absent; in an
    existing room it fails with Conflict when the actor already holds an
    entry, and when the actor is not the owner and a non-owner entry
    exists; otherwise it succeeds, and the new connection record and the
    actor's occupancy entry are written under a newly generated id. *)
Theorem createSession_outcomes retain (room actor : string) (cn : Conn) (s : State) :
  let occ := hash_of s (KRoomConnections room) in
  let res := run (Store.createSession retain room actor) cn s in
  (hash_of s (KRoom room) = ∅ → res = (Err (NotFound "Room not found"), cn, s))
  ∧ (∀ owner slug,
       hash_of s (KRoom room) !! "owner" = Some owner →
       hash_of s (KRoom room) !! "slug" = Some slug →
       (is_Some (occ !! actor) →
        res = (Err (Conflict "You are already in this room."), cn, s))
       ∧ (actor ≠ owner → (∃ u, u ≠ owner ∧ is_Some (occ !! u)) →
          ∃ msg, res = (Err (Conflict msg), cn, s))
       ∧ (occ !! actor = None →
          actor = owner ∨ (∀ u, is_Some (occ !! u) → u = owner) →
          ∃ s',
            res = (Ok {| session_id := pretty (uuids s);
                         session_role := if decide (actor = owner) then host else guest;
                         session_room := (room, slug) |}, cn, s')
            ∧ session_created room actor (pretty (uuids s)) s s')).
Proof.
  intros occ res. subst res. unfold Store.createSession.
  pose proof (run_createSession retain room actor cn s) as Hrun. cbn zeta in Hrun.
  fold occ in Hrun. split.
  - intros Habsent. rewrite Habsent, lookup_empty in Hrun. exact Hrun.
  - intros owner slug Howner Hslug. rewrite Howner, Hslug in Hrun.
    split; [|split].
    + intros Hin. apply elem_of_dom in Hin. by rewrite decide_True in Hrun.
    + intros Hguest (u & Hu & Hin). apply elem_of_dom in Hin.
      destruct (decide (actor ∈ dom occ)); [by eexists|].
      rewrite decide_True in Hrun; [by eexists|].
      split; [done|]. apply (non_empty_inhabited_L u), elem_of_filter. by split.
    + intros Hfree Hroomy. apply not_elem_of_dom in Hfree.
      rewrite decide_False in Hrun by done. rewrite decide_False in Hrun; [done|].
      intros [Hguest Hfull]. destruct Hroomy as [?|Hroomy]; [done|].
      apply set_choose_L in Hfull as (u & Hu). apply elem_of_filter in Hu as [Hne Hu].
      apply Hne, Hroomy. by apply elem_of_dom.
Qed.

Lemma createSession_outcomes_witness :
  run (Store.createSession demo_retain "nowhere" "bob") ∅ lobby
    = (Err (NotFound "Room not found"), ∅, lobby)
  ∧ run (Store.createSession demo_retain "r" "bob") ∅ bob_joined
    = (Err (Conflict "You are already in this room."), ∅, bob_joined)
  ∧ (∃ msg, run (Store.createSession demo_retain "r" "carol") ∅ bob_joined
            = (Err (Conflict msg), ∅, bob_joined))
  ∧ (∃ s', run (Store.createSession demo_retain "r" "bob") ∅ lobby
           = (Ok {| session_id := "0"; session_role := guest;
                    session_room := ("r", "brave-otter") |}, ∅, s')
           ∧ session_created "r" "bob" "0" lobby s').
Proof.
  split; [|split; [|split]].
  - apply (proj1 (createSession_outcomes demo_retain "nowhere" "bob" ∅ lobby)).
    by vm_compute.
  - apply (proj2 (createSession_outcomes demo_retain "r" "bob" ∅ bob_joined)
             "alice" "brave-otter"); [by vm_compute..|].
    vm_compute. by eexists.
  - apply (proj2 (createSession_outcomes demo_retain "r" "carol" ∅ bob_joined)
             "alice" "brave-otter"); [by vm_compute..|discriminate|].
    exists "bob". split; [discriminate|]. vm_compute. by eexists.
  - apply (proj2 (createSession_outcomes demo_retain "r" "bob" ∅ lobby)
             "alice" "brave-otter"); [by vm_compute..|].
    right. intros u. rewrite lobby_empty, lookup_empty. by intros [??].
Defined.




(** C6. After a [deleteSession] that succeeded, [getSession] on the same
    id yields absent. *)
Theorem getSession_after_deleteSession (id : string) (cn cn' cn2 : Conn) (s s' : State) :
  run (Store.deleteSession id) cn s = (Ok tt, cn', s') →
  run (Store.getSession id) cn2 s' = (Ok None, cn2, s').
Proof.
  unfold Store.deleteSession, Store.getSession. intros Hdel.
  pose proof (run_deleteSession id cn s) as Hrun. cbn zeta in Hrun.
  pose proof (deleteSession_twin_gone _ _ _ _ _ Hdel) as Htwin.
  rewrite Hdel in Hrun.
  destruct (wrongtype s (KConnection id)); [discriminate|].
  destruct (truthy (hash_of s (KConnection id) !! "room")) as [room|];
    [destruct (truthy (hash_of s (KConnection id) !! "owner")) as [owner|]|];
    [|discriminate..].
  destruct Hrun as (s1 & Heq & _ & Hrec & _).
  injection Heq as -> ->.
  rewrite run_getSession, Htwin. cbn zeta.
  destruct (decide (hash_of s1 (KConnection id) = ∅)); [reflexivity|contradiction].
Qed.

Lemma getSession_after_deleteSession_witness :
  run (Store.deleteSession "0") ∅ bob_joined
    = (Ok tt, ∅, after (Store.deleteSession "0") bob_joined)
  ∧ run (Store.getSession "0") ∅ (after (Store.deleteSession "0") bob_joined)
    = (Ok None, ∅, after (Store.deleteSession "0") bob_joined).
Proof.
  assert (run (Store.deleteSession "0") ∅ bob_joined
          = (Ok tt, ∅, after (Store.deleteSession "0") bob_joined)) as Hdel
    by (by vm_compute).
  split; [exact Hdel|].
  exact (getSession_after_deleteSession "0" ∅ ∅ ∅ bob_joined _ Hdel).
Defined.

Lemma st_watch_lookup k cn s :
  watch_clean cn s → st_watch k cn s !! k = Some (version_of s k).
Proof.
  intros Hclean. unfold st_watch. destruct (cn !! k) as [v|] eqn:Hk.
  - rewrite Hk. f_equal. symmetry. exact (Hclean k v Hk).
  - apply lookup_insert_eq.
Qed.

Lemma version_of_vanish k s :
  key_exists s k = true → version_of (vanish k s) k = N.succ (version_of s k).
Proof.
  intros Hex. unfold vanish, st_del. rewrite Hex.
  unfold version_of at 1; cbn [version touch]. by rewrite lookup_insert_eq.
Qed.

Lemma watch_dirty_after_vanish k cn s :
  key_exists s k = true → watch_clean cn s →
  ¬ watch_clean (st_watch k cn s) (vanish k s).
Proof.
  intros Hex Hclean Hstill.
  pose proof (Hstill k (version_of s k) (st_watch_lookup k cn s Hclean)) as Hv.
  cbn beta in Hv.
  rewrite version_of_vanish in Hv by done. lia.
Qed.

(** C7. [updateUser] fails with NotFound when the user record is not
    there at the existence check, and with Conflict when the record
    vanishes between that check and the commit of the name. *)
Theorem updateUser_failures (id : string) (data : UserName) (cn : Conn) (s : State) :
  (key_exists s (KUser id) = false →
   run (Store.updateUser id data) cn s
   = (Err (NotFound "User not found"), st_watch (KUser id) cn s, s))
  ∧ (key_exists s (KUser id) = true → watch_clean cn s →
     updateUser_interrupted id data cn s
     = (Err (Conflict "User no longer exists."), ∅, vanish (KUser id) s)).
Proof.
  split.
  - intros Hex. unfold Store.updateUser, ConnectedStore.updateUser.
    run_step. rewrite Hex. by run_step.
  - intros Hex Hclean. unfold updateUser_interrupted, Store.updateUser,
      ConnectedStore.updateUser.
    cbn. rewrite Hex. cbn. rewrite run_Vis by reflexivity. cbn [exec existsb malformed].
    assert (hash_of (vanish (KUser id) s) (KUser id) = ∅) as Hgone.
    { unfold vanish. rewrite hash_of_del. apply decide_True. reflexivity. }
    rewrite decide_False by by apply watch_dirty_after_vanish.
    match goal with
    | |- context [if ?b then ?x else ?x] => replace (if b then x else x) with x by (by destruct b)
    end.
    cbn. rewrite run_mbind, run_getUser.
    destruct (decide (hash_of (vanish (KUser id) s) (KUser id) = ∅)); [|contradiction].
    by rewrite run_Throw.
Qed.

Lemma updateUser_failures_witness :
  run (Store.updateUser "dave" {[ "name" := "Dave" ]}) ∅ lobby
    = (Err (NotFound "User not found"), st_watch (KUser "dave") ∅ lobby, lobby)
  ∧ updateUser_interrupted "bob" {[ "name" := "Robert" ]} ∅ lobby
    = (Err (Conflict "User no longer exists."), ∅, vanish (KUser "bob") lobby).
Proof.
  split.
  - apply (proj1 (updateUser_failures "dave" {[ "name" := "Dave" ]} ∅ lobby)).
    by vm_compute.
  - apply (proj2 (updateUser_failures "bob" {[ "name" := "Robert" ]} ∅ lobby)).
    + by vm_compute.
    + apply watch_clean_empty.
Defined.

(** The Conflict above is the one of [Store.updateUser]: the check in
    [ConnectedStore.updateUser] looks at a promise and never fires. *)
Lemma ConnectedStore_updateUser_no_conflict id data cn s msg :
  (run (ConnectedStore.updateUser id data) cn s).1.1 ≠ Err (Conflict msg).
Proof.
  unfold ConnectedStore.updateUser. run_step.
  destruct (key_exists s (KUser id)); run_step; [|discriminate].
  destruct (_ || _); [run_step; discriminate|].
  destruct (decide (watch_clean _ _)); run_step; discriminate.
Qed.

(** Left alone, [updateUser] writes the name and returns the user. *)
Lemma updateUser_undisturbed :
  (run (Store.updateUser "bob" {[ "name" := "Robert" ]}) ∅ lobby).1.1
  = Ok {| user_id := "bob"; user_name := "Robert"; user_created := Some 1700000000000%Z |}.
Proof. by vm_compute. Qed.

(** C9. [getSession] yields absent when the user record of the
    connection's owner is gone, whatever the occupancy map says. *)
Theorem getSession_owner_gone (id owner : string) (cn : Conn) (s : State) :
  hash_of s (KConnection id) !! "owner" = Some owner →
  hash_of s (KUser owner) = ∅ →
  run (Store.getSession id) cn s = (Ok None, cn, s).
Proof.
  intros Howner Hgone. unfold Store.getSession.
  rewrite run_getSession, (wrongtype_lookup _ _ _ _ Howner). cbn zeta.
  rewrite (field_lookup _ _ _ Howner).
  destruct (decide (hash_of s (KConnection id) = ∅)); [reflexivity|].
  destruct (decide (hash_of s (KUser owner) = ∅)); [reflexivity|contradiction].
Qed.

Lemma getSession_owner_gone_witness :
  hash_of bob_forgotten (KConnection "0") = {[ "room" := "r"; "owner" := "bob" ]}
  ∧ hash_of bob_forgotten (KRoomConnections "r") !! "bob" = Some "0"
  ∧ hash_of bob_forgotten (KUser "bob") = ∅
  ∧ run (Store.getSession "0") ∅ bob_forgotten = (Ok None, ∅, bob_forgotten).
Proof.
  split; [by vm_compute|]. split; [by vm_compute|]. split; [by vm_compute|].
  apply (getSession_owner_gone "0" "bob" ∅ bob_forgotten); by vm_compute.
Defined.

Lemma resolve_unresolved s st id : unresolved s st id → resolve s st id = None.
Proof.
  unfold resolve. intros [->|[-> Hgone]]; [done|]. by rewrite decide_True.
Qed.

(** C8. Consuming a Join of another user makes that entry's session the
    peer; consuming a Leave of the current peer's session drops the peer;
    any other Join, Leave or Chat leaves the peer as it was. *)
Theorem relay_peer_handoff (actor : string) (k : Key) (entry : Entry) (st : Relay)
    (cn : Conn) (s : State) (data : StoredMessage) :
  find_data (entry_fields entry) = Some (Json (DMessage data)) →
  ∃ st',
    run (Store.consume actor k entry st) cn s = (Ok st', cn, s)
    ∧ (∀ time user session role,
         data = Join time user session role → user ≠ actor → peer st' = Some session)
    ∧ (∀ time user session,
         data = Leave time user session → peer st = Some session → peer st' = None)
    ∧ (∀ time user session role,
         data = Join time user session role → user = actor → peer st' = peer st)
    ∧ (∀ time user session,
         data = Leave time user session → peer st ≠ Some session → peer st' = peer st)
    ∧ (∀ time user session message,
         data = Chat time user session message → peer st' = peer st).
Proof.
  intros Hdata.
  destruct (run_consume_message actor k entry st cn s data Hdata) as (st' & Hrun & Hpeer & _).
  exists st'. split; [exact Hrun|]. rewrite Hpeer. clear.
  split; [|split; [|split; [|split]]];
    intros; subst data; cbn; repeat case_decide; congruence.
Qed.

Lemma relay_peer_handoff_witness :
  (∃ st', run (Store.consume "alice" (KRoomMessages "r")
                 (entry_of 1 (Join 5 "bob" "0" guest)) fresh_relay) ∅ bob_joined
          = (Ok st', ∅, bob_joined)
          ∧ peer st' = Some "0")
  ∧ (∃ st', run (Store.consume "alice" (KRoomMessages "r")
                   (entry_of 2 (Leave 9 "bob" "0")) (set_peer (Some "0") fresh_relay))
              ∅ bob_joined
            = (Ok st', ∅, bob_joined)
            ∧ peer st' = None).
Proof.
  split.
  - destruct (relay_peer_handoff "alice" (KRoomMessages "r")
                (entry_of 1 (Join 5 "bob" "0" guest)) fresh_relay ∅ bob_joined
                (Join 5 "bob" "0" guest) eq_refl) as (st' & Hrun & Hjoin & _).
    exists st'. split; [exact Hrun|]. by eapply Hjoin.
  - destruct (relay_peer_handoff "alice" (KRoomMessages "r")
                (entry_of 2 (Leave 9 "bob" "0")) (set_peer (Some "0") fresh_relay)
                ∅ bob_joined (Leave 9 "bob" "0") eq_refl) as (st' & Hrun & _ & Hleave & _).
    exists st'. split; [exact Hrun|]. by eapply Hleave.
Defined.

(** C10. A Join, Leave or Chat whose user cannot be resolved is not sent
    to the destination, and the peer is still adopted (Join of another
    user) or dropped (Leave of the peer's session). *)
Theorem relay_unresolved_user (actor : string) (k : Key) (entry : Entry) (st : Relay)
    (cn : Conn) (s : State) (data : StoredMessage) :
  find_data (entry_fields entry) = Some (Json (DMessage data)) →
  unresolved s st (message_user data) →
  ∃ st',
    run (Store.consume actor k entry st) cn s = (Ok st', cn, s)
    ∧ sent (dest st') = sent (dest st)
    ∧ (∀ time user session role,
         data = Join time user session role → user ≠ actor → peer st' = Some session)
    ∧ (∀ time user session,
         data = Leave time user session → peer st = Some session → peer st' = None).
Proof.
  intros Hdata Hgone.
  destruct (run_consume_message actor k entry st cn s data Hdata)
    as (st' & Hrun & Hpeer & Hsent).
  rewrite (resolve_unresolved _ _ _ Hgone) in Hsent.
  exists st'. split; [exact Hrun|]. split; [exact Hsent|]. rewrite Hpeer. clear.
  split; intros; subst data; cbn; repeat case_decide; congruence.
Qed.

Lemma relay_unresolved_user_witness :
  unresolved bob_forgotten fresh_relay "bob"
  ∧ ∃ st', run (Store.consume "alice" (KRoomMessages "r")
                  (entry_of 1 (Join 5 "bob" "0" guest)) fresh_relay) ∅ bob_forgotten
           = (Ok st', ∅, bob_forgotten)
           ∧ sent (dest st') = []
           ∧ peer st' = Some "0".
Proof.
  assert (unresolved bob_forgotten fresh_relay "bob") as Hgone.
  { right. split; by vm_compute. }
  split; [exact Hgone|].
  destruct (relay_unresolved_user "alice" (KRoomMessages "r")
              (entry_of 1 (Join 5 "bob" "0" guest)) fresh_relay ∅ bob_forgotten
              (Join 5 "bob" "0" guest) eq_refl Hgone) as (st' & Hrun & Hsent & Hjoin & _).
  exists st'. split; [exact Hrun|]. split; [exact Hsent|]. by eapply Hjoin.
Defined.

(** When the user resolves, the message goes out with the user record in
    place of the id. *)
Lemma relay_resolved_user_forwarded :
  sent (dest (default fresh_relay
                (match (run (Store.consume "alice" (KRoomMessages "r")
                              (entry_of 1 (Join 5 "bob" "0" guest)) fresh_relay)
                          ∅ bob_joined).1.1 with
                 | Ok st => Some st
                 | Err _ => None
                 end)))
  = [ EMessage (Join 5 "bob" "0" guest)
        {| user_id := "bob"; user_name := "Bob"; user_created := Some 1700000000000%Z |} ].
Proof. by vm_compute. Qed.

(** ** The forwarder at work *)

(** A forwarder started for a connection that is not the actor's current
    one closes the transport at once. *)
Example forwardEvents_stale_connection :
  dest (relay_of (run (Store.forwardEvents 3 "r" "bob" "7" open_socket) ∅ both_joined))
  = {| readyState := CLOSING; sent := [] |}.
Proof. by vm_compute. Qed.

(** Bob's forwarder finds Alice as its peer, and its first read relays the
    two Joins with their users resolved and Alice's ICE batch as it is. *)
Example forwardEvents_first_turn :
  let st := relay_of (run (Store.forwardEvents 1 "r" "bob" "1" open_socket) ∅ both_joined) in
  peer st = Some "0"
  ∧ messageCursor st = 2%N ∧ peerCursor st = 1%N
  ∧ sent (dest st)
    = [ EMessage (Join 1 "alice" "0" host)
          {| user_id := "alice"; user_name := "Alice";
             user_created := Some 1700000000000%Z |};
        EMessage (Join 2 "bob" "1" guest)
          {| user_id := "bob"; user_name := "Bob";
             user_created := Some 1700000000000%Z |};
        ESignal (ICE [("foo", None)] false) ].
Proof. by vm_compute. Qed.

(** Once Alice has left, the next read hands Bob her Leave and the
    forwarder is without a peer again. *)
Example forwardEvents_peer_leaves :
  let st := relay_of (run (Store.forwardEvents 1 "r" "bob" "1" open_socket) ∅ both_joined) in
  let st' := relay_of (run (Store.relay_iteration "r" "bob" st) ∅ alice_left) in
  peer st' = None ∧ messageCursor st' = 3%N
  ∧ length (sent (dest st')) = 4%nat.
Proof. by vm_compute. Qed.

(** * Further properties of the code *)

(** ** Keys, once more *)

(** X1. [key] tells the keys apart as long as no identifier has a colon
    in it, and only then: an identifier that ends in [:events] turns a
    user's record into another user's event log. *)
Theorem key_separates_colon_free :
  (∀ k1 k2, Forall colon_free (key_parts k1) → Forall colon_free (key_parts k2) →
            k1 ≠ k2 → key k1 ≠ key k2)
  ∧ (∀ id, key (KUser (id +:+ ":events")) = key (KUserEvents id)).
Proof.
  split.
  - intros k1 k2 H1 H2 Hne Hkey. apply Hne. by apply key_inj.
  - intros id. unfold key. cbn [key_parts join]. reflexivity.
Qed.

Lemma key_separates_colon_free_witness :
  Forall colon_free (key_parts (KRoomMessages "r"))
  ∧ key (KRoomMessages "r") ≠ key (KRoomConnections "r").
Proof.
  assert (Forall colon_free (key_parts (KRoomMessages "r"))) as Hmessages
    by (repeat constructor; discriminate).
  split; [exact Hmessages|].
  apply (proj1 key_separates_colon_free (KRoomMessages "r") (KRoomConnections "r")).
  - exact Hmessages.
  - repeat constructor; discriminate.
  - discriminate.
Defined.

(** ** Dates: [+created] written by the store and [date] reading it back *)

Lemma digit_of_pretty_N_char (d : N) :
  (d < 10)%N → digit_of (pretty_N_char d) = Some (Z.of_N d).
Proof.
  intros Hd.
  assert (d = 0 ∨ d = 1 ∨ d = 2 ∨ d = 3 ∨ d = 4 ∨ d = 5 ∨ d = 6 ∨ d = 7 ∨ d = 8 ∨ d = 9)%N
    as Hcases by lia.
  repeat (destruct Hcases as [->|Hcases]; [reflexivity|]). by subst d.
Qed.

Lemma pretty_N_char_no_sign (d : N) :
  pretty_N_char d ≠ Ascii.ascii_of_nat 45 ∧ pretty_N_char d ≠ Ascii.ascii_of_nat 43.
Proof. unfold pretty_N_char. by repeat case_match. Qed.

Lemma skip_space_other (c : Ascii.ascii) (rest : string) :
  space_lead c = false → skip_space (String c rest) = String c rest.
Proof.
  intros Hlead. unfold skip_space. cbn [String.length skip_space_upto].
  assert (strip_space (String c rest) = None) as ->; [|reflexivity].
  unfold strip_space. revert Hlead. unfold space_lead.
  induction white_space as [|w ws IH]; [reflexivity|].
  cbn [existsb omap list_omap]. intros [Hw Hws]%orb_false_elim.
  destruct w as [|c' w]; [discriminate Hw|].
  cbn [strip_prefix]. rewrite Hw. exact (IH Hws).
Qed.

Lemma pretty_N_char_no_space (d : N) (rest : string) :
  skip_space (String (pretty_N_char d) rest) = String (pretty_N_char d) rest.
Proof.
  apply skip_space_other. unfold pretty_N_char.
  repeat case_match; vm_compute; reflexivity.
Qed.

Lemma pretty_N_go_head (x : N) (s : string) :
  (0 < x)%N → ∃ d rest, (d < 10)%N ∧ pretty_N_go x s = String (pretty_N_char d) rest.
Proof.
  revert s. induction (N.lt_wf_0 x) as [x _ IH]; intros s Hx.
  rewrite pretty_N_go_step by done.
  destruct (N.eq_0_gt_0_cases (x `div` 10)) as [Hsmall|Hbig].
  - rewrite Hsmall, pretty_N_go_0. exists (x `mod` 10)%N, s.
    split; [by apply N.mod_lt|done].
  - apply IH; [|done]. by apply N.div_lt.
Qed.

Lemma parse_digits_pretty_N_go (x : N) :
  (0 < x)%N →
  ∃ k : Z, (0 ≤ k)%Z ∧ ∀ acc s,
    parse_digits acc (pretty_N_go x s)
    = parse_digits (Some (default 0 acc * 10 ^ k + Z.of_N x)%Z) s.
Proof.
  induction (N.lt_wf_0 x) as [x _ IH]; intros Hx.
  assert (x `mod` 10 < 10)%N as Hd by (by apply N.mod_lt).
  assert (x `div` 10 < x)%N as Hlt by (by apply N.div_lt).
  pose proof (N.div_mod x 10 ltac:(done)) as Hx10.
  destruct (N.eq_0_gt_0_cases (x `div` 10)) as [Hsmall|Hbig].
  - exists 1%Z. split; [done|]. intros acc s.
    rewrite pretty_N_go_step, Hsmall, pretty_N_go_0 by done. cbn [parse_digits].
    rewrite digit_of_pretty_N_char by done. do 2 f_equal.
    rewrite Hsmall in Hx10. generalize dependent (x `mod` 10)%N. intros r _ ->. lia.
  - destruct (IH (x `div` 10)%N Hlt Hbig) as (k & Hk & IHk).
    exists (Z.succ k). split; [lia|]. intros acc s.
    rewrite pretty_N_go_step, IHk by done. cbn [parse_digits].
    rewrite digit_of_pretty_N_char by done. cbn [default]. do 2 f_equal.
    rewrite Z.pow_succ_r by done. clear IH IHk Hd Hlt Hbig.
    generalize dependent (x `mod` 10)%N. generalize dependent (x `div` 10)%N.
    intros q r ->. unfold id. rewrite N2Z.inj_add, N2Z.inj_mul. ring.
Qed.

Lemma parse_digits_pretty_N (x : N) :
  (0 < x)%N → parse_digits None (pretty_N_go x "") = Some (Z.of_N x).
Proof.
  intros Hx. destruct (parse_digits_pretty_N_go x Hx) as (k & _ & ->). by cbn.
Qed.

Lemma parseInt_pretty_pos (p : positive) :
  parseInt (pretty (N.pos p)) = Some (Z.pos p).
Proof.
  unfold pretty, pretty_N. rewrite decide_False by done.
  destruct (pretty_N_go_head (N.pos p) "") as (d & rest & Hd & Hhead); [done|].
  pose proof (parse_digits_pretty_N (N.pos p) ltac:(done)) as Hparse.
  rewrite Hhead in Hparse |- *. unfold parseInt.
  rewrite pretty_N_char_no_space.
  destruct (pretty_N_char_no_sign d) as [Hminus Hplus].
  by rewrite !decide_False.
Qed.

Lemma parseInt_pretty (ms : Z) : parseInt (pretty ms) = Some ms.
Proof.
  destruct ms as [|p|p].
  - reflexivity.
  - apply parseInt_pretty_pos.
  - change (pretty (Z.neg p)) with ("-" +:+ pretty (N.pos p)).
    change ("-" +:+ pretty (N.pos p)) with (String (Ascii.ascii_of_nat 45) (pretty (N.pos p))).
    unfold parseInt. rewrite skip_space_other by reflexivity.
    rewrite decide_True by done.
    unfold pretty, pretty_N. rewrite decide_False by done.
    by rewrite parse_digits_pretty_N.
Qed.

Lemma date_pretty (ms : Z) : date (pretty ms) = TimeClip ms.
Proof. unfold date. by rewrite parseInt_pretty. Qed.



(** ** Users *)

Lemma hashes_pexpire k ms s : hashes (st_pexpire k ms s) = hashes s.
Proof. unfold st_pexpire. by destruct (key_exists s k). Qed.

Lemma streams_pexpire k ms s : streams (st_pexpire k ms s) = streams s.
Proof. unfold st_pexpire. by destruct (key_exists s k). Qed.

Lemma ttl_pexpire k ms s k' :
  ttl (st_pexpire k ms s) !! k'
  = if decide (k = k' ∧ key_exists s k = true) then Some ms else ttl s !! k'.
Proof.
  unfold st_pexpire. destruct (key_exists s k) eqn:Hex; cbn [ttl touch].
  - destruct (decide (k = k')) as [->|Hne].
    + rewrite decide_True by done. apply lookup_insert_eq.
    + rewrite decide_False by tauto. by apply lookup_insert_ne.
  - apply eq_sym, decide_False. intros [_ ?]. discriminate.
Qed.

Lemma key_exists_pexpire k ms s k' : key_exists (st_pexpire k ms s) k' = key_exists s k'.
Proof. unfold key_exists, hash_of. by rewrite hashes_pexpire, streams_pexpire. Qed.

Lemma user_fields (id name created : string) (old : Hash) :
  let data := ({[ "id" := id; "name" := name; "created" := created ]} : Hash) ∪ old in
  data ≠ ∅ ∧ field data "id" = id ∧ field data "name" = name
  ∧ field data "created" = created.
Proof.
  cbn zeta. split; [|split; [|split]].
  - intros Hempty. apply (f_equal (λ m : Hash, m !! "id")) in Hempty.
    rewrite lookup_empty in Hempty.
    erewrite lookup_union_Some_l in Hempty by apply lookup_insert_eq. discriminate.
  - apply field_lookup, lookup_union_Some_l, lookup_insert_eq.
  - apply field_lookup, lookup_union_Some_l.
    rewrite lookup_insert_ne by discriminate. apply lookup_insert_eq.
  - apply field_lookup, lookup_union_Some_l.
    rewrite !lookup_insert_ne by discriminate. apply lookup_insert_eq.
Qed.

(** X3. A user that [createUser] returns is the user [getUser] finds
    under the returned id right afterwards, name and date included. *)
Theorem createUser_getUser retain (name : string) (cn : Conn) (s : State) :
  ∃ user s',
    run (Store.createUser retain name) cn s = (Ok user, cn, s')
    ∧ user_name user = name
    ∧ run (Store.getUser (user_id user)) cn s' = (Ok (Some user), cn, s').
Proof.
  unfold Store.createUser, ConnectedStore.createUser, Store.getUser.
  run_step. rewrite run_mbind.
  set (id := pretty (uuids s)).
  set (record := ({[ "id" := id; "name" := name; "created" := pretty (clock s) ]} : Hash)).
  set (s1 := st_pexpire (KUser id) _ (st_hset (KUser id) record (take_uuid s))).
  destruct (run_addUserEvent retain id Register cn s1) as (s' & -> & Hsame).
  run_step. eexists _, s'. split; [reflexivity|]. split; [reflexivity|].
  rewrite run_getUser. cbn [user_id].
  assert (hash_of s' (KUser id) = record ∪ hash_of s (KUser id)) as ->.
  { rewrite (same_data_hash_of _ _ _ Hsame). subst s1.
    rewrite hash_of_pexpire, hash_of_hset.
    destruct (decide (KUser id = KUser id)); [reflexivity|contradiction]. }
  destruct (user_fields id name (pretty (clock s)) (hash_of s (KUser id)))
    as (Hne & Hid & Hname & Hcreated).
  fold record in Hne, Hid, Hname, Hcreated.
  destruct (decide (record ∪ hash_of s (KUser id) = ∅)) as [Hempty|_]; [contradiction|].
  rewrite Hid, Hname, Hcreated, date_pretty. reflexivity.
Qed.

Lemma field_insert_ne (h : Hash) f g v : f ≠ g → field (<[f := v]> h) g = field h g.
Proof. intros Hne. unfold field. by rewrite lookup_insert_ne. Qed.

Lemma field_insert_eq (h : Hash) f v : field (<[f := v]> h) f = v.
Proof. unfold field. by rewrite lookup_insert_eq. Qed.

(** X4. On a connection without a stale watch, [updateUser] of an existing
    user writes every property of [data] into the user's record, keeping
    the fields [data] does not name, and returns the user as read back
    from it.  A body with a name alone changes the name; a body that also
    holds [id] or [created] overwrites those.  With an empty object the
    transaction is refused, nothing is written, and the user is returned as
    stored.  No other hash changes. *)
Theorem updateUser_writes_body (id : string) (data : UserName) (cn : Conn) (s : State) :
  hash_of s (KUser id) ≠ ∅ →
  watch_clean cn s →
  let old := hash_of s (KUser id) in
  let new := data ∪ old in
  ∃ s',
    run (Store.updateUser id data) cn s
    = (Ok {| user_id := field new "id"; user_name := field new "name";
             user_created := date (field new "created") |}, ∅, s')
    ∧ hash_of s' (KUser id) = new
    ∧ (∀ k, k ≠ KUser id → hash_of s' k = hash_of s k)
    ∧ (data = ∅ → s' = s).
Proof.
  intros Hexists Hclean old new.
  unfold Store.updateUser, ConnectedStore.updateUser. run_step.
  rewrite (key_exists_hash _ _ Hexists). run_step.
  match goal with
  | |- context [@bool_decide ?P ?dec] => destruct (@bool_decide P dec) eqn:Hdata
  end; cbn [orb].
  - apply bool_decide_eq_true in Hdata.
    assert (new = old) as Hsame by (subst new; rewrite Hdata; apply (left_id_L ∅ (∪))).
    run_step. rewrite run_mbind, run_getUser. fold old. rewrite Hsame.
    destruct (decide (old = ∅)) as [Hempty|_]; [contradiction|]. run_step.
    exists s. split; [reflexivity|]. split; [reflexivity|]. split; [reflexivity|reflexivity].
  - apply bool_decide_eq_false in Hdata.
    rewrite decide_True by by apply watch_clean_watch.
    run_step. rewrite run_mbind, run_getUser.
    set (s' := st_hset (KUser id) data s).
    assert (hash_of s' (KUser id) = new) as Hnew.
    { subst s'. rewrite hash_of_hset.
      destruct (decide (KUser id = KUser id)); [reflexivity|contradiction]. }
    exists s'. rewrite Hnew.
    match goal with
    | |- context [@decide ?P ?dec] => destruct (@decide P dec) as [Hempty|_]
    end.
    { subst new. apply map_positive_l in Hempty. contradiction. }
    run_step. split; [reflexivity|]. split; [reflexivity|]. split; [|contradiction].
    intros k Hk. subst s'. rewrite hash_of_hset.
    destruct (decide (KUser id = k)); [congruence|reflexivity].
Qed.

Lemma updateUser_writes_body_witness :
  hash_of lobby (KUser "bob") ≠ ∅
  ∧ ∃ s',
      run (Store.updateUser "bob" {[ "name" := "Robert"; "id" := "carol" ]}) ∅ lobby
      = (Ok {| user_id := "carol"; user_name := "Robert";
               user_created := Some 1700000000000%Z |}, ∅, s')
      ∧ hash_of s' (KUser "bob") !! "id" = Some "carol"
      ∧ hash_of s' (KUser "alice") = user_record "alice" "Alice".
Proof.
  assert (hash_of lobby (KUser "bob") ≠ ∅) as Hbob by (vm_compute; discriminate).
  split; [exact Hbob|].
  destruct (updateUser_writes_body "bob" {[ "name" := "Robert"; "id" := "carol" ]} ∅ lobby
              Hbob (watch_clean_empty lobby)) as (s' & Hrun & Hrec & Hother & _).
  exists s'. split; [|split].
  - rewrite Hrun. by vm_compute.
  - rewrite Hrec. by vm_compute.
  - rewrite Hother by discriminate. by vm_compute.
Defined.

(** X5. [addUserEvent] changes no hash and no stream: the [xadd] it queues
    is sent without an entry id, so nothing reaches the user's event
    stream.  For a missing user it does nothing at all; for an existing
    one it sets the time to live of the user record to the retention of
    users. *)
Theorem addUserEvent_effect retain (user : string) (event : UserEvent)
    (cn : Conn) (s : State) :
  ∃ s',
    run (ConnectedStore.addUserEvent retain user event) cn s = (Ok tt, cn, s')
    ∧ hashes s' = hashes s
    ∧ streams s' = streams s
    ∧ (key_exists s (KUser user) = false → s' = s)
    ∧ (key_exists s (KUser user) = true →
       ttl s' !! KUser user = Some (retain_users retain)).
Proof.
  unfold ConnectedStore.addUserEvent. run_step.
  destruct (key_exists s (KUser user)) eqn:Hex; run_step.
  - eexists. split; [reflexivity|]. rewrite xadd_pairs.
    rewrite !hashes_pexpire, !streams_pexpire.
    split; [reflexivity|]. split; [reflexivity|]. split; [discriminate|].
    intros _. rewrite ttl_pexpire, decide_False by (intros [? _]; discriminate).
    rewrite ttl_pexpire. by apply decide_True.
  - exists s. split; [reflexivity|]. split; [reflexivity|]. split; [reflexivity|].
    split; [reflexivity|discriminate].
Qed.

Lemma addUserEvent_effect_witness :
  key_exists lobby (KUser "bob") = true
  ∧ key_exists lobby (KUser "dave") = false
  ∧ (∃ s', run (ConnectedStore.addUserEvent demo_retain "bob" Register) ∅ lobby
           = (Ok tt, ∅, s')
           ∧ streams s' = streams lobby
           ∧ ttl s' !! KUser "bob" = Some 604800000%Z)
  ∧ run (ConnectedStore.addUserEvent demo_retain "dave" Register) ∅ lobby
    = (Ok tt, ∅, lobby).
Proof.
  assert (key_exists lobby (KUser "bob") = true) as Hbob by (by vm_compute).
  assert (key_exists lobby (KUser "dave") = false) as Hdave by (by vm_compute).
  split; [exact Hbob|]. split; [exact Hdave|]. split.
  - destruct (addUserEvent_effect demo_retain "bob" Register ∅ lobby)
      as (s' & Hrun & _ & Hstreams & _ & Httl).
    exists s'. split; [exact Hrun|]. split; [exact Hstreams|]. exact (Httl Hbob).
  - destruct (addUserEvent_effect demo_retain "dave" Register ∅ lobby)
      as (s' & Hrun & _ & _ & Hsame & _).
    rewrite Hrun. by rewrite (Hsame Hdave).
Defined.

(** ** Sessions *)

Lemma session_record_fields (room actor : string) (old : Hash) :
  let data := ({[ "room" := room; "owner" := actor ]} : Hash) ∪ old in
  data ≠ ∅ ∧ data !! "room" = Some room ∧ data !! "owner" = Some actor.
Proof.
  cbn zeta.
  assert ((({[ "room" := room; "owner" := actor ]} : Hash) ∪ old) !! "room" = Some room)
    as Hroom by apply lookup_union_Some_l, lookup_insert_eq.
  split; [|split; [exact Hroom|]].
  - intros Hempty. rewrite Hempty, lookup_empty in Hroom. discriminate.
  - apply lookup_union_Some_l. rewrite lookup_insert_ne by discriminate.
    apply lookup_insert_eq.
Qed.

(** How a [createSession] that returned a session got there. *)
Lemma createSession_Ok_inv retain room actor cn s sess cn' s' :
  run (ConnectedStore.createSession retain room actor) cn s = (Ok sess, cn', s') →
  session_id sess = pretty (uuids s)
  ∧ hash_of s (KRoomConnections room) !! actor = None
  ∧ session_created room actor (pretty (uuids s)) s s'.
Proof.
  intros Hrun. pose proof (run_createSession retain room actor cn s) as Hspec.
  cbn zeta in Hspec. rewrite Hrun in Hspec.
  destruct (hash_of s (KRoom room) !! "owner") as [owner|]; [|discriminate].
  destruct (hash_of s (KRoom room) !! "slug") as [slug|]; [|discriminate].
  destruct (decide (actor ∈ dom (hash_of s (KRoomConnections room)))) as [|Hfree];
    [discriminate|].
  destruct (decide (actor ≠ owner ∧ _)); [discriminate|].
  destruct Hspec as (s1 & Heq & Hcreated). injection Heq as -> _ ->.
  split; [reflexivity|]. split; [|exact Hcreated]. by apply not_elem_of_dom.
Qed.

(** X6. The session [createSession] returns resolves: for an actor whose
    user record exists, [getSession] on the new id yields the room and the
    actor. *)
Theorem createSession_getSession retain (room actor : string) (cn cn' cn2 : Conn)
    (s s' : State) (sess : Session) :
  run (Store.createSession retain room actor) cn s = (Ok sess, cn', s') →
  hash_of s (KUser actor) ≠ ∅ →
  user_keyed s actor →
  run (Store.getSession (session_id sess)) cn2 s' = (Ok (Some (room, actor)), cn2, s').
Proof.
  unfold Store.createSession, Store.getSession. intros Hrun Huser Hkeyed.
  apply createSession_Ok_inv in Hrun as (-> & _ & Hrec & Hocc & Hother & _).
  destruct (session_record_fields room actor (hash_of s (KConnection (pretty (uuids s)))))
    as (Hne & Hroom & Howner).
  rewrite <-Hrec in Hne, Hroom, Howner.
  rewrite run_getSession, (wrongtype_lookup _ _ _ _ Hroom). cbn zeta.
  rewrite (field_lookup _ _ _ Hroom), (field_lookup _ _ _ Howner).
  rewrite (Hother (KUser actor)) by discriminate.
  rewrite (field_lookup _ _ _ (Hkeyed Huser)), Hocc, lookup_insert_eq.
  destruct (decide (hash_of s' (KConnection (pretty (uuids s))) = ∅)); [contradiction|].
  destruct (decide (hash_of s (KUser actor) = ∅)); [contradiction|].
  destruct (decide (Some (pretty (uuids s)) = Some (pretty (uuids s))));
    [reflexivity|contradiction].
Qed.

Lemma createSession_getSession_witness :
  run (Store.createSession demo_retain "r" "bob") ∅ lobby
  = (Ok {| session_id := "0"; session_role := guest;
           session_room := ("r", "brave-otter") |}, ∅, bob_joined)
  ∧ run (Store.getSession "0") ∅ bob_joined = (Ok (Some ("r", "bob")), ∅, bob_joined).
Proof.
  assert (run (Store.createSession demo_retain "r" "bob") ∅ lobby
          = (Ok {| session_id := "0"; session_role := guest;
                   session_room := ("r", "brave-otter") |}, ∅, bob_joined)) as Hrun
    by (by vm_compute).
  split; [exact Hrun|].
  apply (createSession_getSession demo_retain "r" "bob" ∅ ∅ ∅ lobby bob_joined _ Hrun).
  - vm_compute. discriminate.
  - intros _. by vm_compute.
Defined.

(** X7. Joining and then leaving puts the room's occupancy map back as it
    was: [deleteSession] on the id [createSession] returned removes just
    the entry that call added, and the connection record is gone. *)
Theorem createSession_deleteSession retain (room actor : string) (cn cn' cn2 : Conn)
    (s s1 : State) (sess : Session) :
  run (Store.createSession retain room actor) cn s = (Ok sess, cn', s1) →
  room ≠ "" → actor ≠ "" →
  watch_clean cn2 s1 →
  ∃ s2,
    run (Store.deleteSession (session_id sess)) cn2 s1 = (Ok tt, ∅, s2)
    ∧ hash_of s2 (KRoomConnections room) = hash_of s (KRoomConnections room)
    ∧ hash_of s2 (KConnection (session_id sess)) = ∅.
Proof.
  unfold Store.createSession, Store.deleteSession. intros Hrun Hroom Hactor Hclean.
  apply createSession_Ok_inv in Hrun as (-> & Hfree & Hrec & Hocc & _).
  set (id := pretty (uuids s)) in *.
  pose proof (run_deleteSession id cn2 s1) as Hdel. cbn zeta in Hdel.
  destruct (session_record_fields room actor (hash_of s (KConnection id)))
    as (_ & Hr & Ho).
  rewrite <-Hrec in Hr, Ho. rewrite (wrongtype_lookup _ _ _ _ Hr), Hr, Ho in Hdel.
  assert (truthy (Some room) = Some room) as Htr by (by destruct room).
  assert (truthy (Some actor) = Some actor) as Hta by (by destruct actor).
  rewrite Htr, Hta in Hdel. destruct Hdel as (s2 & -> & Hocc2 & Hrec2 & _).
  exists s2. split; [reflexivity|]. split; [|exact Hrec2].
  rewrite Hocc2, Hocc. rewrite decide_True.
  - by apply delete_insert_id.
  - split; [apply lookup_insert_eq|by apply watch_clean_watch].
Qed.

Lemma createSession_deleteSession_witness :
  ∃ s2,
    run (Store.deleteSession "0") ∅ bob_joined = (Ok tt, ∅, s2)
    ∧ hash_of s2 (KRoomConnections "r") = hash_of lobby (KRoomConnections "r")
    ∧ hash_of s2 (KConnection "0") = ∅.
Proof.
  assert (run (Store.createSession demo_retain "r" "bob") ∅ lobby
          = (Ok {| session_id := "0"; session_role := guest;
                   session_room := ("r", "brave-otter") |}, ∅, bob_joined)) as Hrun
    by (by vm_compute).
  apply (createSession_deleteSession demo_retain "r" "bob" ∅ ∅ ∅ lobby bob_joined _ Hrun);
    [discriminate|discriminate|apply watch_clean_empty].
Defined.

(** X8. A session can be deleted once: after a [deleteSession] that
    succeeded, another one on the same id fails with NotFound and leaves
    the store as it is. *)
Theorem deleteSession_twice (id : string) (cn cn' cn2 : Conn) (s s' : State) :
  run (Store.deleteSession id) cn s = (Ok tt, cn', s') →
  run (Store.deleteSession id) cn2 s' = (Err (NotFound "Connection not found"), cn2, s').
Proof.
  unfold Store.deleteSession. intros Hfirst.
  pose proof (run_deleteSession id cn s) as Hspec. cbn zeta in Hspec.
  pose proof (deleteSession_twin_gone _ _ _ _ _ Hfirst) as Htwin.
  rewrite Hfirst in Hspec.
  destruct (wrongtype s (KConnection id)); [discriminate|].
  destruct (truthy (hash_of s (KConnection id) !! "room")) as [room|];
    [destruct (truthy (hash_of s (KConnection id) !! "owner")) as [owner|]|];
    [|discriminate..].
  destruct Hspec as (s1 & Heq & _ & Hrec & _). injection Heq as _ ->.
  pose proof (run_deleteSession id cn2 s1) as Hsecond. cbn zeta in Hsecond.
  rewrite Htwin, Hrec, lookup_empty in Hsecond. exact Hsecond.
Qed.

Lemma deleteSession_twice_witness :
  run (Store.deleteSession "0") ∅ bob_joined
  = (Ok tt, ∅, after (Store.deleteSession "0") bob_joined)
  ∧ run (Store.deleteSession "0") ∅ (after (Store.deleteSession "0") bob_joined)
    = (Err (NotFound "Connection not found"), ∅,
       after (Store.deleteSession "0") bob_joined).
Proof.
  assert (run (Store.deleteSession "0") ∅ bob_joined
          = (Ok tt, ∅, after (Store.deleteSession "0") bob_joined)) as Hfirst
    by (by vm_compute).
  split; [exact Hfirst|].
  exact (deleteSession_twice "0" ∅ ∅ ∅ bob_joined _ Hfirst).
Defined.

Lemma addUserEvent_ttl_other retain user event cn s k :
  k ≠ KUser user → k ≠ KUserEvents user →
  ttl (run (ConnectedStore.addUserEvent retain user event) cn s).2 !! k = ttl s !! k.
Proof.
  intros Hu He. unfold ConnectedStore.addUserEvent. run_step.
  destruct (key_exists s (KUser user)); run_step; [|reflexivity].
  rewrite xadd_pairs, !ttl_pexpire.
  rewrite decide_False by (intros [? _]; congruence).
  apply decide_False. intros [? _]. congruence.
Qed.

Lemma key_exists_hset k h s : h ≠ ∅ → key_exists (st_hset k h s) k = true.
Proof.
  intros Hne. apply key_exists_hash. rewrite hash_of_hset.
  destruct (decide (k = k)); [|contradiction].
  intros Hempty. apply Hne. apply map_eq. intros f. rewrite lookup_empty.
  destruct (h !! f) eqn:Hf; [|reflexivity].
  apply (f_equal (λ m : Hash, m !! f)) in Hempty.
  rewrite lookup_empty in Hempty. erewrite lookup_union_Some_l in Hempty by exact Hf.
  discriminate.
Qed.

Lemma key_exists_hset_ne k k' h s : k ≠ k' → key_exists (st_hset k h s) k' = key_exists s k'.
Proof.
  intros Hne. unfold key_exists. rewrite hash_of_hset, decide_False by done.
  by rewrite streams_hset.
Qed.

(** X9. A [createSession] that succeeds leaves the new connection record
    and the room's occupancy map with the retention of rooms as their time
    to live. *)
Theorem createSession_refreshes_ttl retain (room actor : string) (cn cn' : Conn)
    (s s' : State) (sess : Session) :
  run (Store.createSession retain room actor) cn s = (Ok sess, cn', s') →
  ttl s' !! KConnection (session_id sess) = Some (retain_rooms retain)
  ∧ ttl s' !! KRoomConnections room = Some (retain_rooms retain).
Proof.
  unfold Store.createSession, ConnectedStore.createSession. run_step.
  destruct (hash_of s (KRoom room) !! "owner") as [owner|]; [|run_step; discriminate].
  destruct (hash_of s (KRoom room) !! "slug") as [slug|]; [|run_step; discriminate].
  run_step. destruct (decide (actor ∈ _)); [run_step; discriminate|].
  destruct (decide (_ ∧ _)); [run_step; discriminate|].
  run_step. rewrite run_mbind.
  set (id := pretty (uuids s)).
  set (s1 := st_hset (KConnection id) {["room" := room; "owner" := actor]} (take_uuid s)).
  set (s2 := st_hset (KRoomConnections room) {[actor := id]} s1).
  set (s3 := st_pexpire (KConnection id) (retain_rooms retain) s2).
  set (s4 := st_pexpire (KRoomConnections room) (retain_rooms retain) s3).
  pose proof (addUserEvent_ttl_other retain actor
                (JoinRoom room (if decide (actor = owner) then host else guest)) cn s4)
    as Hother.
  destruct (run (ConnectedStore.addUserEvent retain actor _) cn s4) as [[[[]|e] cn4] s5];
    run_step; [|discriminate].
  intros [= <- <- <-]. cbn [session_id snd] in *.
  rewrite !Hother by discriminate. subst s4 s3. rewrite !ttl_pexpire.
  assert (key_exists s2 (KConnection id) = true) as Hconn.
  { subst s2. rewrite key_exists_hset_ne by discriminate. subst s1.
    apply key_exists_hset. apply insert_non_empty. }
  assert (key_exists s2 (KRoomConnections room) = true) as Hocc.
  { subst s2. apply key_exists_hset, insert_non_empty. }
  rewrite key_exists_pexpire. split.
  - rewrite decide_False by (intros [? _]; discriminate). by apply decide_True.
  - by apply decide_True.
Qed.

Lemma createSession_refreshes_ttl_witness :
  ttl bob_joined !! KConnection "0" = Some 108000000%Z
  ∧ ttl bob_joined !! KRoomConnections "r" = Some 108000000%Z.
Proof.
  apply (createSession_refreshes_ttl demo_retain "r" "bob" ∅ ∅ lobby bob_joined
           {| session_id := "0"; session_role := guest;
              session_room := ("r", "brave-otter") |}).
  by vm_compute.
Defined.

(** ** The event log *)

Lemma stream_of_xadd k fields s k' :
  stream_of (st_xadd k (Str "*" :: fields) s) k'
  = if decide (k = k')
    then (stream_of s k ++ [ {| entry_id := N.succ (last_entry_id (stream_of s k));
                                entry_fields := fields |} ])%list
    else stream_of s k'.
Proof.
  unfold st_xadd, stream_of at 1. cbn [streams touch].
  destruct (decide (k = k')) as [->|Hne].
  - by rewrite lookup_insert_eq.
  - by rewrite lookup_insert_ne.
Qed.

Lemma hashes_xadd k args s : hashes (st_xadd k args s) = hashes s.
Proof. unfold st_xadd. by repeat case_match. Qed.

Lemma stream_of_pexpire k ms s k' : stream_of (st_pexpire k ms s) k' = stream_of s k'.
Proof. unfold stream_of. by rewrite streams_pexpire. Qed.

Lemma last_entry_id_bound (es : list Entry) :
  Forall (λ e, (entry_id e ≤ last_entry_id es)%N) es.
Proof.
  induction es as [|e es IH]; [constructor|].
  change (last_entry_id (e :: es)) with (N.max (entry_id e) (last_entry_id es)).
  constructor; [lia|]. eapply Forall_impl; [exact IH|]. intros e' He'. cbn beta in *. lia.
Qed.

Lemma last_entry_id_app (es : list Entry) (e : Entry) :
  (last_entry_id es < entry_id e)%N → last_entry_id (es ++ [e]) = entry_id e.
Proof.
  induction es as [|e0 es IH]; intros Hlt.
  - cbn. lia.
  - change (last_entry_id (e0 :: es)) with (N.max (entry_id e0) (last_entry_id es)) in Hlt.
    change (last_entry_id ((e0 :: es) ++ [e]))
      with (N.max (entry_id e0) (last_entry_id (es ++ [e]))).
    rewrite IH by lia. lia.
Qed.

Lemma stream_sorted_snoc (es : list Entry) (e : Entry) :
  stream_sorted es → (last_entry_id es < entry_id e)%N → stream_sorted (es ++ [e]).
Proof.
  induction es as [|e0 es IH]; intros Hsorted Hlt.
  - cbn. by split.
  - destruct Hsorted as [Hhead Hsorted].
    change (last_entry_id (e0 :: es)) with (N.max (entry_id e0) (last_entry_id es)) in Hlt.
    cbn. split.
    + apply Forall_app. split; [exact Hhead|]. constructor; [lia|constructor].
    + apply IH; [exact Hsorted|lia].
Qed.

(** A written message is found again in its entry. *)
Lemma find_data_message message :
  find_data (message_fields message) = Some (Json (DMessage message)).
Proof. reflexivity. Qed.

Lemma find_data_signal now signal :
  find_data (signal_fields now signal) = Some (Json (DSignal signal)).
Proof. reflexivity. Qed.

Lemma run_writeMessage retain (room : string) (message : StoredMessage)
    (cn : Conn) (s : State) :
  let es := stream_of s (KRoomMessages room) in
  let id := N.succ (last_entry_id es) in
  ∃ s',
    run (Store.writeMessage retain room message) cn s = (Ok id, cn, s')
    ∧ stream_of s' (KRoomMessages room)
      = (es ++ [ {| entry_id := id; entry_fields := message_fields message |} ])%list
    ∧ hashes s' = hashes s
    ∧ (∀ k, k ≠ KRoomMessages room → stream_of s' k = stream_of s k).
Proof.
  intros es id. unfold Store.writeMessage, ConnectedStore.writeMessage. run_step.
  eexists. split; [reflexivity|].
  rewrite !stream_of_pexpire, !hashes_pexpire, hashes_xadd.
  rewrite stream_of_xadd, decide_True by reflexivity. fold es id.
  split; [reflexivity|]. split; [reflexivity|].
  intros k Hk. rewrite !stream_of_pexpire, stream_of_xadd. by apply decide_False.
Qed.

Lemma run_writeSignal retain (connection : string) (signal : Signal)
    (cn : Conn) (s : State) :
  let es := stream_of s (KConnectionSignal connection) in
  let id := N.succ (last_entry_id es) in
  ∃ s',
    run (Store.writeSignal retain connection signal) cn s = (Ok id, cn, s')
    ∧ stream_of s' (KConnectionSignal connection)
      = (es ++ [ {| entry_id := id; entry_fields := signal_fields (clock s) signal |} ])%list
    ∧ hashes s' = hashes s
    ∧ (∀ k, k ≠ KConnectionSignal connection → stream_of s' k = stream_of s k).
Proof.
  intros es id. unfold Store.writeSignal, ConnectedStore.writeSignal. run_step.
  eexists. split; [reflexivity|].
  rewrite !stream_of_pexpire, !hashes_pexpire, hashes_xadd.
  rewrite stream_of_xadd, decide_True by reflexivity. fold es id.
  split; [reflexivity|]. split; [reflexivity|].
  intros k Hk. rewrite !stream_of_pexpire, stream_of_xadd. by apply decide_False.
Qed.

Lemma below_next_id (es : list Entry) :
  Forall (λ e, (entry_id e < N.succ (last_entry_id es))%N) es.
Proof.
  eapply Forall_impl; [apply last_entry_id_bound|]. intros e He. cbn beta in *. lia.
Qed.

(** X10. [writeMessage] never fails, whether or not the room exists: it
    appends one entry holding the message at the end of the room's stream
    under an id larger than every id before it, and returns that id.  No
    hash and no other stream changes. *)
Theorem writeMessage_appends retain (room : string) (message : StoredMessage)
    (cn : Conn) (s : State) :
  let es := stream_of s (KRoomMessages room) in
  ∃ id s',
    run (Store.writeMessage retain room message) cn s = (Ok id, cn, s')
    ∧ stream_of s' (KRoomMessages room)
      = (es ++ [ {| entry_id := id; entry_fields := message_fields message |} ])%list
    ∧ Forall (λ e, (entry_id e < id)%N) es
    ∧ hashes s' = hashes s
    ∧ (∀ k, k ≠ KRoomMessages room → stream_of s' k = stream_of s k).
Proof.
  intros es.
  destruct (run_writeMessage retain room message cn s) as (s' & Hrun & Hstream & Hh & Hk).
  exists (N.succ (last_entry_id es)), s'.
  split; [exact Hrun|]. split; [exact Hstream|]. split; [apply below_next_id|].
  split; [exact Hh|exact Hk].
Qed.

Lemma writeMessage_appends_witness :
  ∃ id s',
    run (Store.writeMessage demo_retain "r" (Chat 5 "bob" "1" "hi")) ∅ both_joined
    = (Ok id, ∅, s')
    ∧ Forall (λ e, (entry_id e < id)%N) (stream_of both_joined (KRoomMessages "r"))
    ∧ stream_of s' (KConnectionSignal "0") = stream_of both_joined (KConnectionSignal "0").
Proof.
  destruct (writeMessage_appends demo_retain "r" (Chat 5 "bob" "1" "hi") ∅ both_joined)
    as (id & s' & Hrun & _ & Hbelow & _ & Hrest).
  exists id, s'. split; [exact Hrun|]. split; [exact Hbelow|]. apply Hrest. discriminate.
Defined.

(** X11. [writeSignal] likewise appends the signal, stamped with the
    current time, at the end of the connection's signal stream under a
    larger id, and changes nothing else but that stream. *)
Theorem writeSignal_appends retain (connection : string) (signal : Signal)
    (cn : Conn) (s : State) :
  let es := stream_of s (KConnectionSignal connection) in
  ∃ id s',
    run (Store.writeSignal retain connection signal) cn s = (Ok id, cn, s')
    ∧ stream_of s' (KConnectionSignal connection)
      = (es ++ [ {| entry_id := id; entry_fields := signal_fields (clock s) signal |} ])%list
    ∧ Forall (λ e, (entry_id e < id)%N) es
    ∧ hashes s' = hashes s
    ∧ (∀ k, k ≠ KConnectionSignal connection → stream_of s' k = stream_of s k).
Proof.
  intros es.
  destruct (run_writeSignal retain connection signal cn s)
    as (s' & Hrun & Hstream & Hh & Hk).
  exists (N.succ (last_entry_id es)), s'.
  split; [exact Hrun|]. split; [exact Hstream|]. split; [apply below_next_id|].
  split; [exact Hh|exact Hk].
Qed.

Lemma writeSignal_appends_witness :
  ∃ id s',
    run (Store.writeSignal demo_retain "0" (ICE [] true)) ∅ both_joined = (Ok id, ∅, s')
    ∧ Forall (λ e, (entry_id e < id)%N) (stream_of both_joined (KConnectionSignal "0"))
    ∧ stream_of s' (KRoomMessages "r") = stream_of both_joined (KRoomMessages "r").
Proof.
  destruct (writeSignal_appends demo_retain "0" (ICE [] true) ∅ both_joined)
    as (id & s' & Hrun & _ & Hbelow & _ & Hrest).
  exists id, s'. split; [exact Hrun|]. split; [exact Hbelow|]. apply Hrest. discriminate.
Defined.

(** ** The forwarder *)

Lemma continues_refl st : continues st st.
Proof. by split. Qed.

Lemma continues_trans st1 st2 st3 : continues st1 st2 → continues st2 st3 → continues st1 st3.
Proof. intros [H1 H2] [H3 H4]. split; [congruence|by etrans]. Qed.

Lemma continues_send message st : continues st (send message st).
Proof. split; [reflexivity|]. cbn. by apply prefix_app_r. Qed.

Lemma run_getUser_cached_users id st cn s :
  ∃ st', run (Store.getUser_cached id st) cn s = (Ok (resolve s st id, st'), cn, s)
         ∧ peer st' = peer st ∧ dest st' = dest st
         ∧ messageCursor st' = messageCursor st ∧ peerCursor st' = peerCursor st
         ∧ users st' !! id = Some (resolve s st id)
         ∧ (∀ u, is_Some (users st !! u) → users st' !! u = users st !! u).
Proof.
  unfold Store.getUser_cached, resolve. destruct (users st !! id) as [user|] eqn:Hcache.
  - exists st. by rewrite run_Ret.
  - rewrite run_mbind, run_getUser. run_step. eexists. split; [reflexivity|].
    cbn. rewrite lookup_insert_eq. repeat split; try reflexivity.
    intros u [v Hu]. rewrite lookup_insert_ne; [reflexivity|]. intros <-. congruence.
Qed.

Lemma run_consume actor k entry st cn s :
  ∃ r, run (Store.consume actor k entry st) cn s = (r, cn, s)
       ∧ ∀ st', r = Ok st' → consumed k entry st st'.
Proof.
  unfold Store.consume, consumed.
  set (st0 := if String.prefix "room:" (key k) then _ else _).
  assert (continues st st0
          ∧ messageCursor st0
            = (if String.prefix "room:" (key k) then entry_id entry else messageCursor st)
          ∧ peerCursor st0
            = (if String.prefix "room:" (key k) then peerCursor st
               else if String.prefix "connection:" (key k) then entry_id entry
               else peerCursor st)
          ∧ users st0 = users st) as (Hc & Hm & Hp & Hu).
  { subst st0. destruct (String.prefix "room:" (key k));
      [|destruct (String.prefix "connection:" (key k))]; by repeat split. }
  rewrite <-Hm, <-Hp, <-Hu. clearbody st0.
  assert (∀ st1 : Relay, continues st0 st1 → continues st st1) as Hcont
    by (intros st1; by apply continues_trans).
  clear Hc Hm Hp Hu.
  destruct (find_data (entry_fields entry)) as [text|].
  2:{ eexists. rewrite run_Ret. split; [reflexivity|]. intros st' [= <-].
      split; [by apply Hcont, continues_refl|done]. }
  destruct (JSON_parse text) as [[data|g|other]|e].
  - rewrite run_mbind.
    destruct (run_getUser_cached_users (message_user data) st0 cn s)
      as (st1 & -> & Hpeer & Hdest & Hmc & Hpc & _ & Hkeep).
    eexists. split; [run_step; reflexivity|]. intros st' [= <-].
    rewrite <-Hmc, <-Hpc.
    assert (continues st0 st1) as Hc1 by (split; by rewrite Hdest).
    destruct (resolve s st0 (message_user data)) as [user|];
      (split; [apply Hcont|split; [|split]]);
      try (eapply continues_trans; [exact Hc1|]);
      destruct data; cbn; repeat case_decide;
      try apply continues_refl; try apply continues_send; try reflexivity;
      try exact Hkeep; by split.
  - eexists. rewrite run_Ret. split; [reflexivity|]. intros st' [= <-].
    split; [apply Hcont, continues_send|done].
  - eexists. rewrite run_Ret. split; [reflexivity|]. intros st' [= <-].
    split; [by apply Hcont, continues_refl|done].
  - eexists. rewrite run_Throw. split; [reflexivity|]. discriminate.
Qed.

Lemma run_consume_entries actor k entries st cn s :
  ∃ r, run (Store.consume_entries actor k entries st) cn s = (r, cn, s)
       ∧ ∀ st', r = Ok st' → batch_consumed k entries st st'.
Proof.
  revert st. induction entries as [|entry entries IH]; intros st.
  - eexists. cbn [Store.consume_entries]. split; [apply run_Ret|].
    intros st' [= <-]. unfold batch_consumed, cursor_after.
    split; [apply continues_refl|]. by repeat case_match.
  - cbn [Store.consume_entries]. rewrite run_mbind.
    destruct (run_consume actor k entry st cn s) as (r1 & -> & H1).
    destruct r1 as [st1|err]; [|eexists; split; [reflexivity|discriminate]].
    destruct (H1 st1 eq_refl) as (Hc1 & Hm1 & Hp1 & Hu1).
    destruct (IH st1) as (r & -> & H2). exists r. split; [reflexivity|].
    intros st' Hr. destruct (H2 st' Hr) as (Hc2 & Hm2 & Hp2 & Hu2).
    unfold batch_consumed. split; [by eapply continues_trans|].
    rewrite Hm2, Hp2, Hm1, Hp1. unfold cursor_after. cbn [foldl].
    split; [|split].
    + by destruct (String.prefix "room:" (key k)).
    + by destruct (String.prefix "room:" (key k)), (String.prefix "connection:" (key k)).
    + intros u Hu. rewrite Hu2; [by apply Hu1|]. by rewrite Hu1.
Qed.

Lemma run_consume_result actor result st cn s :
  ∃ r, run (Store.consume_result actor result st) cn s = (r, cn, s)
       ∧ ∀ st', r = Ok st' → result_consumed result st st'.
Proof.
  revert st. induction result as [|[k entries] result IH]; intros st.
  - eexists. cbn [Store.consume_result]. split; [apply run_Ret|].
    intros st' [= <-]. split; [apply continues_refl|by split].
  - cbn [Store.consume_result]. rewrite run_mbind.
    destruct (run_consume_entries actor k entries st cn s) as (r1 & -> & H1).
    destruct r1 as [st1|err]; [|eexists; split; [reflexivity|discriminate]].
    destruct (H1 st1 eq_refl) as (Hc1 & Hm1 & _ & Hu1).
    destruct (IH st1) as (r & -> & H2). exists r. split; [reflexivity|].
    intros st' Hr. destruct (H2 st' Hr) as (Hc2 & Hm2 & Hu2).
    split; [by eapply continues_trans|]. split.
    + rewrite Hm2, Hm1. reflexivity.
    + intros u Hu. rewrite Hu2; [by apply Hu1|]. by rewrite Hu1.
Qed.

Lemma run_relay_iteration room actor st cn s :
  ∃ r, run (Store.relay_iteration room actor st) cn s = (r, cn, s)
       ∧ ∀ st', r = Ok st' →
           result_consumed (default [] (st_xread (relay_request room st) s)) st st'.
Proof.
  unfold Store.relay_iteration. fold (relay_request room st). run_step.
  destruct (st_xread (relay_request room st) s) as [result|].
  - apply run_consume_result.
  - eexists. rewrite run_Ret. split; [reflexivity|]. intros st' [= <-].
    split; [apply continues_refl|by split].
Qed.

Lemma run_relay_loop turns room actor st cn s :
  ∃ r, run (Store.relay_loop turns room actor st) cn s = (r, cn, s)
       ∧ ∀ st', r = Ok st' → continues st st'.
Proof.
  revert st. induction turns as [|turns IH]; intros st; cbn [Store.relay_loop].
  - eexists. rewrite run_Ret. split; [reflexivity|]. intros st' [= <-].
    apply continues_refl.
  - destruct (decide (readyState (dest st) = OPEN)).
    + rewrite run_mbind.
      destruct (run_relay_iteration room actor st cn s) as (r1 & -> & H1).
      destruct r1 as [st1|err]; [|eexists; split; [reflexivity|discriminate]].
      destruct (H1 st1 eq_refl) as (Hc1 & _).
      destruct (IH st1) as (r & -> & H2). exists r. split; [reflexivity|].
      intros st' Hr. eapply continues_trans; [exact Hc1|by apply H2].
    + eexists. rewrite run_Ret. split; [reflexivity|]. intros st' [= <-].
      apply continues_refl.
Qed.

(** X13. A forwarder only reads: however many turns it runs and however
    it ends, the store and the connection's WATCH state are as before. *)
Theorem forwardEvents_reads_only (turns : nat) (room actor connection : string)
    (ws : WebSocket) (cn : Conn) (s : State) :
  ∃ r, run (Store.forwardEvents turns room actor connection ws) cn s = (r, cn, s).
Proof.
  unfold Store.forwardEvents. run_step.
  destruct (decide (hash_of s (KRoomConnections room) !! actor ≠ Some connection)).
  - eexists. by rewrite run_Ret.
  - match goal with
    | |- ∃ r, run (Store.relay_loop turns room actor ?st) cn s = _ =>
        destruct (run_relay_loop turns room actor st cn s) as (r & -> & _)
    end.
    by exists r.
Qed.

(** X14. A forwarder started for a connection that is not the actor's
    entry in the room's occupancy map closes the transport without sending
    or reading anything.  Started for the current connection it never
    closes the transport, and whatever it sends comes after what the
    transport had already sent. *)
Theorem forwardEvents_closes_only_stale (turns : nat) (room actor connection : string)
    (ws : WebSocket) (cn : Conn) (s : State) :
  (hash_of s (KRoomConnections room) !! actor ≠ Some connection →
   ∃ st', run (Store.forwardEvents turns room actor connection ws) cn s = (Ok st', cn, s)
          ∧ dest st' = ws_close ws ∧ peer st' = None)
  ∧ (hash_of s (KRoomConnections room) !! actor = Some connection →
     ∀ st' cn' s',
       run (Store.forwardEvents turns room actor connection ws) cn s = (Ok st', cn', s') →
       readyState (dest st') = readyState ws ∧ sent ws `prefix_of` sent (dest st')).
Proof.
  unfold Store.forwardEvents. split.
  - intros Hstale. run_step. rewrite decide_True by done. eexists. by rewrite run_Ret.
  - intros Hcurrent st' cn' s'. run_step. rewrite decide_False by (by intros ?).
    match goal with
    | |- run (Store.relay_loop turns room actor ?st) cn s = _ → _ =>
        destruct (run_relay_loop turns room actor st cn s) as (r & -> & Hc);
        assert (dest st = ws) as Hdest by (by repeat case_match)
    end.
    intros [= -> _ _]. destruct (Hc st' eq_refl) as [Hr Hs].
    rewrite Hdest in Hr, Hs. by split.
Qed.

Lemma forwardEvents_closes_only_stale_witness :
  ∃ st', run (Store.forwardEvents 3 "r" "bob" "0" open_socket) ∅ bob_rejoined
         = (Ok st', ∅, bob_rejoined)
         ∧ dest st' = ws_close open_socket ∧ peer st' = None.
Proof.
  apply (proj1 (forwardEvents_closes_only_stale 3 "r" "bob" "0" open_socket ∅ bob_rejoined)).
  vm_compute. discriminate.
Defined.

Lemma filter_others_of_occupancy (occ : Hash) (actor connection : string) :
  occ !! actor = Some connection →
  filter (λ '(userId, _), userId ≠ actor) (map_to_list occ)
  ≡ₚ filter (λ '(userId, _), userId ≠ actor) (map_to_list (delete actor occ)).
Proof.
  intros Hactor. rewrite <-(map_to_list_delete occ actor connection Hactor).
  rewrite filter_cons. by rewrite decide_False by (by intros ?).
Qed.

(** X15. Before its first read a forwarder takes the other occupant of
    the room as its peer: with nobody else in the occupancy map it has no
    peer, with one other entry its peer is that entry's connection. *)
Theorem forwardEvents_bootstraps_peer (room actor connection : string) (ws : WebSocket)
    (cn : Conn) (s : State) :
  let occ := hash_of s (KRoomConnections room) in
  occ !! actor = Some connection →
  (delete actor occ = ∅ →
   run (Store.forwardEvents 0 room actor connection ws) cn s
   = (Ok {| users := ∅; messageCursor := 0; peer := None; peerCursor := 0; dest := ws |},
      cn, s))
  ∧ (∀ other pc, other ≠ actor → delete actor occ = {[ other := pc ]} →
     run (Store.forwardEvents 0 room actor connection ws) cn s
     = (Ok {| users := ∅; messageCursor := 0; peer := Some pc; peerCursor := 0;
              dest := ws |}, cn, s)).
Proof.
  intros occ Hactor. unfold Store.forwardEvents. run_step. fold occ.
  rewrite decide_False by (by intros ?).
  pose proof (filter_others_of_occupancy occ actor connection Hactor) as Hperm.
  split.
  - intros Halone. rewrite Halone, map_to_list_empty in Hperm.
    apply Permutation_nil_r in Hperm. rewrite Hperm. cbn [Store.relay_loop].
    by rewrite run_Ret.
  - intros other pc Hother Hone. rewrite Hone, map_to_list_singleton in Hperm.
    rewrite filter_cons, decide_True, filter_nil in Hperm by done.
    apply Permutation_singleton_r in Hperm. rewrite Hperm. cbn [Store.relay_loop].
    by rewrite run_Ret.
Qed.

Lemma forwardEvents_bootstraps_peer_witness :
  hash_of bob_joined (KRoomConnections "r") !! "bob" = Some "0"
  ∧ run (Store.forwardEvents 0 "r" "bob" "0" open_socket) ∅ bob_joined
    = (Ok {| users := ∅; messageCursor := 0; peer := None; peerCursor := 0;
             dest := open_socket |}, ∅, bob_joined)
  ∧ hash_of both_joined (KRoomConnections "r") !! "bob" = Some "1"
  ∧ run (Store.forwardEvents 0 "r" "bob" "1" open_socket) ∅ both_joined
    = (Ok {| users := ∅; messageCursor := 0; peer := Some "0"; peerCursor := 0;
             dest := open_socket |}, ∅, both_joined).
Proof.
  assert (hash_of bob_joined (KRoomConnections "r") !! "bob" = Some "0") as Hbob
    by (by vm_compute).
  assert (hash_of both_joined (KRoomConnections "r") !! "bob" = Some "1") as Hboth
    by (by vm_compute).
  split; [exact Hbob|]. split; [|split; [exact Hboth|]].
  - apply (proj1 (forwardEvents_bootstraps_peer "r" "bob" "0" open_socket ∅ bob_joined Hbob)).
    by vm_compute.
  - apply (proj2 (forwardEvents_bootstraps_peer "r" "bob" "1" open_socket ∅ both_joined
                    Hboth) "alice" "0"); [discriminate|by vm_compute].
Defined.

Lemma resolve_cached s st id user : users st !! id = Some user → resolve s st id = user.
Proof. unfold resolve. by intros ->. Qed.

(** X16. A forwarder asks the store for a user once: after it has
    consumed a message of a user, that user resolves for it as it did
    then, whatever happens to the user record afterwards. *)
Theorem relay_remembers_users (actor : string) (k : Key) (entry : Entry) (st st' : Relay)
    (cn cn' : Conn) (s s' : State) (data : StoredMessage) :
  find_data (entry_fields entry) = Some (Json (DMessage data)) →
  run (Store.consume actor k entry st) cn s = (Ok st', cn', s') →
  ∀ later : State,
    resolve later st' (message_user data) = resolve s st (message_user data).
Proof.
  intros Hdata. unfold Store.consume. rewrite Hdata. cbn [JSON_parse].
  set (st0 := if String.prefix "room:" (key k) then _ else _).
  assert (users st0 = users st) as Hu by (subst st0; by repeat case_match).
  assert (resolve s st0 (message_user data) = resolve s st (message_user data)) as Hres
    by (unfold resolve; by rewrite Hu).
  clearbody st0. rewrite run_mbind.
  destruct (run_getUser_cached_users (message_user data) st0 cn s)
    as (st1 & -> & _ & _ & _ & _ & Hcached & _).
  rewrite Hres in Hcached |- *. run_step. intros [= <- _ _] later.
  apply resolve_cached. rewrite <-Hcached.
  destruct (resolve s st (message_user data)); destruct data; cbn;
    repeat case_decide; reflexivity.
Qed.

Lemma relay_remembers_users_witness :
  ∃ st',
    run (Store.consume "alice" (KRoomMessages "r")
           (entry_of 1 (Join 5 "bob" "0" guest)) fresh_relay) ∅ bob_joined
    = (Ok st', ∅, bob_joined)
    ∧ resolve bob_forgotten st' "bob"
      = Some {| user_id := "bob"; user_name := "Bob";
                user_created := Some 1700000000000%Z |}.
Proof.
  eexists. split; [by vm_compute|].
  erewrite (relay_remembers_users "alice" (KRoomMessages "r")
              (entry_of 1 (Join 5 "bob" "0" guest)) fresh_relay _ ∅ ∅ bob_joined bob_joined
              (Join 5 "bob" "0" guest) eq_refl); [by vm_compute|by vm_compute].
Defined.

Lemma prefix_room_messages room : String.prefix "room:" (key (KRoomMessages room)) = true.
Proof. by destruct room. Qed.

Lemma prefix_room_signal connection :
  String.prefix "room:" (key (KConnectionSignal connection)) = false.
Proof. reflexivity. Qed.

Lemma prefix_connection_signal connection :
  String.prefix "connection:" (key (KConnectionSignal connection)) = true.
Proof. by destruct connection. Qed.

Lemma filter_caught_up (es : list Entry) (cursor : N) :
  (last_entry_id es ≤ cursor)%N → filter (λ e, (cursor < entry_id e)%N) es = [].
Proof.
  induction es as [|e es IH]; intros Hlast; [reflexivity|].
  change (last_entry_id (e :: es)) with (N.max (entry_id e) (last_entry_id es)) in Hlast.
  rewrite filter_cons, decide_False by lia. apply IH. lia.
Qed.

(** What a read returns one entry after the cursor. *)
Lemma filter_one_new (es : list Entry) (e : Entry) :
  (last_entry_id es < entry_id e)%N →
  filter (λ e', (last_entry_id es < entry_id e')%N) (es ++ [e])%list = [e].
Proof.
  intros Hnew. rewrite filter_app, filter_caught_up by lia.
  by rewrite filter_cons, decide_True, filter_nil.
Qed.

Lemma run_consume_signal actor k entry st cn s signal :
  find_data (entry_fields entry) = Some (Json (DSignal signal)) →
  ∃ st', run (Store.consume actor k entry st) cn s = (Ok st', cn, s)
         ∧ sent (dest st') = (sent (dest st) ++ [ESignal signal])%list
         ∧ peer st' = peer st.
Proof.
  intros Hdata. unfold Store.consume. rewrite Hdata. cbn [JSON_parse].
  eexists. rewrite run_Ret. split; [reflexivity|]. by repeat case_match.
Qed.

(** ** From a writer to a forwarder *)

Lemma truthy_Some v p : truthy v = Some p → v = Some p ∧ p ≠ "".
Proof. destruct v as [[|c v]|]; cbn; intros H; inversion H; by split. Qed.

(** The read of a forwarder with one new entry in the room's stream and
    nothing new from its peer. *)
Lemma xread_room_entry room st s e :
  filter (λ e', (messageCursor st < entry_id e')%N) (stream_of s (KRoomMessages room)) = [e] →
  (∀ p, truthy (peer st) = Some p →
        filter (λ e', (peerCursor st < entry_id e')%N) (stream_of s (KConnectionSignal p)) = []) →
  st_xread (relay_request room st) s = Some [(KRoomMessages room, [e])].
Proof.
  intros Hroom Hpeer. unfold relay_request, st_xread.
  destruct (truthy (peer st)) as [p|] eqn:Hp; cbn.
  - rewrite Hroom, (Hpeer p eq_refl). reflexivity.
  - rewrite Hroom. reflexivity.
Qed.

(** The read of a forwarder with one new entry in its peer's stream and
    nothing new in the room's. *)
Lemma xread_peer_entry room st s p e :
  truthy (peer st) = Some p →
  filter (λ e', (messageCursor st < entry_id e')%N) (stream_of s (KRoomMessages room)) = [] →
  filter (λ e', (peerCursor st < entry_id e')%N) (stream_of s (KConnectionSignal p)) = [e] →
  st_xread (relay_request room st) s = Some [(KConnectionSignal p, [e])].
Proof.
  intros Hp Hroom Hpeer. unfold relay_request, st_xread. rewrite Hp.
  cbn. rewrite Hroom, Hpeer. reflexivity.
Qed.

Lemma run_relay_iteration_one room actor st cn s k e :
  st_xread (relay_request room st) s = Some [(k, [e])] →
  run (Store.relay_iteration room actor st) cn s = run (Store.consume actor k e st) cn s.
Proof.
  intros Hread. unfold Store.relay_iteration. fold (relay_request room st).
  run_step. rewrite Hread.
  cbn [Store.consume_result Store.consume_entries].
  rewrite run_mbind, run_mbind.
  destruct (run (Store.consume actor k e st) cn s) as [[[st'|err] cn'] s'] eqn:Hrun.
  - by rewrite !run_Ret.
  - reflexivity.
Qed.

Lemma resolve_same_hashes s s' st id : hashes s' = hashes s → resolve s' st id = resolve s st id.
Proof. intros Hh. unfold resolve, hash_of. by rewrite Hh. Qed.

(** X17. A message written to a room reaches a forwarder of the room that
    had read the stream to its end: its next read returns just that entry,
    the message cursor moves to the id [writeMessage] returned, the message
    goes out with its author resolved (or not at all if the author cannot
    be resolved), and the peer follows a Join or Leave. *)
Theorem written_message_is_forwarded retain (room actor : string)
    (message : StoredMessage) (st : Relay) (cn cn' : Conn) (s : State) :
  messageCursor st = last_entry_id (stream_of s (KRoomMessages room)) →
  (∀ p, truthy (peer st) = Some p →
        (last_entry_id (stream_of s (KConnectionSignal p)) ≤ peerCursor st)%N) →
  ∃ id s' st',
    run (Store.writeMessage retain room message) cn s = (Ok id, cn, s')
    ∧ run (Store.relay_iteration room actor st) cn' s' = (Ok st', cn', s')
    ∧ messageCursor st' = id
    ∧ peerCursor st' = peerCursor st
    ∧ peer st' = peer_after actor message (peer st)
    ∧ sent (dest st')
      = match resolve s st (message_user message) with
        | Some user => (sent (dest st) ++ [EMessage message user])%list
        | None => sent (dest st)
        end.
Proof.
  intros Hcursor Hpeer.
  destruct (run_writeMessage retain room message cn s) as (s' & Hrun & Hstream & Hh & Hk).
  set (e := {| entry_id := N.succ (last_entry_id (stream_of s (KRoomMessages room)));
               entry_fields := message_fields message |}) in *.
  assert (st_xread (relay_request room st) s' = Some [(KRoomMessages room, [e])]) as Hread.
  { apply xread_room_entry.
    - rewrite Hstream, Hcursor. apply filter_one_new. cbn [e entry_id]. lia.
    - intros p Hp. rewrite Hk by discriminate. apply filter_caught_up, Hpeer, Hp. }
  pose proof (run_relay_iteration_one room actor st cn' s' _ _ Hread) as Hiter.
  destruct (run_consume_message actor (KRoomMessages room) e st cn' s' message
              (find_data_message message)) as (st' & Hst' & Hp' & Hsent).
  destruct (run_consume actor (KRoomMessages room) e st cn' s') as (r & Hr & Hconsumed).
  rewrite Hst' in Hr. injection Hr as <-.
  destruct (Hconsumed st' eq_refl) as (_ & Hm & Hpc & _).
  rewrite prefix_room_messages in Hm, Hpc.
  exists (entry_id e), s', st'. split; [exact Hrun|]. split; [by rewrite Hiter|].
  split; [exact Hm|]. split; [exact Hpc|]. split; [exact Hp'|].
  rewrite Hsent, (resolve_same_hashes s s' st _ Hh). reflexivity.
Qed.

Lemma written_message_is_forwarded_witness :
  ∃ id s' st',
    run (Store.writeMessage demo_retain "r" (Chat 5 "bob" "1" "hello")) ∅ lobby = (Ok id, ∅, s')
    ∧ run (Store.relay_iteration "r" "alice" fresh_relay) ∅ s' = (Ok st', ∅, s')
    ∧ messageCursor st' = id
    ∧ peerCursor st' = peerCursor fresh_relay
    ∧ peer st' = peer_after "alice" (Chat 5 "bob" "1" "hello") (peer fresh_relay)
    ∧ sent (dest st')
      = match resolve lobby fresh_relay (message_user (Chat 5 "bob" "1" "hello")) with
        | Some user => (sent (dest fresh_relay) ++ [EMessage (Chat 5 "bob" "1" "hello") user])%list
        | None => sent (dest fresh_relay)
        end.
Proof.
  apply (written_message_is_forwarded demo_retain "r" "alice" (Chat 5 "bob" "1" "hello")
           fresh_relay ∅ ∅ lobby).
  - reflexivity.
  - intros p Hp. discriminate Hp.
Defined.

(** X18. A signal written for a connection reaches the forwarder whose
    peer that connection is, once it had read both streams to their ends:
    its next read returns just that entry and the signal goes out as it
    was written. *)
Theorem written_signal_is_forwarded retain (room actor connection : string)
    (signal : Signal) (st : Relay) (cn cn' : Conn) (s : State) :
  peer st = Some connection → connection ≠ "" →
  peerCursor st = last_entry_id (stream_of s (KConnectionSignal connection)) →
  (last_entry_id (stream_of s (KRoomMessages room)) ≤ messageCursor st)%N →
  ∃ id s' st',
    run (Store.writeSignal retain connection signal) cn s = (Ok id, cn, s')
    ∧ run (Store.relay_iteration room actor st) cn' s' = (Ok st', cn', s')
    ∧ peerCursor st' = id
    ∧ messageCursor st' = messageCursor st
    ∧ peer st' = Some connection
    ∧ sent (dest st') = (sent (dest st) ++ [ESignal signal])%list.
Proof.
  intros Hpeer Hne Hcursor Hroom.
  destruct (run_writeSignal retain connection signal cn s)
    as (s' & Hrun & Hstream & Hh & Hk).
  set (e := {| entry_id := N.succ (last_entry_id (stream_of s (KConnectionSignal connection)));
               entry_fields := signal_fields (clock s) signal |}) in *.
  assert (truthy (peer st) = Some connection) as Htruthy.
  { rewrite Hpeer. by destruct connection. }
  assert (st_xread (relay_request room st) s' = Some [(KConnectionSignal connection, [e])])
    as Hread.
  { apply xread_peer_entry; [exact Htruthy|..].
    - rewrite Hk by discriminate. by apply filter_caught_up.
    - rewrite Hstream, Hcursor. apply filter_one_new. cbn [e entry_id]. lia. }
  pose proof (run_relay_iteration_one room actor st cn' s' _ _ Hread) as Hiter.
  destruct (run_consume_signal actor (KConnectionSignal connection) e st cn' s' signal
              (find_data_signal (clock s) signal)) as (st' & Hst' & Hsent & Hp').
  destruct (run_consume actor (KConnectionSignal connection) e st cn' s')
    as (r & Hr & Hconsumed).
  rewrite Hst' in Hr. injection Hr as <-.
  destruct (Hconsumed st' eq_refl) as (_ & Hm & Hpc & _).
  rewrite prefix_room_signal in Hm, Hpc. rewrite prefix_connection_signal in Hpc.
  exists (entry_id e), s', st'. split; [exact Hrun|]. split; [by rewrite Hiter|].
  split; [exact Hpc|]. split; [exact Hm|]. split; [by rewrite Hp'|exact Hsent].
Qed.

Lemma written_signal_is_forwarded_witness :
  ∃ id s' st',
    run (Store.writeSignal demo_retain "0" (SDP offer "v=0")) ∅ lobby = (Ok id, ∅, s')
    ∧ run (Store.relay_iteration "r" "bob" (set_peer (Some "0") fresh_relay)) ∅ s'
      = (Ok st', ∅, s')
    ∧ peerCursor st' = id
    ∧ messageCursor st' = messageCursor (set_peer (Some "0") fresh_relay)
    ∧ peer st' = Some "0"
    ∧ sent (dest st')
      = (sent (dest (set_peer (Some "0") fresh_relay)) ++ [ESignal (SDP offer "v=0")])%list.
Proof.
  apply (written_signal_is_forwarded demo_retain "r" "bob" "0" (SDP offer "v=0")
           (set_peer (Some "0") fresh_relay) ∅ ∅ lobby).
  - reflexivity.
  - discriminate.
  - reflexivity.
  - reflexivity.
Defined.

Lemma filter_all {A} (P : A → Prop) `{∀ x, Decision (P x)} (l : list A) :
  Forall P l → filter P l = l.
Proof.
  induction 1 as [|x l Hx _ IH]; [reflexivity|].
  by rewrite filter_cons, decide_True, IH.
Qed.

(** Reading a stream with growing ids from a cursor leaves the cursor at
    the stream's end. *)
Lemma cursor_after_read (es : list Entry) (cursor : N) :
  stream_sorted es →
  cursor_after cursor (filter (λ e, (cursor < entry_id e)%N) es)
  = N.max cursor (last_entry_id es).
Proof.
  revert cursor. induction es as [|e es IH]; intros cursor Hsorted.
  - cbn. lia.
  - destruct Hsorted as [Hhead Hsorted].
    change (last_entry_id (e :: es)) with (N.max (entry_id e) (last_entry_id es)).
    rewrite filter_cons. destruct (decide (cursor < entry_id e)%N) as [Hlt|Hge].
    + rewrite (filter_all (λ e', (cursor < entry_id e')%N) es).
      2:{ eapply Forall_impl; [exact Hhead|]. intros e' He'. cbn beta in *. lia. }
      change (cursor_after cursor (e :: es)) with (cursor_after (entry_id e) es).
      rewrite <- (filter_all (λ e', (entry_id e < entry_id e')%N) es Hhead) at 1.
      rewrite IH by exact Hsorted. lia.
    + rewrite IH by exact Hsorted. lia.
Qed.

Lemma message_cursor_after_read room st s :
  stream_sorted (stream_of s (KRoomMessages room)) →
  message_cursor_after (messageCursor st) (default [] (st_xread (relay_request room st) s))
  = N.max (messageCursor st) (last_entry_id (stream_of s (KRoomMessages room))).
Proof.
  intros Hsorted. rewrite <- (cursor_after_read _ _ Hsorted).
  unfold relay_request, st_xread.
  destruct (truthy (peer st)) as [p|]; cbn -[key];
    destruct (filter _ (stream_of s (KRoomMessages room))) as [|e es];
    try destruct (filter _ (stream_of s (KConnectionSignal p))) as [|e' es'];
    cbn -[key]; rewrite ?prefix_room_messages, ?prefix_room_signal; reflexivity.
Qed.

(** *** What a turn sends *)

Lemma run_getUser_cached_resolve id st cn s :
  ∃ st', run (Store.getUser_cached id st) cn s = (Ok (resolve s st id, st'), cn, s)
         ∧ dest st' = dest st
         ∧ peer st' = peer st
         ∧ ∀ u, resolve s st' u = resolve s st u.
Proof.
  unfold Store.getUser_cached. destruct (users st !! id) as [user|] eqn:Hcached.
  - exists st. rewrite run_Ret. unfold resolve at 1. rewrite Hcached. by repeat split.
  - rewrite run_mbind, run_getUser. run_step. eexists. split.
    { unfold resolve at 1. rewrite Hcached. reflexivity. }
    split; [reflexivity|]. split; [reflexivity|]. intros u. unfold resolve. cbn [users set_users].
    destruct (decide (u = id)) as [->|Hne].
    + by rewrite lookup_insert_eq, Hcached.
    + by rewrite lookup_insert_ne.
Qed.

Lemma events_of_ext s st st' entry :
  (∀ u, resolve s st' u = resolve s st u) → events_of s st' entry = events_of s st entry.
Proof.
  intros Hsame. unfold events_of.
  destruct (find_data (entry_fields entry)) as [text|]; [|reflexivity].
  destruct (JSON_parse text) as [[data|data|other]|err]; try reflexivity.
  by rewrite Hsame.
Qed.

Lemma resolve_users s st st' :
  users st' = users st → ∀ u, resolve s st' u = resolve s st u.
Proof. intros Hu u. unfold resolve. by rewrite Hu. Qed.

Lemma run_consume_events actor k entry st cn s st' cn' s' :
  run (Store.consume actor k entry st) cn s = (Ok st', cn', s') →
  sent (dest st') = (sent (dest st) ++ events_of s st entry)%list
  ∧ ∀ u, resolve s st' u = resolve s st u.
Proof.
  unfold Store.consume, events_of.
  set (st0 := if String.prefix "room:" (key k) then _ else _).
  assert (dest st0 = dest st ∧ users st0 = users st) as (Hd & Hu).
  { subst st0. by repeat case_match. }
  pose proof (resolve_users s st st0 Hu) as Hr0. clearbody st0.
  destruct (find_data (entry_fields entry)) as [text|].
  2:{ rewrite run_Ret. intros [= <- _ _]. rewrite Hd, app_nil_r. by split. }
  destruct (JSON_parse text) as [[data|data|other]|err].
  - rewrite run_mbind.
    destruct (run_getUser_cached_resolve (message_user data) st0 cn s)
      as (st1 & -> & Hd1 & _ & Hr1).
    rewrite <-(Hr0 (message_user data)), <-Hd, <-Hd1.
    assert (∀ u, resolve s st1 u = resolve s st u) as Hr
      by (intros u; by rewrite Hr1, Hr0).
    clear Hr0 Hr1 Hd Hd1 Hu.
    destruct (resolve s st0 (message_user data)) as [user|]; run_step; intros [= <- _ _].
    + split.
      * by repeat case_match.
      * intros u. rewrite <-Hr. apply resolve_users. by repeat case_match.
    + split.
      * rewrite app_nil_r. by repeat case_match.
      * intros u. rewrite <-Hr. apply resolve_users. by repeat case_match.
  - rewrite run_Ret. intros [= <- _ _]. cbn. rewrite Hd. by split.
  - rewrite run_Ret. intros [= <- _ _]. rewrite Hd, app_nil_r. by split.
  - rewrite run_Throw. discriminate.
Qed.

Lemma run_consume_entries_events actor k entries st cn s st' cn' s' :
  run (Store.consume_entries actor k entries st) cn s = (Ok st', cn', s') →
  sent (dest st') = (sent (dest st) ++ (entries ≫= events_of s st))%list
  ∧ ∀ u, resolve s st' u = resolve s st u.
Proof.
  revert st. induction entries as [|entry entries IH]; intros st; cbn [Store.consume_entries].
  - rewrite run_Ret. intros [= <- _ _]. cbn. rewrite app_nil_r. by split.
  - rewrite run_mbind.
    destruct (run_consume actor k entry st cn s) as (r & Hr & _).
    destruct r as [st1|err]; rewrite Hr; [|discriminate].
    destruct (run_consume_events _ _ _ _ _ _ _ _ _ Hr) as [Hsent1 Hres1].
    intros Hrest. destruct (IH st1 Hrest) as [Hsent Hres].
    split.
    + rewrite Hsent, Hsent1, <-app_assoc. f_equal. cbn. f_equal.
      clear -Hres1. induction entries as [|e es IHes]; [reflexivity|].
      cbn. by rewrite IHes, (events_of_ext s st st1 e Hres1).
    + intros u. by rewrite Hres, Hres1.
Qed.

Lemma run_consume_result_events actor result st cn s st' cn' s' :
  run (Store.consume_result actor result st) cn s = (Ok st', cn', s') →
  sent (dest st') = (sent (dest st) ++ (entries_read result ≫= events_of s st))%list
  ∧ ∀ u, resolve s st' u = resolve s st u.
Proof.
  revert st. induction result as [|[k entries] result IH]; intros st;
    cbn [Store.consume_result].
  - rewrite run_Ret. intros [= <- _ _]. cbn. rewrite app_nil_r. by split.
  - rewrite run_mbind.
    destruct (run_consume_entries actor k entries st cn s) as (r & Hr & _).
    destruct r as [st1|err]; rewrite Hr; [|discriminate].
    destruct (run_consume_entries_events _ _ _ _ _ _ _ _ _ Hr) as [Hsent1 Hres1].
    intros Hrest. destruct (IH st1 Hrest) as [Hsent Hres].
    split.
    + rewrite Hsent, Hsent1, <-app_assoc. f_equal.
      unfold entries_read. cbn. rewrite bind_app. f_equal.
      generalize (concat result.*2). clear -Hres1. intros es.
      induction es as [|e es IHes]; [reflexivity|].
      cbn. by rewrite IHes, (events_of_ext s st st1 e Hres1).
    + intros u. by rewrite Hres, Hres1.
Qed.

Lemma run_relay_iteration_events room actor st cn s st' cn' s' :
  run (Store.relay_iteration room actor st) cn s = (Ok st', cn', s') →
  sent (dest st')
  = (sent (dest st)
     ++ (entries_read (default [] (st_xread (relay_request room st) s)) ≫= events_of s st))%list.
Proof.
  unfold Store.relay_iteration. fold (relay_request room st). run_step.
  destruct (st_xread (relay_request room st) s) as [result|].
  - intros Hrun. by destruct (run_consume_result_events _ _ _ _ _ _ _ _ Hrun).
  - rewrite run_Ret. intros [= <- _ _]. cbn. by rewrite app_nil_r.
Qed.

Lemma entries_read_xread req s :
  entries_read (default [] (st_xread req s)) = unread req s.
Proof.
  unfold st_xread, entries_read, unread.
  set (news := omap _ req).
  assert (concat news.*2
          = req ≫= λ '(k, cursor), filter (λ e, (cursor < entry_id e)%N) (stream_of s k))
    as <-.
  { subst news. induction req as [|[k cursor] req IH]; [reflexivity|].
    cbn. destruct (filter _ (stream_of s k)) as [|e es]; cbn; by rewrite IH. }
  by destruct news.
Qed.

(** X19. No message of a room is forwarded twice.  A turn of the loop
    sends, after what was sent before, one event for each entry it reads
    that carries a message with a known author or a signal, in the order
    of the entries, and nothing else; the entries it reads are those of
    the room's stream past the message cursor, then those of the peer's
    signal stream past the peer cursor.  It leaves the message cursor at
    the end of the room's stream, so that nothing of the stream as it is
    then is read by a later turn. *)
Theorem relay_iteration_forwards_once (room actor : string) (st st' : Relay)
    (cn cn' : Conn) (s s' : State) :
  stream_sorted (stream_of s (KRoomMessages room)) →
  run (Store.relay_iteration room actor st) cn s = (Ok st', cn', s') →
  sent (dest st')
  = (sent (dest st) ++ (unread (relay_request room st) s ≫= events_of s st))%list
  ∧ messageCursor st'
    = N.max (messageCursor st) (last_entry_id (stream_of s (KRoomMessages room)))
  ∧ unread [(KRoomMessages room, messageCursor st')] s' = [].
Proof.
  intros Hsorted Hrun. split.
  { rewrite <-entries_read_xread. exact (run_relay_iteration_events _ _ _ _ _ _ _ _ Hrun). }
  destruct (run_relay_iteration room actor st cn s) as (r & Hr & Hconsumed).
  rewrite Hrun in Hr. injection Hr as <- -> ->.
  destruct (Hconsumed st' eq_refl) as (_ & Hm & _).
  rewrite message_cursor_after_read in Hm by exact Hsorted.
  split; [exact Hm|]. unfold unread. cbn -[key]. rewrite app_nil_r.
  apply filter_caught_up. lia.
Qed.

Lemma relay_iteration_forwards_once_witness :
  let st' := relay_of (run (Store.relay_iteration "r" "alice" fresh_relay) ∅ both_joined) in
  stream_sorted (stream_of both_joined (KRoomMessages "r"))
  ∧ sent (dest st')
    = [ EMessage (Join 1 "alice" "0" host)
          {| user_id := "alice"; user_name := "Alice";
             user_created := Some 1700000000000%Z |};
        EMessage (Join 2 "bob" "1" guest)
          {| user_id := "bob"; user_name := "Bob";
             user_created := Some 1700000000000%Z |} ]
  ∧ unread [(KRoomMessages "r", messageCursor st')] both_joined = [].
Proof.
  intros st'.
  assert (stream_sorted (stream_of both_joined (KRoomMessages "r"))) as Hsorted.
  { vm_compute. repeat constructor. }
  destruct (relay_iteration_forwards_once "r" "alice" fresh_relay st' ∅ ∅
              both_joined both_joined Hsorted) as (Hsent & _ & Hread).
  { vm_compute. reflexivity. }
  split; [exact Hsorted|]. split; [|exact Hread].
  rewrite Hsent. vm_compute. reflexivity.
Defined.

(** ** Rooms and their slugs *)

Lemma hash_of_hset_eq k h s : hash_of (st_hset k h s) k = h ∪ hash_of s k.
Proof. rewrite hash_of_hset. by destruct (decide (k = k)). Qed.

Lemma hash_of_hset_ne k h s k' : k ≠ k' → hash_of (st_hset k h s) k' = hash_of s k'.
Proof. intros Hne. rewrite hash_of_hset. by destruct (decide (k = k')). Qed.

(** The loop of [allocateSlug]: the first candidate that is not in the
    slug map is entered there and returned; the loop fails when every
    candidate is taken, and then has changed nothing. *)
Lemma run_allocate (candidates : list string) (id : string) (cn : Conn) (s : State) :
  ConnectedStore.allocate candidates id cn s
  = match list_find (λ slug, hash_of s KSlugs !! slug = None) candidates with
    | Some (_, slug) => (Ok slug, cn, st_hset KSlugs {[ slug := id ]} s)
    | None => (Err (InternalError "Failed to generate room name"), cn, s)
    end.
Proof.
  induction candidates as [|slug candidates IH]; [reflexivity|].
  cbn [ConnectedStore.allocate list_find]. unfold act_bind, hsetnx.
  destruct (hash_of s KSlugs !! slug) as [taken|] eqn:Hslug.
  - rewrite decide_False by discriminate. cbn [N.eqb]. rewrite IH.
    by destruct (list_find _ candidates) as [[i slug']|].
  - rewrite decide_True by reflexivity. reflexivity.
Qed.

Lemma run_createRoom retain (generateSlug : nat → string) (owner : string)
    (cn : Conn) (s : State) :
  let res := Store.createRoom retain generateSlug owner cn s in
  let id := pretty (uuids s) in
  if decide (hash_of s (KUser owner) = ∅)
  then res = (Err (NotFound "User is not registered"), cn, s)
  else match list_find (λ slug, hash_of s KSlugs !! slug = None) (generateSlug <$> seq 0 4) with
       | None => res = (Err (InternalError "Failed to generate room name"), cn, take_uuid s)
       | Some (_, slug) =>
           ∃ s', res = (Ok {| room_id := id; room_slug := slug;
                              room_created := TimeClip (clock s); room_owner := owner |}, cn, s')
                 ∧ hash_of s' (KRoom id)
                   = {[ "id" := id; "slug" := slug; "created" := pretty (clock s);
                        "owner" := owner ]} ∪ hash_of s (KRoom id)
                 ∧ hash_of s' KSlugs = <[slug := id]> (hash_of s KSlugs)
                 ∧ (∀ k, k ≠ KRoom id → k ≠ KSlugs → hash_of s' k = hash_of s k)
                 ∧ streams s' = streams s
       end.
Proof.
  intros res id. subst res.
  destruct (decide (hash_of s (KUser owner) = ∅)) as [Hnone|Hsome];
    [|destruct (list_find _ _) as [[i slug]|] eqn:Hfind];
    unfold Store.createRoom, ConnectedStore.createRoom, act_bind, perform;
    rewrite run_getUser.
  - rewrite decide_True by exact Hnone. reflexivity.
  - rewrite decide_False by exact Hsome. cbv iota beta.
    unfold await. rewrite run_Vis by reflexivity. cbn [exec]. rewrite run_Ret. cbv iota beta. fold id.
    unfold ConnectedStore.allocateSlug. rewrite run_allocate.
    change (hash_of (take_uuid s) KSlugs) with (hash_of s KSlugs). rewrite Hfind.
    cbv iota beta. rewrite run_Vis by reflexivity. cbn [exec]. rewrite run_Ret. cbv iota beta.
    rewrite run_Vis by reflexivity. cbn [exec apply_write]. rewrite run_Ret. cbv iota beta.
    rewrite run_Vis by reflexivity. cbn [exec apply_write]. rewrite run_Ret. cbv iota beta.
    match goal with
    | |- context [run (ConnectedStore.addUserEvent ?r ?u ?e) ?c ?st] =>
        destruct (run_addUserEvent r u e c st) as (s' & -> & Hsame)
    end.
    exists s'. split; [reflexivity|].
    rewrite !(same_data_hash_of _ _ _ Hsame), !hash_of_pexpire.
    rewrite hash_of_hset_eq, (hash_of_hset_ne KSlugs) by discriminate.
    rewrite hash_of_take_uuid.
    split; [reflexivity|]. split.
    { rewrite (hash_of_hset_ne (KRoom id)) by discriminate.
      rewrite hash_of_hset_eq, hash_of_take_uuid. symmetry. apply insert_union_singleton_l. }
    split.
    { intros k Hroom Hslugs. rewrite (same_data_hash_of _ _ _ Hsame), hash_of_pexpire.
      rewrite !hash_of_hset_ne by congruence. apply hash_of_take_uuid. }
    destruct Hsame as (_ & -> & _). unfold st_pexpire.
    destruct (key_exists _ _); cbn [streams touch]; by rewrite !streams_hset.
  - rewrite decide_False by exact Hsome. cbv iota beta.
    unfold await. rewrite run_Vis by reflexivity. cbn [exec]. rewrite run_Ret. cbv iota beta. fold id.
    unfold ConnectedStore.allocateSlug. rewrite run_allocate.
    change (hash_of (take_uuid s) KSlugs) with (hash_of s KSlugs). rewrite Hfind.
    reflexivity.
Qed.

(** X20. A room is created only for a registered user: for an owner
    without a user record [createRoom] fails with NotFound and has written
    nothing, not even a slug. *)
Theorem createRoom_unregistered retain (generateSlug : nat → string) (owner : string)
    (cn : Conn) (s : State) :
  hash_of s (KUser owner) = ∅ →
  Store.createRoom retain generateSlug owner cn s
  = (Err (NotFound "User is not registered"), cn, s).
Proof.
  intros Hnone. pose proof (run_createRoom retain generateSlug owner cn s) as Hrun.
  cbv zeta in Hrun. by rewrite decide_True in Hrun.
Qed.

Lemma createRoom_unregistered_witness :
  Store.createRoom demo_retain demo_slug "dave" ∅ lobby
  = (Err (NotFound "User is not registered"), ∅, lobby).
Proof. apply (createRoom_unregistered demo_retain demo_slug "dave" ∅ lobby). reflexivity. Defined.

Lemma createRoom_Ok_inv retain generateSlug owner cn s room cn' s' :
  Store.createRoom retain generateSlug owner cn s = (Ok room, cn', s') →
  let id := pretty (uuids s) in
  ∃ i slug,
    list_find (λ slug, hash_of s KSlugs !! slug = None) (generateSlug <$> seq 0 4)
    = Some (i, slug)
    ∧ room = {| room_id := id; room_slug := slug;
                room_created := TimeClip (clock s); room_owner := owner |}
    ∧ cn' = cn
    ∧ hash_of s' (KRoom id)
      = {[ "id" := id; "slug" := slug; "created" := pretty (clock s);
           "owner" := owner ]} ∪ hash_of s (KRoom id)
    ∧ hash_of s' KSlugs = <[slug := id]> (hash_of s KSlugs)
    ∧ (∀ k, k ≠ KRoom id → k ≠ KSlugs → hash_of s' k = hash_of s k)
    ∧ streams s' = streams s.
Proof.
  intros Hrun id. pose proof (run_createRoom retain generateSlug owner cn s) as Hspec.
  cbv zeta in Hspec. rewrite Hrun in Hspec.
  destruct (decide (hash_of s (KUser owner) = ∅)); [discriminate Hspec|].
  destruct (list_find _ _) as [[i slug]|]; [|discriminate Hspec].
  destruct Hspec as (s0 & Heq & Hroom & Hslugs & Hframe & Hstreams).
  injection Heq as -> -> ->. exists i, slug.
  split; [reflexivity|]. split; [reflexivity|]. split; [reflexivity|].
  split; [exact Hroom|]. split; [exact Hslugs|]. split; [exact Hframe|exact Hstreams].
Qed.

Lemma room_fields (id slug created owner : string) (old : Hash) :
  let data := {[ "id" := id; "slug" := slug; "created" := created; "owner" := owner ]} ∪ old in
  data ≠ ∅ ∧ field data "id" = id ∧ field data "slug" = slug
  ∧ field data "created" = created ∧ field data "owner" = owner.
Proof.
  intros data. split.
  { intros Hempty. assert (data !! "id" = None) as Hid by (rewrite Hempty; apply lookup_empty).
    subst data. by rewrite (lookup_union_Some_l _ _ "id" id) in Hid. }
  subst data. split; [|split; [|split]];
    apply field_lookup, lookup_union_Some_l; reflexivity.
Qed.

Lemma getRoom_created retain (generateSlug : nat → string) (owner : string)
    (room : Room) (cn cn' cn2 : Conn) (s s' : State) :
  Store.createRoom retain generateSlug owner cn s = (Ok room, cn', s') →
  run (ConnectedStore.getRoom by_id (room_id room)) cn2 s' = (Ok (Some room), cn2, s')
  ∧ run (ConnectedStore.getRoom by_slug (room_slug room)) cn2 s' = (Ok (Some room), cn2, s').
Proof.
  intros Hrun.
  destruct (createRoom_Ok_inv _ _ _ _ _ _ _ _ Hrun)
    as (i & slug & _ & -> & _ & Hroom & Hslugs & _).
  cbn [room_id room_slug].
  destruct (room_fields (pretty (uuids s)) slug (pretty (clock s)) owner
              (hash_of s (KRoom (pretty (uuids s))))) as (Hne & Hid & Hslug & Hcreated & Howner).
  rewrite <- Hroom in Hne, Hid, Hslug, Hcreated, Howner.
  assert (run (ConnectedStore.getRoom by_id (pretty (uuids s))) cn2 s'
          = (Ok (Some {| room_id := pretty (uuids s); room_slug := slug;
                         room_created := TimeClip (clock s); room_owner := owner |}), cn2, s'))
    as Hby_id.
  { unfold ConnectedStore.getRoom. run_step.
    rewrite decide_False by exact Hne. rewrite run_Ret.
    by rewrite Hid, Hslug, Hcreated, Howner, date_pretty. }
  split; [exact Hby_id|].
  unfold ConnectedStore.getRoom, ConnectedStore.resolveSlug. run_step.
  rewrite Hslugs, lookup_insert_eq.
  unfold ConnectedStore.getRoom in Hby_id. exact Hby_id.
Qed.

(** X21. A room that [createRoom] returned is found again as it was
    returned, by its id and by its slug. *)
Theorem createRoom_getRoom retain (generateSlug : nat → string) (owner : string)
    (room : Room) (cn cn' cn2 : Conn) (s s' : State) :
  Store.createRoom retain generateSlug owner cn s = (Ok room, cn', s') →
  run (Store.getRoom by_id (room_id room)) cn2 s' = (Ok (Some room), cn2, s')
  ∧ run (Store.getRoom by_slug (room_slug room)) cn2 s' = (Ok (Some room), cn2, s').
Proof. apply getRoom_created. Qed.

Lemma createRoom_getRoom_witness :
  let res := Store.createRoom demo_retain demo_slug "bob" ∅ lobby_listed in
  ∃ room,
    res.1.1 = Ok room
    ∧ run (Store.getRoom by_id (room_id room)) ∅ res.2 = (Ok (Some room), ∅, res.2)
    ∧ run (Store.getRoom by_slug (room_slug room)) ∅ res.2 = (Ok (Some room), ∅, res.2).
Proof.
  intros res. eexists. split; [vm_compute; reflexivity|].
  apply (createRoom_getRoom demo_retain demo_slug "bob" _ ∅ res.1.2 ∅ lobby_listed res.2).
  vm_compute. reflexivity.
Defined.

(** X22. The slug of a new room is the first of the four candidates that
    was not in the slug map; it now maps to the new room, and every slug
    that was in the map still maps to the room it had. *)
Theorem createRoom_takes_free_slug retain (generateSlug : nat → string) (owner : string)
    (room : Room) (cn cn' : Conn) (s s' : State) :
  Store.createRoom retain generateSlug owner cn s = (Ok room, cn', s') →
  (∃ turn, turn < 4
           ∧ room_slug room = generateSlug turn
           ∧ ∀ earlier, earlier < turn →
               is_Some (hash_of s KSlugs !! generateSlug earlier))
  ∧ hash_of s KSlugs !! room_slug room = None
  ∧ hash_of s' KSlugs !! room_slug room = Some (room_id room)
  ∧ ∀ slug id, hash_of s KSlugs !! slug = Some id → hash_of s' KSlugs !! slug = Some id.
Proof.
  intros Hrun.
  destruct (createRoom_Ok_inv _ _ _ _ _ _ _ _ Hrun)
    as (i & slug & Hfind & -> & _ & _ & Hslugs & _).
  cbn [room_id room_slug].
  apply list_find_Some in Hfind as (Hi & Hfree & Hearlier).
  apply list_lookup_fmap_Some in Hi as (turn & -> & Hturn).
  apply lookup_seq in Hturn as [-> Hlt]. cbn in Hlt.
  split; [|split; [exact Hfree|split]].
  - exists i. split; [exact Hlt|]. split; [reflexivity|].
    intros earlier Hbefore.
    destruct (hash_of s KSlugs !! generateSlug earlier) as [id|] eqn:Hslug; [by eexists|].
    exfalso. apply (Hearlier earlier (generateSlug earlier)); [|exact Hbefore|exact Hslug].
    rewrite list_lookup_fmap, lookup_seq_lt by lia. reflexivity.
  - rewrite Hslugs. apply lookup_insert_eq.
  - intros slug id Hslug. rewrite Hslugs, lookup_insert_ne; [exact Hslug|].
    intros <-. rewrite Hfree in Hslug. discriminate Hslug.
Qed.

Lemma createRoom_takes_free_slug_witness :
  let res := Store.createRoom demo_retain demo_slug "bob" ∅ lobby_listed in
  let room := {| room_id := "0"; room_slug := "calm-heron";
                 room_created := Some 1700000000000%Z; room_owner := "bob" |} in
  res.1.1 = Ok room
  ∧ hash_of res.2 KSlugs !! "calm-heron" = Some "0"
  ∧ hash_of res.2 KSlugs !! "brave-otter" = Some "r".
Proof.
  intros res room. split; [vm_compute; reflexivity|].
  destruct (createRoom_takes_free_slug demo_retain demo_slug "bob" room ∅ res.1.2
              lobby_listed res.2) as (_ & _ & Hnew & Hold).
  { vm_compute. reflexivity. }
  split; [exact Hnew|]. apply Hold. reflexivity.
Defined.

(** X23. With all four candidates taken [createRoom] gives up with the
    plain error of [allocateSlug]: no room record is written and the slug
    map is as it was. *)
Theorem createRoom_slugs_exhausted retain (generateSlug : nat → string) (owner : string)
    (cn : Conn) (s : State) :
  hash_of s (KUser owner) ≠ ∅ →
  (∀ turn, turn < 4 → is_Some (hash_of s KSlugs !! generateSlug turn)) →
  ∃ s', Store.createRoom retain generateSlug owner cn s
        = (Err (InternalError "Failed to generate room name"), cn, s')
        ∧ hashes s' = hashes s ∧ streams s' = streams s.
Proof.
  intros Hsome Htaken. pose proof (run_createRoom retain generateSlug owner cn s) as Hrun.
  cbv zeta in Hrun. rewrite decide_False in Hrun by exact Hsome.
  destruct (list_find _ _) as [[i slug]|] eqn:Hfind.
  - exfalso. apply list_find_Some in Hfind as (Hi & Hfree & _).
    apply list_lookup_fmap_Some in Hi as (turn & -> & Hturn).
    apply lookup_seq in Hturn as [-> Hlt]. cbn in Hlt.
    change (0 + i) with i in Hfree.
    destruct (Htaken i Hlt) as [id Hid]. rewrite Hfree in Hid. discriminate Hid.
  - exists (take_uuid s). split; [exact Hrun|]. split; reflexivity.
Qed.

Lemma createRoom_slugs_exhausted_witness :
  ∃ s', Store.createRoom demo_retain demo_slug "bob" ∅ slugs_taken
        = (Err (InternalError "Failed to generate room name"), ∅, s')
        ∧ hashes s' = hashes slugs_taken ∧ streams s' = streams slugs_taken.
Proof.
  apply (createRoom_slugs_exhausted demo_retain demo_slug "bob" ∅ slugs_taken).
  - vm_compute. discriminate.
  - intros turn Hturn.
    destruct turn as [|[|[|[|turn]]]]; [vm_compute; by eexists..|lia].
Defined.

Lemma run_getRoom_by_id id cn s :
  run (ConnectedStore.getRoom by_id id) cn s
  = (Ok (let data := hash_of s (KRoom id) in
         if decide (data = ∅) then None
         else Some {| room_id := field data "id"; room_slug := field data "slug";
                      room_created := date (field data "created");
                      room_owner := field data "owner" |}), cn, s).
Proof.
  unfold ConnectedStore.getRoom. run_step.
  destruct (decide (hash_of s (KRoom id) = ∅)); by rewrite run_Ret.
Qed.

Lemma run_getRoom_by_slug slug cn s :
  run (ConnectedStore.getRoom by_slug slug) cn s
  = match hash_of s KSlugs !! slug with
    | Some id => run (ConnectedStore.getRoom by_id id) cn s
    | None => (Ok None, cn, s)
    end.
Proof.
  unfold ConnectedStore.getRoom, ConnectedStore.resolveSlug. run_step.
  destruct (hash_of s KSlugs !! slug); [reflexivity|by rewrite run_Ret].
Qed.

(** X24. [getRoom] only reads and never fails, for the ids this code
    makes (they have no colon, so the key of the room's record is no other
    key, [key_room_alone]): the id asked for, or the id the slug map has
    for the slug asked for.  It finds no room exactly when the room's hash
    is missing: for a lookup by slug, when the slug is in nobody's name or
    the room it names has no record (any more). *)
Theorem getRoom_reads_only (by_ : By) (k : string) (cn : Conn) (s : State) :
  match by_ with
  | by_id => colon_free k
  | by_slug => ∀ id, hash_of s KSlugs !! k = Some id → colon_free id
  end →
  ∃ room, run (Store.getRoom by_ k) cn s = (Ok room, cn, s)
          ∧ (room = None
             ↔ match by_ with
               | by_id => hash_of s (KRoom k) = ∅
               | by_slug => ∀ id, hash_of s KSlugs !! k = Some id → hash_of s (KRoom id) = ∅
               end).
Proof.
  intros _. unfold Store.getRoom. destruct by_.
  - rewrite run_getRoom_by_id. eexists. split; [reflexivity|]. cbv zeta.
    destruct (decide (hash_of s (KRoom k) = ∅)) as [Hnone|Hsome].
    + split; [intros _; exact Hnone|reflexivity].
    + split; [discriminate|]. intros Hnone. by destruct Hsome.
  - rewrite run_getRoom_by_slug. destruct (hash_of s KSlugs !! k) as [id|].
    + rewrite run_getRoom_by_id. eexists. split; [reflexivity|]. cbv zeta.
      destruct (decide (hash_of s (KRoom id) = ∅)) as [Hnone|Hsome].
      * split; [|reflexivity]. intros _ id' [= <-]. exact Hnone.
      * split; [discriminate|]. intros Hnone. destruct Hsome. by apply Hnone.
    + eexists. split; [reflexivity|]. split; [|reflexivity]. intros _ id' Hid'.
      discriminate Hid'.
Qed.

Lemma getRoom_reads_only_witness :
  ∃ room, run (Store.getRoom by_slug "brave-otter") ∅ (vanish (KRoom "r") lobby_listed)
          = (Ok room, ∅, vanish (KRoom "r") lobby_listed)
          ∧ room = None.
Proof.
  destruct (getRoom_reads_only by_slug "brave-otter" ∅ (vanish (KRoom "r") lobby_listed))
    as (room & Hrun & Hnone).
  { intros id Hid. vm_compute in Hid. injection Hid as <-.
    split; [discriminate|exact I]. }
  exists room. split; [exact Hrun|]. apply Hnone. intros id Hid.
  vm_compute in Hid. injection Hid as <-. vm_compute. reflexivity.
Defined.

Lemma hash_of_vanish k s k' :
  hash_of (vanish k s) k' = if decide (k = k') then ∅ else hash_of s k'.
Proof. apply hash_of_del. Qed.

(** X25. A slug outlives its room: when the room's record has run out
    the slug still names the room, so that the room is not found under it
    and no later room is given it. *)
Theorem slug_outlives_room retain (generateSlug : nat → string) (owner : string)
    (room : Room) (cn cn' cn2 : Conn) (s s' : State) :
  Store.createRoom retain generateSlug owner cn s = (Ok room, cn', s') →
  let expired := vanish (KRoom (room_id room)) s' in
  run (Store.getRoom by_slug (room_slug room)) cn2 expired = (Ok None, cn2, expired)
  ∧ ∀ generateSlug' owner' room' cn3 cn3' s3,
      Store.createRoom retain generateSlug' owner' cn3 expired = (Ok room', cn3', s3) →
      room_slug room' ≠ room_slug room.
Proof.
  intros Hrun expired.
  destruct (createRoom_Ok_inv _ _ _ _ _ _ _ _ Hrun)
    as (i & slug & _ & -> & _ & _ & Hslugs & _).
  cbn [room_id room_slug] in *.
  assert (hash_of expired KSlugs !! slug = Some (pretty (uuids s))) as Hnamed.
  { subst expired. rewrite hash_of_vanish, decide_False by discriminate.
    rewrite Hslugs. apply lookup_insert_eq. }
  split.
  - unfold Store.getRoom. rewrite run_getRoom_by_slug, Hnamed, run_getRoom_by_id.
    cbv zeta.
    assert (hash_of expired (KRoom (pretty (uuids s))) = ∅) as Hgone.
    { subst expired. rewrite hash_of_vanish.
      by destruct (decide (KRoom (pretty (uuids s)) = KRoom (pretty (uuids s)))). }
    rewrite Hgone. by destruct (decide _).
  - intros generateSlug' owner' room' cn3 cn3' s3 Hrun' Hsame.
    destruct (createRoom_Ok_inv _ _ _ _ _ _ _ _ Hrun')
      as (i' & slug' & Hfind & -> & _).
    cbn [room_slug] in Hsame. subst slug'.
    apply list_find_Some in Hfind as (_ & Hfree & _).
    rewrite Hnamed in Hfree. discriminate Hfree.
Qed.

Lemma slug_outlives_room_witness :
  let res := Store.createRoom demo_retain demo_slug "bob" ∅ lobby in
  ∃ room,
    res.1.1 = Ok room
    ∧ run (Store.getRoom by_slug (room_slug room)) ∅ (vanish (KRoom (room_id room)) res.2)
      = (Ok None, ∅, vanish (KRoom (room_id room)) res.2).
Proof.
  intros res. eexists. split; [vm_compute; reflexivity|].
  refine (proj1 (slug_outlives_room demo_retain demo_slug "bob" _ ∅ res.1.2 ∅ lobby res.2 _)).
  vm_compute. reflexivity.
Defined.

(** ** The request handlers *)

(** X26. Joining a room that was just created: the request by the
    room's slug succeeds for whoever comes first, the owner as host and
    anybody else as guest; the session names the room, and the caller is
    then the one occupant of the room. *)
Theorem join_room_after_createRoom retain (generateSlug : nat → string) (owner : string)
    (room : Room) (user : User) (cn cn' cn2 : Conn) (s s' : State) :
  Store.createRoom retain generateSlug owner cn s = (Ok room, cn', s') →
  hash_of s' (KRoomConnections (room_id room)) = ∅ →
  ∃ session s'',
    run (App.join_room retain (Some user) (room_slug room)) cn2 s' = (Ok session, cn2, s'')
    ∧ session_room session = (room_id room, room_slug room)
    ∧ session_role session = (if decide (user_id user = owner) then host else guest)
    ∧ hash_of s'' (KRoomConnections (room_id room))
      = {[ user_id user := session_id session ]}.
Proof.
  intros Hrun Hempty.
  destruct (getRoom_created _ _ _ _ _ _ cn2 _ _ Hrun) as [_ Hby_slug].
  destruct (createRoom_Ok_inv _ _ _ _ _ _ _ _ Hrun)
    as (i & slug & _ & -> & _ & Hroom & _).
  cbn [room_id room_slug] in *.
  unfold App.join_room, Store.getRoom, Store.createSession.
  rewrite run_mbind, Hby_slug. cbn [room_id room_slug]. rewrite run_mbind.
  pose proof (run_createSession retain (pretty (uuids s)) (user_id user) cn2 s') as Hspec.
  cbn zeta in Hspec. rewrite Hroom, Hempty, dom_empty_L in Hspec.
  rewrite (lookup_union_Some_l _ _ "owner" owner),
    (lookup_union_Some_l _ _ "slug" slug) in Hspec by reflexivity.
  destruct (decide (user_id user ∈ (∅ : gset string))) as [Hin|_];
    [by apply not_elem_of_empty in Hin|].
  destruct (decide (user_id user ≠ owner ∧ _)) as [[_ Hguests]|_].
  { exfalso. apply Hguests, set_eq. intros u. rewrite elem_of_filter.
    split; [by intros [_ ?]|]. intros Hu. by apply not_elem_of_empty in Hu. }
  destruct Hspec as (s'' & -> & _ & Hocc & _).
  rewrite run_Ret. eexists _, s''. split; [reflexivity|]. cbn [session_room session_role session_id].
  split; [reflexivity|]. split; [reflexivity|].
  rewrite Hocc, Hempty. apply insert_empty.
Qed.

Lemma join_room_after_createRoom_witness :
  let res := Store.createRoom demo_retain demo_slug "bob" ∅ lobby in
  let carol := {| user_id := "carol"; user_name := "Carol";
                  user_created := Some 1700000000000%Z |} in
  ∃ session s'',
    run (App.join_room demo_retain (Some carol) "brave-otter") ∅ res.2 = (Ok session, ∅, s'')
    ∧ session_room session = ("0", "brave-otter")
    ∧ session_role session = guest.
Proof.
  intros res carol.
  destruct (join_room_after_createRoom demo_retain demo_slug "bob"
              {| room_id := "0"; room_slug := "brave-otter";
                 room_created := Some 1700000000000%Z; room_owner := "bob" |}
              carol ∅ res.1.2 ∅ lobby res.2)
    as (session & s'' & Hrun & Hroom & Hrole & _).
  - vm_compute. reflexivity.
  - vm_compute. reflexivity.
  - exists session, s''. split; [exact Hrun|]. split; [exact Hroom|exact Hrole].
Defined.

(** X27. The join request is turned away before anything is written:
    without a caller identity with Unauthorized, and for a slug that names
    no room, or a room whose record has run out, with NotFound. *)
Theorem join_room_rejects retain (slug : string) (cn : Conn) (s : State) :
  run (App.join_room retain None slug) cn s
  = (Err (Unauthorized "Please register first."), cn, s)
  ∧ ((∀ id, hash_of s KSlugs !! slug = Some id → hash_of s (KRoom id) = ∅) →
     ∀ user, run (App.join_room retain (Some user) slug) cn s
             = (Err (NotFound "Room not found."), cn, s)).
Proof.
  split; [apply run_Throw|]. intros Hmissing user.
  unfold App.join_room, Store.getRoom. rewrite run_mbind, run_getRoom_by_slug.
  destruct (hash_of s KSlugs !! slug) as [id|] eqn:Hslug.
  - rewrite run_getRoom_by_id. cbv zeta.
    rewrite decide_True by (by apply Hmissing). apply run_Throw.
  - apply run_Throw.
Qed.

Lemma join_room_rejects_witness :
  run (App.join_room demo_retain
         (Some {| user_id := "bob"; user_name := "Bob"; user_created := Some 1700000000000%Z |})
         "calm-heron") ∅ lobby_listed
  = (Err (NotFound "Room not found."), ∅, lobby_listed).
Proof.
  apply (proj2 (join_room_rejects demo_retain "calm-heron" ∅ lobby_listed)).
  intros id Hid. vm_compute in Hid. discriminate Hid.
Defined.

(** X28. The session socket is set up only for the caller's own, current
    session.  When the checks of [setup] pass, the caller is in the
    occupancy map of the session's room under this session id, the room
    they yield is the record of the room the session names, and nothing
    was written.  For a session that resolves to somebody else they fail
    with Forbidden, and nothing was written either. *)
Theorem setup_own_session_only (user : User) (id : string) (cn : Conn) (s : State) :
  (∀ room cn' s',
     run (App.setup_room user id) cn s = (Ok room, cn', s') →
     let session_room := field (hash_of s (KConnection id)) "room" in
     hash_of s (KRoomConnections session_room) !! user_id user = Some id
     ∧ run (Store.getRoom by_id session_room) cn s = (Ok (Some room), cn, s)
     ∧ cn' = cn ∧ s' = s)
  ∧ (∀ room owner,
       run (Store.getSession id) cn s = (Ok (Some (room, owner)), cn, s) →
       owner ≠ user_id user →
       run (App.setup_room user id) cn s
       = (Err (Forbidden "Session belongs to a different user."), cn, s)).
Proof.
  split.
  - intros room cn' s'. unfold App.setup_room, Store.getSession, Store.getRoom.
    rewrite run_mbind, run_getSession. cbv zeta.
    destruct (wrongtype s (KConnection id)); [discriminate|].
    destruct (decide (hash_of s (KConnection id) = ∅)); [by rewrite run_Throw|].
    destruct (decide (hash_of s (KUser _) = ∅)); [by rewrite run_Throw|].
    destruct (decide (hash_of s (KRoomConnections _) !! _ = Some id)) as [Hlink|];
      [|by rewrite run_Throw].
    destruct (decide (_ ≠ user_id user)) as [|Hown%dec_stable]; [by rewrite run_Throw|].
    rewrite Hown in Hlink.
    rewrite run_mbind, run_getRoom_by_id. cbv zeta.
    destruct (decide (hash_of s (KRoom _) = ∅)); [by rewrite run_Throw|].
    rewrite run_Ret. intros [= <- <- <-].
    split; [exact Hlink|]. split; [reflexivity|]. split; reflexivity.
  - intros room owner Hsession Hforeign. unfold App.setup_room.
    rewrite run_mbind, Hsession. rewrite decide_True by exact Hforeign. apply run_Throw.
Qed.

Lemma setup_own_session_only_witness :
  let bob := {| user_id := "bob"; user_name := "Bob"; user_created := Some 1700000000000%Z |} in
  let carol := {| user_id := "carol"; user_name := "Carol";
                  user_created := Some 1700000000000%Z |} in
  let r := {| room_id := "r"; room_slug := "brave-otter";
              room_created := Some 1700000000000%Z; room_owner := "alice" |} in
  run (App.setup_room bob "0") ∅ bob_joined = (Ok r, ∅, bob_joined)
  ∧ hash_of bob_joined (KRoomConnections "r") !! "bob" = Some "0"
  ∧ run (App.setup_room carol "0") ∅ bob_joined
    = (Err (Forbidden "Session belongs to a different user."), ∅, bob_joined).
Proof.
  intros bob carol r.
  assert (run (App.setup_room bob "0") ∅ bob_joined = (Ok r, ∅, bob_joined)) as Hrun
    by (vm_compute; reflexivity).
  split; [exact Hrun|]. split.
  - exact (proj1 (proj1 (setup_own_session_only bob "0" ∅ bob_joined) r ∅ bob_joined Hrun)).
  - apply (proj2 (setup_own_session_only carol "0" ∅ bob_joined) "r" "bob").
    + vm_compute. reflexivity.
    + discriminate.
Defined.

(** X29. When the socket closes, the Leave of the session is appended
    to the room's stream whatever becomes of the session itself, also when
    its record is already gone and [deleteSession] fails; and when the
    handler succeeds the session no longer resolves. *)
Theorem on_close_leaves_room retain (room : Room) (user : User) (id : string)
    (cn cn2 : Conn) (s : State) :
  ∃ result cn' s' entry_id,
    run (App.on_close retain (Some room) user id) cn s = (result, cn', s')
    ∧ stream_of s' (KRoomMessages (room_id room))
      = (stream_of s (KRoomMessages (room_id room))
         ++ [ {| entry_id := entry_id;
                 entry_fields := message_fields (Leave (clock s) (user_id user) id) |} ])%list
    ∧ (result = Ok tt → run (Store.getSession id) cn2 s' = (Ok None, cn2, s')).
Proof.
  unfold App.on_close. rewrite run_mbind, run_mbind.
  unfold await at 1. rewrite run_Vis by reflexivity. cbn [exec]. rewrite run_Ret. cbv iota beta.
  rewrite run_mbind.
  destruct (run_writeMessage retain (room_id room) (Leave (clock s) (user_id user) id) cn s)
    as (s1 & -> & Hstream & _).
  rewrite !run_Ret. cbv iota beta. unfold Store.deleteSession.
  pose proof (deleteSession_streams id cn s1 (KRoomMessages (room_id room))) as Hkept.
  pose proof (run_deleteSession id cn s1) as Hspec. cbn zeta in Hspec.
  destruct (run (ConnectedStore.deleteSession id) cn s1) as [[result cn'] s'] eqn:Hrun.
  cbn [snd] in Hkept. exists result, cn', s'. eexists. split; [reflexivity|]. split.
  - unfold stream_of at 1. rewrite Hkept; [exact Hstream|discriminate..|].
    unfold stream_twin. by destruct (strip_suffix ":signal" id).
  - intros ->. unfold Store.getSession. rewrite run_getSession. cbv zeta.
    rewrite (deleteSession_twin_gone _ _ _ _ _ Hrun).
    destruct (wrongtype s1 (KConnection id)); [discriminate Hspec|].
    destruct (truthy (hash_of s1 (KConnection id) !! "room")) as [r|];
      [destruct (truthy (hash_of s1 (KConnection id) !! "owner")) as [o|]|];
      [|discriminate Hspec..].
    destruct Hspec as (s2 & [= _ <-] & _ & Hgone & _).
    rewrite Hgone. by rewrite decide_True.
Qed.

Lemma on_close_leaves_room_witness :
  let alice := {| user_id := "alice"; user_name := "Alice";
                  user_created := Some 1700000000000%Z |} in
  let r := {| room_id := "r"; room_slug := "brave-otter";
              room_created := Some 1700000000000%Z; room_owner := "alice" |} in
  ∃ s', run (App.on_close demo_retain (Some r) alice "0") ∅ both_joined = (Ok tt, ∅, s')
        ∧ run (Store.getSession "0") ∅ s' = (Ok None, ∅, s').
Proof.
  intros alice r.
  destruct (on_close_leaves_room demo_retain r alice "0" ∅ ∅ both_joined)
    as (result & cn' & s' & entry_id & Hrun & _ & Hgone).
  assert ((run (App.on_close demo_retain (Some r) alice "0") ∅ both_joined).1
          = (Ok tt, ∅)) as Hdone by (vm_compute; reflexivity).
  rewrite Hrun in Hdone. injection Hdone as -> ->.
  exists s'. split; [exact Hrun|]. apply Hgone. reflexivity.
Defined.
